(** * Sudoku engine: generation, uniqueness search, validation, calibration

    A shallow embedding of the puzzle engine
    ([puzzle-generator.ts], [puzzle-solver.js], [difficulty-calibrator.js])
    together with the properties its specification states about it.

    Conventions of the embedding.
    - A grid ([number[][]]) is a list of rows of integers; [0] is an empty
      cell.  A read [grid[r][c]] is the partial lookup [cell]; a read outside
      the arrays yields [undefined] in the source and [None] here.
    - In-place updates become explicit state passing: a function that
      mutates its grid argument returns the updated grid.
    - [Math.random] is an oracle: an arbitrary sequence of draws, consumed
      left to right ([Rng]).  Every statement quantifies over the oracle.
    - [Date.now] is likewise a sequence of clock readings ([Clock]).
    - Recursive searches carry a fuel argument; theorems show the fuel
      handed over by the entry points is never exhausted. *)

From stdpp Require Import base option list gmap.
From Stdlib Require Import ZArith NArith QArith Qround Qminmax Lia Reals Lra.
From Stdlib Require Lqa Sorted.

Close Scope Q_scope.
Close Scope R_scope.
Close Scope Z_scope.

Set Default Proof Using "Type".

(** ** Loops *)

(** [for (let i = 0; i < n; i++) body] over a state [A]. *)
Definition for_upto {A} (n : nat) (body : A → nat → A) (a : A) : A :=
  foldl body a (seq 0 n).

Lemma for_upto_S {A} n (body : A → nat → A) a :
  for_upto (S n) body a = body (for_upto n body a) n.
Proof.
  unfold for_upto. rewrite seq_S, foldl_app. reflexivity.
Qed.

(** Loop-invariant rule for a counted loop. *)
Lemma for_upto_inv {A} (Inv : nat → A → Prop) n (body : A → nat → A) a :
  Inv 0 a →
  (∀ k s, k < n → Inv k s → Inv (S k) (body s k)) →
  Inv n (for_upto n body a).
Proof.
  intros H0 Hstep. induction n as [|n IH].
  - exact H0.
  - rewrite for_upto_S. apply Hstep; [lia|]. apply IH.
    intros k s Hk. apply Hstep. lia.
Qed.

(** ** Grids *)

Abbreviation Grid := (list (list Z)).

(** [grid[r][c]] *)
Definition cell (g : Grid) (r c : nat) : option Z :=
  g !! r ≫= λ row, row !! c.

(** [grid[r][c] = v], for a position inside the arrays. *)
Definition set_cell (g : Grid) (r c : nat) (v : Z) : Grid :=
  alter (λ row, <[c:=v]> row) r g.

(** The shape every grid of the engine has: [n] rows of [n] cells. *)
Definition square (n : nat) (g : Grid) : Prop :=
  length g = n ∧ ∀ r row, g !! r = Some row → length row = n.

Lemma cell_set_cell_eq g r c v :
  is_Some (cell g r c) → cell (set_cell g r c v) r c = Some v.
Proof.
  unfold cell, set_cell. intros [x Hx].
  destruct (g !! r) as [row|] eqn:Hr; simpl in Hx; [|discriminate].
  rewrite list_lookup_alter_eq, Hr. simpl.
  apply list_lookup_insert_eq. eapply lookup_lt_Some; eauto.
Qed.

Lemma cell_set_cell_ne g r c v r' c' :
  (r, c) ≠ (r', c') → cell (set_cell g r c v) r' c' = cell g r' c'.
Proof.
  unfold cell, set_cell. intros Hne.
  destruct (decide (r = r')) as [->|Hr].
  - rewrite list_lookup_alter_eq. destruct (g !! r') as [row|]; simpl; [|done].
    apply list_lookup_insert_ne. congruence.
  - rewrite list_lookup_alter_ne by done. done.
Qed.

Lemma set_cell_square n g r c v : square n g → square n (set_cell g r c v).
Proof.
  unfold square, set_cell. intros [Hl Hrows]. split.
  - by rewrite length_alter.
  - intros r' row Hrow. destruct (decide (r = r')) as [->|Hr].
    + rewrite list_lookup_alter_eq in Hrow.
      destruct (g !! r') as [row'|] eqn:E; simpl in Hrow; [|done].
      injection Hrow as <-. rewrite length_insert. eauto.
    + rewrite list_lookup_alter_ne in Hrow by done. eauto.
Qed.

Lemma square_cell_is_Some n g r c :
  square n g → r < n → c < n → is_Some (cell g r c).
Proof.
  intros [Hl Hrows] Hr Hc. unfold cell.
  destruct (lookup_lt_is_Some_2 g r) as [row Hrow]; [lia|].
  rewrite Hrow. simpl. apply lookup_lt_is_Some_2.
  rewrite (Hrows _ _ Hrow). done.
Qed.

Lemma cell_is_Some_lt n g r c :
  square n g → is_Some (cell g r c) → r < n ∧ c < n.
Proof.
  intros [Hl Hrows] [v Hv]. unfold cell in Hv.
  destruct (g !! r) as [row|] eqn:Hrow; simpl in Hv; [|done].
  split.
  - rewrite <- Hl. eapply lookup_lt_Some; eauto.
  - rewrite <- (Hrows _ _ Hrow). eapply lookup_lt_Some; eauto.
Qed.

(** Two square grids with the same cells are the same grid. *)
Lemma square_ext n g1 g2 :
  square n g1 → square n g2 →
  (∀ r c, r < n → c < n → cell g1 r c = cell g2 r c) → g1 = g2.
Proof.
  intros [Hl1 Hr1] [Hl2 Hr2] Hcells.
  apply list_eq. intros r.
  destruct (decide (r < n)) as [Hr|Hr].
  - destruct (lookup_lt_is_Some_2 g1 r) as [row1 E1]; [lia|].
    destruct (lookup_lt_is_Some_2 g2 r) as [row2 E2]; [lia|].
    rewrite E1, E2. f_equal. apply list_eq. intros c.
    destruct (decide (c < n)) as [Hc|Hc].
    + specialize (Hcells r c Hr Hc). unfold cell in Hcells.
      rewrite E1, E2 in Hcells. exact Hcells.
    + rewrite !lookup_ge_None_2; [done| |].
      * rewrite (Hr2 _ _ E2). lia.
      * rewrite (Hr1 _ _ E1). lia.
  - rewrite !lookup_ge_None_2; [done|lia|lia].
Qed.

(** ** The random oracle *)

(** The sequence of values [Math.random] will produce, and how many of them
    have been consumed. *)
Record Rng := mkRng { draws : nat → nat; cursor : nat }.

(** [Math.floor(Math.random() * bound)]: a draw in [0, bound). *)
Definition random_below (bound : nat) (rng : Rng) : nat * Rng :=
  (draws rng (cursor rng) `mod` bound, mkRng (draws rng) (S (cursor rng))).

Lemma random_below_lt bound rng : 0 < bound → (random_below bound rng).1 < bound.
Proof. intros H. simpl. apply Nat.mod_upper_bound. lia. Qed.

(** A concrete oracle, used to run the engine on examples: the draws are a
    fixed scrambling of the seed and the draw index. *)
Definition scrambled (seed : N) : Rng :=
  mkRng (λ k,
    let x := ((N.of_nat k + seed * 7919 + 1) * 2654435761 mod 4294967296)%N in
    let y := (N.lxor x (N.shiftr x 15) * 2246822519 mod 4294967296)%N in
    N.to_nat (N.shiftr y 13 mod 5040)%N) 0.

(** [[a[i], a[j]] = [a[j], a[i]]] *)
Definition swap {T} (a : list T) (i j : nat) : list T :=
  match a !! i, a !! j with
  | Some x, Some y => <[j:=x]> (<[i:=y]> a)
  | _, _ => a
  end.

(** [shuffleArray]: Fisher-Yates on a copy, [i] running from the last index
    down to 1. *)
Definition shuffleArray {T} (array : list T) (rng : Rng) : list T * Rng :=
  foldl (λ '(shuffled, rng) i,
           let '(j, rng) := random_below (i + 1) rng in
           (swap shuffled i j, rng))
        (array, rng) (reverse (seq 1 (length array - 1))).

Lemma swap_Permutation {T} (a : list T) i j : swap a i j ≡ₚ a.
Proof.
  unfold swap. destruct (a !! i) as [x|] eqn:Hi; [|done].
  destruct (a !! j) as [y|] eqn:Hj; [|done].
  destruct (decide (i = j)) as [->|Hij].
  - rewrite list_insert_insert_eq. assert (x = y) as -> by congruence.
    by rewrite list_insert_id.
  - apply Permutation_inj. split.
    + by rewrite !length_insert.
    + exists (λ k, if decide (k = i) then j else if decide (k = j) then i else k).
      split.
      * intros k1 k2. repeat case_decide; congruence.
      * intros k. repeat case_decide; subst.
        -- rewrite list_lookup_insert_ne by done.
           rewrite list_lookup_insert_eq; [done|]. eapply lookup_lt_Some; eauto.
        -- rewrite list_lookup_insert_eq; [done|].
           rewrite length_insert. eapply lookup_lt_Some; eauto.
        -- by rewrite !list_lookup_insert_ne by done.
Qed.

Lemma shuffleArray_Permutation {T} (array : list T) rng :
  (shuffleArray array rng).1 ≡ₚ array.
Proof.
  unfold shuffleArray.
  generalize (reverse (seq 1 (length array - 1))) as idx.
  intros idx. revert array rng.
  induction idx as [|i idx IH]; intros cur rng; simpl.
  - done.
  - rewrite IH. apply swap_Permutation.
Qed.

(** ** Shared types ([types/puzzle.ts]) *)

Inductive PuzzleVariant := CLASSIC | KILLER | X_SUDOKU | HYPER | MINI | MEGA.

Inductive Difficulty := BEGINNER | EASY | MEDIUM | HARD | EXPERT.

Inductive SolvingTechnique :=
  | NAKED_SINGLES | HIDDEN_SINGLES | NAKED_PAIRS | HIDDEN_PAIRS
  | POINTING_PAIRS | BOX_LINE_REDUCTION | X_WING | SWORDFISH
  | XY_WING | COLORING | FORCING_CHAINS.

Global Instance SolvingTechnique_eq_dec : EqDecision SolvingTechnique.
Proof. solve_decision. Defined.

Global Instance Difficulty_eq_dec : EqDecision Difficulty.
Proof. solve_decision. Defined.

(** [PuzzleSize]: the sizes the type declares. *)
Definition MINI_6X6 : nat := 6.
Definition CLASSIC_9X9 : nat := 9.
Definition MEGA_16X16 : nat := 16.

Record Position := mkPosition { row : nat; col : nat }.

Inductive ConstraintType := cage | diagonal | extra_region.

Record Constraint := mkConstraint {
  constraint_type : ConstraintType;
  constraint_positions : list Position
}.

(** [Math.sqrt(size) === Math.floor(Math.sqrt(size))]: the root of a
    natural number is whole exactly when the number is a perfect square
    (IEEE square root is exact on perfect squares far beyond any grid size). *)
Definition sqrt_is_whole (size : nat) : bool :=
  Nat.sqrt size * Nat.sqrt size =? size.

(** [grid[r][c] === v] *)
Definition cell_is (g : Grid) (r c : nat) (v : Z) : bool :=
  bool_decide (cell g r c = Some v).

(** Nested counted loops that return at the first hit. *)
Fixpoint first_hit {A B} (f : A → option B) (l : list A) : option B :=
  match l with
  | [] => None
  | x :: l => match f x with Some y => Some y | None => first_hit f l end
  end.

(** [for (let x = 0; x < size; x += step)]: the values [x] takes. *)
Definition stride (size step : nat) : list nat :=
  (λ k, k * step) <$> seq 0 (if step is 0 then 0 else (size + step - 1) / step).

Record PuzzleMetadata := mkMetadata {
  estimatedSolveTime : Z;
  techniques : list SolvingTechnique;
  rating : Q;
  playCount : nat;
  averageSolveTime : nat;
  tags : PuzzleVariant * Difficulty
}.

(** [Puzzle].  The [id] and [createdAt] fields, formatted from the clock and
    one further oracle draw after everything else has been computed, carry no
    puzzle data and are not part of the record. *)
Record Puzzle := mkPuzzle {
  variant : PuzzleVariant;
  difficulty : Difficulty;
  size : nat;
  initialState : Grid;
  solution : Grid;
  constraints : list Constraint;
  metadata : PuzzleMetadata;
  difficultyScore : Q
}.

Record PuzzleGenerationOptions := mkOptions {
  opt_variant : PuzzleVariant;
  opt_difficulty : Difficulty;
  opt_size : nat;
  opt_constraints : option (list Constraint)
}.

(** [Math.round] on a rational. *)
Definition round_half_up (q : Q) : Z := Qfloor (q + (1 # 2))%Q.

(** * The generator ([puzzle-generator.ts]) *)

Module Generator.

(** The helpers take [Math.sqrt(size)] as [Nat.sqrt size], which is what the
    source computes when the root of the size is whole.  [generatePuzzle]
    checks that before it calls them; the public [validateUniqueSolution]
    and [calculateDifficulty] do not, and the statements about them assume
    it. *)

Inductive GenerationError :=
  | InvalidPuzzleSize (size : nat)
  | FailedToGenerateCompleteSolution.

Inductive Outcome (A : Type) :=
  | Returned (a : A)
  | Thrown (e : GenerationError)
  | OutOfFuel.
Arguments Returned {A} a.
Arguments Thrown {A} e.
Arguments OutOfFuel {A}.

Definition techniqueScores (t : SolvingTechnique) : Q :=
  match t with
  | NAKED_SINGLES => 1 # 10
  | HIDDEN_SINGLES => 2 # 10
  | NAKED_PAIRS => 1
  | HIDDEN_PAIRS => 12 # 10
  | POINTING_PAIRS => 15 # 10
  | BOX_LINE_REDUCTION => 18 # 10
  | X_WING => 25 # 10
  | SWORDFISH => 35 # 10
  | XY_WING => 4
  | COLORING => 45 # 10
  | FORCING_CHAINS => 5
  end%Q.

Definition findEmptyCell (grid : Grid) (size : nat) : option (nat * nat) :=
  first_hit (λ row,
    first_hit (λ col, if cell_is grid row col 0 then Some (row, col) else None)
              (seq 0 size))
    (seq 0 size).

Definition isValidMove (grid : Grid) (row col : nat) (num : Z) (size : nat) : bool :=
  forallb (λ c, negb (cell_is grid row c num)) (seq 0 size)
  && forallb (λ r, negb (cell_is grid r col num)) (seq 0 size)
  && (let boxSize := Nat.sqrt size in
      let boxRow := row / boxSize * boxSize in
      let boxCol := col / boxSize * boxSize in
      forallb (λ r, forallb (λ c, negb (cell_is grid r c num)) (seq boxCol boxSize))
              (seq boxRow boxSize)).

(** The [for (const num of numbers)] loop of [solvePuzzle]; [rec] is the
    recursive call. *)
Fixpoint try_numbers (rec : Grid → Rng → option (bool * Grid * Rng))
    (row col size : nat) (numbers : list Z) (grid : Grid) (rng : Rng)
    : option (bool * Grid * Rng) :=
  match numbers with
  | [] => Some (false, grid, rng)
  | num :: numbers =>
    if isValidMove grid row col num size then
      match rec (set_cell grid row col num) rng with
      | None => None
      | Some (true, grid, rng) => Some (true, grid, rng)
      | Some (false, grid, rng) =>
        try_numbers rec row col size numbers (set_cell grid row col 0) rng
      end
    else try_numbers rec row col size numbers grid rng
  end.

(** [solvePuzzle]: randomized backtracking fill, in place.  Returns the
    verdict, the grid as the call leaves it and the oracle; [None] when the
    fuel runs out. *)
Fixpoint solvePuzzle (fuel : nat) (grid : Grid) (size : nat) (rng : Rng)
    : option (bool * Grid * Rng) :=
  match fuel with
  | 0 => None
  | S fuel =>
    match findEmptyCell grid size with
    | None => Some (true, grid, rng)
    | Some (row, col) =>
      let '(numbers, rng) := shuffleArray (Z.of_nat <$> seq 1 size) rng in
      try_numbers (λ g r, solvePuzzle fuel g size r) row col size numbers grid rng
    end
  end.

(** One recursion level per empty cell, plus the call that finds none. *)
Definition search_fuel (size : nat) : nat := S (size * size).

Definition generateCompleteSolution (size : nat) (rng : Rng) : Outcome (Grid * Rng) :=
  let grid := replicate size (replicate size 0%Z) in
  match solvePuzzle (search_fuel size) grid size rng with
  | None => OutOfFuel
  | Some (true, grid, rng) => Returned (grid, rng)
  | Some (false, _, _) => Thrown FailedToGenerateCompleteSolution
  end.

(** The [for (let num = 1; num <= size; num++)] loop of [findAllSolutions]. *)
Fixpoint enumerate (rec : Grid → list Grid → option (Grid * list Grid))
    (row col size maxSolutions : nat) (nums : list Z) (grid : Grid)
    (solutions : list Grid) : option (Grid * list Grid) :=
  match nums with
  | [] => Some (grid, solutions)
  | num :: nums =>
    if isValidMove grid row col num size then
      match rec (set_cell grid row col num) solutions with
      | None => None
      | Some (grid, solutions) =>
        let grid := set_cell grid row col 0 in
        if maxSolutions <=? length solutions then Some (grid, solutions)
        else enumerate rec row col size maxSolutions nums grid solutions
      end
    else enumerate rec row col size maxSolutions nums grid solutions
  end.

Fixpoint findAllSolutions (fuel : nat) (grid : Grid) (size : nat)
    (solutions : list Grid) (maxSolutions : nat) : option (Grid * list Grid) :=
  match fuel with
  | 0 => None
  | S fuel =>
    if maxSolutions <=? length solutions then Some (grid, solutions)
    else match findEmptyCell grid size with
    | None => Some (grid, solutions ++ [grid])
    | Some (row, col) =>
      enumerate (λ g s, findAllSolutions fuel g size s maxSolutions)
                row col size maxSolutions (Z.of_nat <$> seq 1 size) grid solutions
    end
  end.

(** [validateUniqueSolution]; [None] when the fuel runs out. *)
Definition validateUniqueSolution (grid : Grid) : option bool :=
  let size := length grid in
  match findAllSolutions (search_fuel size) grid size [] 2 with
  | None => None
  | Some (_, solutions) => Some (length solutions =? 1)
  end.

(** [box.pop()] *)
Definition pop {T} (a : list T) : list T * option T :=
  (take (length a - 1) a, last a).

(** One pass of the round-robin of [getBalancedRemovalOrder]: every box
    visited, in the order [traverse] lists them, gives up its last position.
    The boxes are shared between [boxes] and its reversed copy, hence
    addressed by their index in [boxes]. *)
Definition removal_pass (traverse : list nat)
    (st : list (list Position) * list Position * nat)
    : list (list Position) * list Position * nat :=
  foldl (λ '(boxes, positions, remaining) i,
           match boxes !! i with
           | Some box =>
             match pop box with
             | (box, Some cell) => (<[i:=box]> boxes, positions ++ [cell], remaining - 1)
             | (_, None) => (boxes, positions, remaining)
             end
           | None => (boxes, positions, remaining)
           end) st traverse.

(** The [while (remaining > 0)] loop; at most [fuel] passes.  As many
    passes as there are positions left always suffice
    ([GeneratorFacts.removal_passes_spec]). *)
Fixpoint removal_passes (fuel : nat) (boxes : list (list Position))
    (positions : list Position) (remaining step : nat) : list Position :=
  match fuel with
  | 0 => positions
  | S fuel =>
    if remaining =? 0 then positions
    else
      let traverse :=
        if step `mod` 2 =? 0 then seq 0 (length boxes)
        else reverse (seq 0 (length boxes)) in
      let '(boxes, positions, remaining) :=
        removal_pass traverse (boxes, positions, remaining) in
      removal_passes fuel boxes positions remaining (S step)
  end.

Definition getBalancedRemovalOrder (size : nat) (rng : Rng) : list Position * Rng :=
  let boxSize := Nat.sqrt size in
  let '(boxes, rng) :=
    for_upto boxSize (λ st boxRow,
      for_upto boxSize (λ '(boxes, rng) boxCol,
        let boxPositions :=
          r ← seq (boxRow * boxSize) boxSize;
          c ← seq (boxCol * boxSize) boxSize;
          [mkPosition r c] in
        let '(boxPositions, rng) := shuffleArray boxPositions rng in
        (boxes ++ [boxPositions], rng)) st) ([], rng) in
  let '(boxes, rng) := shuffleArray boxes rng in
  let remaining := foldl (λ sum b, sum + length b) 0 boxes in
  (removal_passes remaining boxes [] remaining 0, rng).

(** The loop of [createEasyPuzzle]. *)
Fixpoint easy_removals (positions : list Position) (puzzle : Grid)
    (targetClues currentClues : nat) : Grid :=
  match positions with
  | [] => puzzle
  | pos :: positions =>
    if currentClues <=? targetClues then puzzle
    else if cell_is puzzle (row pos) (col pos) 0
    then easy_removals positions puzzle targetClues currentClues
    else easy_removals positions (set_cell puzzle (row pos) (col pos) 0)
                       targetClues (currentClues - 1)
  end.

Definition createEasyPuzzle (puzzle : Grid) (targetClues size : nat) (rng : Rng)
    : Grid * Rng :=
  let '(positions, rng) := getBalancedRemovalOrder size rng in
  (easy_removals positions puzzle targetClues (size * size), rng).

Definition hasAnySolution (grid : Grid) (size : nat) (rng : Rng) : option (bool * Rng) :=
  let workingGrid := grid in
  match solvePuzzle (search_fuel size) workingGrid size rng with
  | None => None
  | Some (found, _, rng) => Some (found, rng)
  end.

Definition maxAttempts : nat := 200.

(** The loop of [createHardPuzzle]. *)
Fixpoint hard_removals (positions : list Position) (puzzle : Grid)
    (size targetClues currentClues attempts : nat) (rng : Rng)
    : option (Grid * Rng) :=
  match positions with
  | [] => Some (puzzle, rng)
  | pos :: positions =>
    if (currentClues <=? targetClues) || (maxAttempts <=? attempts)
    then Some (puzzle, rng)
    else
      let attempts := S attempts in
      match cell puzzle (row pos) (col pos) with
      | Some 0%Z =>
        hard_removals positions puzzle size targetClues currentClues attempts rng
      | originalValue =>
        let puzzle := set_cell puzzle (row pos) (col pos) 0 in
        if attempts `mod` 5 =? 0 then
          match hasAnySolution puzzle size rng with
          | None => None
          | Some (false, rng) =>
            let puzzle :=
              match originalValue with
              | Some v => set_cell puzzle (row pos) (col pos) v
              | None => puzzle
              end in
            hard_removals positions puzzle size targetClues currentClues attempts rng
          | Some (true, rng) =>
            hard_removals positions puzzle size targetClues (currentClues - 1) attempts rng
          end
        else
          hard_removals positions puzzle size targetClues (currentClues - 1) attempts rng
      end
  end.

Definition createHardPuzzle (puzzle : Grid) (targetClues size : nat) (rng : Rng)
    : option (Grid * Rng) :=
  let '(positions, rng) := getBalancedRemovalOrder size rng in
  hard_removals positions puzzle size targetClues (size * size) 0 rng.

Definition clueRanges (d : Difficulty) : nat * nat :=
  match d with
  | BEGINNER => (50, 60)
  | EASY => (36, 46)
  | MEDIUM => (32, 35)
  | HARD => (28, 31)
  | EXPERT => (22, 27)
  end.

(** [clueRatios], in hundredths. *)
Definition clueRatios (d : Difficulty) : nat :=
  match d with
  | BEGINNER => 65
  | EASY => 50
  | MEDIUM => 40
  | HARD => 32
  | EXPERT => 28
  end.

(** [calculateTargetClues].  The doubles nearest to the five ratios lie at
    or just above them, so [Math.floor(totalCells * ratio)] is the floor of
    the exact product for every grid size in reach. *)
Definition calculateTargetClues (size : nat) (d : Difficulty) (rng : Rng) : nat * Rng :=
  if size =? 9 then
    let '(lo, hi) := clueRanges d in
    let '(k, rng) := random_below (hi - lo + 1) rng in
    (k + lo, rng)
  else
    let totalCells := size * size in
    (totalCells * clueRatios d / 100, rng).

Definition createPuzzleFromSolution (solution : Grid) (d : Difficulty) (size : nat)
    (rng : Rng) : option (Grid * Rng) :=
  let puzzle := solution in
  let '(targetClues, rng) := calculateTargetClues size d rng in
  match d with
  | EXPERT | HARD => createHardPuzzle puzzle targetClues size rng
  | _ => Some (createEasyPuzzle puzzle targetClues size rng)
  end.

Definition isGridComplete (grid : Grid) : bool :=
  forallb (λ row, forallb (λ cell, negb (cell =? 0)%Z) row) grid.

Definition getCandidates (grid : Grid) (row col size : nat) : list Z :=
  filter (λ num, isValidMove grid row col num size = true) (Z.of_nat <$> seq 1 size).

Definition applyNakedSingles (grid : Grid) : Grid * bool :=
  let size := length grid in
  for_upto size (λ st row,
    for_upto size (λ '(grid, progress) col,
      if cell_is grid row col 0 then
        match getCandidates grid row col size with
        | [value] => (set_cell grid row col value, true)
        | _ => (grid, progress)
        end
      else (grid, progress)) st) (grid, false).

(** The common shape of the three hidden-single scans: for each number,
    collect the empty cells of the unit that accept it, and fill the cell
    when there is exactly one. *)
Definition fill_hidden_singles (unit : list (nat * nat)) (size : nat)
    (grid : Grid) : Grid * bool :=
  foldl (λ '(grid, progress) num,
           let possible :=
             filter (λ '(r, c), cell_is grid r c 0 && isValidMove grid r c num size = true)
                    unit in
           match possible with
           | [(r, c)] => (set_cell grid r c num, true)
           | _ => (grid, progress)
           end)
        (grid, false) (Z.of_nat <$> seq 1 size).

Definition findHiddenSinglesInRow (grid : Grid) (row size : nat) : Grid * bool :=
  fill_hidden_singles ((λ col, (row, col)) <$> seq 0 size) size grid.

Definition findHiddenSinglesInColumn (grid : Grid) (col size : nat) : Grid * bool :=
  fill_hidden_singles ((λ row, (row, col)) <$> seq 0 size) size grid.

Definition findHiddenSinglesInBox (grid : Grid) (startRow startCol boxSize : nat)
    : Grid * bool :=
  let size := length grid in
  fill_hidden_singles (r ← seq startRow boxSize; c ← seq startCol boxSize; [(r, c)])
                      size grid.

Definition applyHiddenSingles (grid : Grid) : Grid * bool :=
  let size := length grid in
  let st :=
    for_upto size (λ '(grid, progress) i,
      let '(grid, p1) := findHiddenSinglesInRow grid i size in
      let progress := p1 || progress in
      let '(grid, p2) := findHiddenSinglesInColumn grid i size in
      (grid, p2 || progress)) (grid, false) in
  let boxSize := Nat.sqrt size in
  foldl (λ st boxRow,
    foldl (λ '(grid, progress) boxCol,
      let '(grid, p) := findHiddenSinglesInBox grid boxRow boxCol boxSize in
      (grid, p || progress)) st (stride size boxSize)) st (stride size boxSize).

Definition applyNakedPairs (grid : Grid) : bool := false.

(** [techniques.includes(t) || techniques.push(t)] *)
Definition note_technique (t : SolvingTechnique) (ts : list SolvingTechnique)
    : list SolvingTechnique :=
  if bool_decide (t ∈ ts) then ts else ts ++ [t].

(** The [while (!isGridComplete(workingGrid))] loop of
    [analyzeSolvingTechniques]; [None] when the fuel runs out. *)
Fixpoint analysis_loop (fuel : nat) (workingGrid : Grid)
    (techniques : list SolvingTechnique) : option (list SolvingTechnique) :=
  match fuel with
  | 0 => None
  | S fuel =>
    if isGridComplete workingGrid then Some techniques
    else
      let '(workingGrid, applied) := applyNakedSingles workingGrid in
      if applied then analysis_loop fuel workingGrid (note_technique NAKED_SINGLES techniques)
      else
        let '(workingGrid, applied) := applyHiddenSingles workingGrid in
        if applied then analysis_loop fuel workingGrid (note_technique HIDDEN_SINGLES techniques)
        else if applyNakedPairs workingGrid
        then analysis_loop fuel workingGrid (note_technique NAKED_PAIRS techniques)
        else Some (techniques ++ [FORCING_CHAINS])
  end.

Definition analyzeSolvingTechniques (puzzle _solution : Grid)
    : option (list SolvingTechnique) :=
  let workingGrid := puzzle in
  analysis_loop (S (length puzzle * length puzzle)) workingGrid [].

Definition calculateDifficultyFromTechniques (ts : list SolvingTechnique) : Q :=
  let score := foldl (λ score t, score + techniqueScores t)%Q 0%Q ts in
  Qmin score 10%Q.

Definition estimateSolveTime (difficultyScore : Q) : Z :=
  let baseTime := 300%Q in
  round_half_up (baseTime * (1 + difficultyScore / 5))%Q.

Definition generateBandWisePermutation (size : nat) (rng : Rng) : list nat * Rng :=
  let box := Nat.sqrt size in
  let '(bands, rng) :=
    for_upto box (λ '(bands, rng) b,
      let '(within, rng) := shuffleArray ((λ i, b * box + i) <$> seq 0 box) rng in
      (bands ++ [within], rng)) ([], rng) in
  let '(bandOrder, rng) := shuffleArray (seq 0 box) rng in
  (b ← bandOrder; default [] (bands !! b), rng).

(** [invertPermutation].  It is called with permutations of 0..n-1, so
    every [perm[i]] is an index of [inv]; an entry beyond the end, which
    would make the JavaScript array grow, is left out here. *)
Definition invertPermutation (perm : list nat) : list nat :=
  for_upto (length perm) (λ inv i,
    match perm !! i with
    | Some target => <[target:=i]> inv
    | None => inv
    end) (replicate (length perm) 0).

(** [applyPermutation].  It is called with permutations of the row and
    column indices of a square grid, so every index it computes lies inside
    [out]; the re-allocation guard [out[rowPerm[r]] || ...] never fires. *)
Definition applyPermutation (grid : Grid) (rowPerm colPerm : list nat) : Grid :=
  let size := length grid in
  let out := replicate size (replicate size 0%Z) in
  for_upto size (λ out r,
    for_upto size (λ out c,
      match rowPerm !! r, colPerm !! c, cell grid r c with
      | Some pr, Some pc, Some v => set_cell out pr pc v
      | _, _, _ => out
      end) out) out.

Definition generatePuzzle (options : PuzzleGenerationOptions) (rng : Rng)
    : Outcome Puzzle :=
  let size := opt_size options in
  if negb (sqrt_is_whole size) then Thrown (InvalidPuzzleSize size)
  else
    let '(rowPerm, rng) := generateBandWisePermutation size rng in
    let '(colPerm, rng) := generateBandWisePermutation size rng in
    match generateCompleteSolution size rng with
    | OutOfFuel => OutOfFuel
    | Thrown e => Thrown e
    | Returned (solution, rng) =>
      let solution := applyPermutation solution rowPerm colPerm in
      match createPuzzleFromSolution solution (opt_difficulty options) size rng with
      | None => OutOfFuel
      | Some (initialState, rng) =>
        let initialState :=
          applyPermutation initialState (invertPermutation rowPerm)
                           (invertPermutation colPerm) in
        let solution :=
          applyPermutation solution (invertPermutation rowPerm)
                           (invertPermutation colPerm) in
        match analyzeSolvingTechniques initialState solution with
        | None => OutOfFuel
        | Some techniques =>
          let difficultyScore := calculateDifficultyFromTechniques techniques in
          Returned {|
            variant := opt_variant options;
            difficulty := opt_difficulty options;
            size := opt_size options;
            initialState := initialState;
            solution := solution;
            constraints := default [] (opt_constraints options);
            metadata := {|
              estimatedSolveTime := estimateSolveTime difficultyScore;
              techniques := techniques;
              rating := (inject_Z (round_half_up (difficultyScore * 10)) / 10)%Q;
              playCount := 0;
              averageSolveTime := 0;
              tags := (opt_variant options, opt_difficulty options)
            |};
            difficultyScore := difficultyScore
          |}
        end
      end
    end.

End Generator.

(** * Permutations of the generator *)

Module Permutations.
Import Generator.

Section perm.
Context (n : nat) (p : list nat) (Hp : p ≡ₚ seq 0 n).

Lemma perm_length : length p = n.
Proof using Hp. by rewrite Hp, length_seq. Qed.

Lemma perm_NoDup : NoDup p.
Proof using Hp. rewrite Hp. apply NoDup_seq. Qed.

Lemma perm_lookup_lt i x : p !! i = Some x → x < n.
Proof using Hp.
  intros Hi. apply list_elem_of_lookup_2 in Hi.
  rewrite Hp, elem_of_seq in Hi. lia.
Qed.

Lemma perm_lookup_total i : i < n → ∃ x, p !! i = Some x.
Proof using Hp.
  intros Hi. apply lookup_lt_is_Some_2. by rewrite perm_length.
Qed.

Lemma perm_surjective x : x < n → ∃ i, p !! i = Some x.
Proof using Hp.
  intros Hx. apply list_elem_of_lookup_1. rewrite Hp, elem_of_seq. lia.
Qed.

Lemma perm_injective i j x : p !! i = Some x → p !! j = Some x → i = j.
Proof using Hp. apply NoDup_lookup, perm_NoDup. Qed.

(** What the loop of [invertPermutation] establishes. *)
Lemma invertPermutation_spec :
  length (invertPermutation p) = n ∧
  ∀ i x, p !! i = Some x → invertPermutation p !! x = Some i.
Proof using Hp.
  unfold invertPermutation. rewrite perm_length.
  pose (Inv := λ k (inv : list nat),
    length inv = n ∧ ∀ i x, i < k → p !! i = Some x → inv !! x = Some i).
  assert (Inv n (for_upto n (λ inv i,
    match p !! i with Some target => <[target:=i]> inv | None => inv end)
    (replicate n 0))) as [Hlen Hall].
  { apply for_upto_inv.
    - split; [by rewrite length_replicate | intros; lia].
    - intros k inv Hk [Hlen Hinv].
      destruct (perm_lookup_total k Hk) as [pk Hpk]. rewrite Hpk. split.
      + by rewrite length_insert.
      + intros i x Hi Hix. destruct (decide (i = k)) as [->|Hne].
        * assert (x = pk) as -> by congruence.
          apply list_lookup_insert_eq. rewrite Hlen. eauto using perm_lookup_lt.
        * rewrite list_lookup_insert_ne; [apply Hinv; [lia|done]|].
          intros ->. apply Hne. eauto using perm_injective. }
  split; [done|]. intros i x Hix. apply Hall; [|done].
  rewrite <- perm_length. eapply lookup_lt_Some; eauto.
Qed.

(** The inverse of a permutation is a permutation. *)
Lemma invertPermutation_perm : invertPermutation p ≡ₚ seq 0 n.
Proof using Hp.
  destruct invertPermutation_spec as [Hlen Hinv].
  assert (∀ x i, invertPermutation p !! x = Some i → p !! i = Some x) as Hback.
  { intros x i Hx.
    assert (x < n) as Hxn by (rewrite <- Hlen; eapply lookup_lt_Some; eauto).
    destruct (perm_surjective x Hxn) as [j Hj].
    rewrite (Hinv _ _ Hj) in Hx. congruence. }
  apply NoDup_Permutation.
  - apply NoDup_alt. intros x y i Hx Hy.
    apply Hback in Hx, Hy. congruence.
  - apply NoDup_seq.
  - intros i. rewrite elem_of_seq. split.
    + intros Hi. apply list_elem_of_lookup_1 in Hi as [x Hx].
      apply Hback in Hx. apply lookup_lt_Some in Hx.
      rewrite perm_length in Hx. lia.
    + intros Hi. destruct (perm_lookup_total i) as [x Hx]; [lia|].
      eapply list_elem_of_lookup_2. eauto.
Qed.
End perm.

(** What the nested loop of [applyPermutation] establishes: cell [(r, c)] of
    the input is found at [(rowPerm[r], colPerm[c])] of the output. *)
Lemma applyPermutation_spec n g p q :
  square n g → p ≡ₚ seq 0 n → q ≡ₚ seq 0 n →
  square n (applyPermutation g p q) ∧
  ∀ r c pr pc, p !! r = Some pr → q !! c = Some pc →
    cell (applyPermutation g p q) pr pc = cell g r c.
Proof.
  intros Hg Hp Hq. unfold applyPermutation.
  destruct Hg as [Hlen Hrows]. rewrite Hlen.
  assert (square n g) as Hg by done.
  pose (Inv := λ k (out : Grid),
    square n out ∧ ∀ r c pr pc, r < k → p !! r = Some pr → q !! c = Some pc →
      cell out pr pc = cell g r c).
  assert (Inv 0 (replicate n (replicate n 0%Z))) as H0.
  { split; [|intros; lia]. split; [by rewrite length_replicate|].
    intros r rw Hr. apply lookup_replicate in Hr as [-> _].
    by rewrite length_replicate. }
  match goal with |- square n ?o ∧ _ => assert (Inv n o) as [Hsq Hall] end.
  { apply for_upto_inv; [exact H0|]. clear H0.
    intros k out Hk [Hsq Hdone].
    destruct (perm_lookup_total n p Hp k Hk) as [pk Hpk].
    pose (J := λ m (out : Grid),
      square n out ∧
      (∀ r c pr pc, r < k → p !! r = Some pr → q !! c = Some pc →
         cell out pr pc = cell g r c) ∧
      (∀ c pc, c < m → q !! c = Some pc → cell out pk pc = cell g k c)).
    match goal with |- Inv _ ?o => assert (J n o) as (Hsq' & Hold & Hnew) end.
    { apply for_upto_inv.
      - split; [done|]. split; [done|intros; lia].
      - intros m o Hm (Ho & Hold & Hnew).
        destruct (perm_lookup_total n q Hq m Hm) as [pm Hpm].
        destruct (square_cell_is_Some n g k m Hg Hk Hm) as [v Hv].
        rewrite Hpk, Hpm, Hv.
        assert (pk < n) by eauto using perm_lookup_lt.
        assert (pm < n) by eauto using perm_lookup_lt.
        split; [by apply set_cell_square|]. split.
        + intros r c pr pc Hr Hpr Hpc. rewrite cell_set_cell_ne; [eauto|].
          intros [= <- _].
          assert (k = r) by eauto using perm_injective. lia.
        + intros c pc Hc Hpc. destruct (decide (c = m)) as [->|Hne].
          * assert (pc = pm) as -> by congruence. rewrite Hv.
            apply cell_set_cell_eq. eauto using square_cell_is_Some.
          * rewrite cell_set_cell_ne; [apply Hnew; [lia|done]|].
            intros Heq. apply Hne. assert (pm = pc) as <- by congruence.
            eauto using perm_injective. }
    split; [done|]. intros r c pr pc Hr Hpr Hpc.
    destruct (decide (r = k)) as [->|Hne].
    - assert (pr = pk) as -> by congruence. apply Hnew; [|done].
      apply lookup_lt_Some in Hpc. by rewrite (perm_length n q Hq) in Hpc.
    - apply Hold; [lia|done|done]. }
  split; [done|]. intros r c pr pc Hpr Hpc. apply Hall; [|done|done].
  apply lookup_lt_Some in Hpr. by rewrite (perm_length n p Hp) in Hpr.
Qed.

(** C8.  Permuting the rows and columns of an n×n grid with permutations
    [p] and [q] of 0..n-1 and then applying [applyPermutation] again with
    [invertPermutation p] and [invertPermutation q] gives back the grid,
    cell for cell. *)
Theorem applyPermutation_inverse_roundtrip n (g : Grid) (p q : list nat) :
  square n g → p ≡ₚ seq 0 n → q ≡ₚ seq 0 n →
  applyPermutation (applyPermutation g p q)
                   (invertPermutation p) (invertPermutation q) = g.
Proof.
  intros Hg Hp Hq.
  destruct (applyPermutation_spec n g p q Hg Hp Hq) as [Hsq1 Hcells1].
  pose proof (invertPermutation_perm n p Hp) as Hip.
  pose proof (invertPermutation_perm n q Hq) as Hiq.
  destruct (applyPermutation_spec n _ _ _ Hsq1 Hip Hiq) as [Hsq2 Hcells2].
  apply (square_ext n); [done|done|].
  intros r c Hr Hc.
  destruct (perm_lookup_total n p Hp r Hr) as [pr Hpr].
  destruct (perm_lookup_total n q Hq c Hc) as [pc Hpc].
  destruct (invertPermutation_spec n p Hp) as [_ Hinvp].
  destruct (invertPermutation_spec n q Hq) as [_ Hinvq].
  rewrite (Hcells2 pr pc r c); eauto.
Qed.

End Permutations.

(** * Grids as puzzles: shape, emptiness, legality *)

Lemma set_cell_set_cell g r c v w :
  set_cell (set_cell g r c v) r c w = set_cell g r c w.
Proof.
  unfold set_cell. rewrite list_alter_alter_eq.
  apply list_alter_ext; [|done]. intros row _. simpl.
  apply list_insert_insert_eq.
Qed.

Lemma set_cell_same g r c v : cell g r c = Some v → set_cell g r c v = g.
Proof.
  unfold cell, set_cell. intros H.
  destruct (g !! r) as [row|] eqn:Hr; simpl in H; [|done].
  transitivity (alter (λ x : list Z, x) r g); [|by apply list_alter_id].
  apply list_alter_ext; [|done]. intros row' Hrow'.
  assert (row' = row) as -> by congruence. by apply list_insert_id.
Qed.

(** Writing a value and then writing back the zero that was there. *)
Lemma set_cell_undo g r c v :
  cell g r c = Some 0%Z → set_cell (set_cell g r c v) r c 0 = g.
Proof. intros H. rewrite set_cell_set_cell. by apply set_cell_same. Qed.

Lemma first_hit_Some {A B} (f : A → option B) l y :
  first_hit f l = Some y → ∃ x, x ∈ l ∧ f x = Some y.
Proof.
  induction l as [|x l IH]; simpl; [done|].
  destruct (f x) as [y'|] eqn:Hx.
  - intros [= ->]. exists x. split; [left|done].
  - intros H. destruct (IH H) as (x' & Hin & Hx'). exists x'. split; [by right|done].
Qed.

Lemma first_hit_None {A B} (f : A → option B) l :
  first_hit f l = None → ∀ x, x ∈ l → f x = None.
Proof.
  induction l as [|x l IH]; simpl; intros H x' Hin.
  - by apply elem_of_nil in Hin.
  - destruct (f x) eqn:Hx; [done|].
    apply elem_of_cons in Hin as [->|Hin]; [done|]. by apply IH.
Qed.

(** The cells of an n×n grid, row by row. *)
Definition positions (n : nat) : list (nat * nat) :=
  r ← seq 0 n; c ← seq 0 n; [(r, c)].

Lemma elem_of_positions n r c : (r, c) ∈ positions n ↔ r < n ∧ c < n.
Proof.
  unfold positions. rewrite list_elem_of_bind. split.
  - intros (r' & Hin & Hr'). apply list_elem_of_bind in Hin as (c' & Hin & Hc').
    apply list_elem_of_singleton in Hin as [= -> ->].
    apply elem_of_seq in Hr', Hc'. lia.
  - intros [Hr Hc]. exists r. split; [|apply elem_of_seq; lia].
    apply list_elem_of_bind. exists c. split; [by left|apply elem_of_seq; lia].
Qed.

Lemma NoDup_positions n : NoDup (positions n).
Proof.
  unfold positions. apply NoDup_bind.
  - intros r1 r2 x _ _ H1 H2.
    apply list_elem_of_bind in H1 as (c1 & H1 & _).
    apply list_elem_of_bind in H2 as (c2 & H2 & _).
    apply list_elem_of_singleton in H1, H2. congruence.
  - intros r _. apply NoDup_bind.
    + intros c1 c2 x _ _ H1 H2.
      apply list_elem_of_singleton in H1, H2. congruence.
    + intros c _. apply NoDup_singleton.
    + apply NoDup_seq.
  - apply NoDup_seq.
Qed.

(** The number of empty cells of a grid. *)
Definition empties (n : nat) (g : Grid) : nat :=
  length (filter (λ p, cell g p.1 p.2 = Some 0%Z) (positions n)).

(** Changing one entry of a predicate changes the size of a filter over a
    duplicate-free list by at most one. *)
Lemma filter_length_point {A} `{!EqDecision A} (P Q : A → Prop)
    `{!∀ x, Decision (P x)} `{!∀ x, Decision (Q x)} (l : list A) (a : A) :
  NoDup l → (∀ x, x ≠ a → (P x ↔ Q x)) →
  (a ∈ l → P a → ¬ Q a → length (filter P l) = S (length (filter Q l))) ∧
  ((a ∉ l ∨ (P a ↔ Q a)) → length (filter P l) = length (filter Q l)).
Proof.
  intros Hnd Hothers. induction Hnd as [|x l Hx Hnd IH].
  - split; [intros Hin; by apply elem_of_nil in Hin|done].
  - destruct IH as [IH1 IH2]. split.
    + intros Hin HP HQ. apply elem_of_cons in Hin as [->|Hin].
      * rewrite (filter_cons_True P) by done. rewrite (filter_cons_False Q) by done.
        simpl. f_equal. apply IH2. by left.
      * assert (x ≠ a) as Hne by (intros ->; done).
        rewrite !filter_cons. specialize (Hothers x Hne).
        destruct (decide (P x)), (decide (Q x)); simpl; try tauto;
          rewrite IH1; done.
    + intros Hside. rewrite !filter_cons.
      assert (P x ↔ Q x) as HPQ.
      { destruct (decide (x = a)) as [->|Hne]; [|by apply Hothers].
        destruct Hside as [Hnotin|?]; [|done]. exfalso. apply Hnotin. by left. }
      assert (length (filter P l) = length (filter Q l)) as Hrest.
      { apply IH2. destruct Hside as [Hnotin|?]; [|by right].
        left. intros Hin. apply Hnotin. by right. }
      destruct (decide (P x)), (decide (Q x)); simpl; try tauto; by rewrite Hrest.
Qed.

(** Filling an empty cell removes exactly one empty cell. *)
Lemma empties_fill n g r c v :
  r < n → c < n → cell g r c = Some 0%Z → v ≠ 0%Z →
  empties n g = S (empties n (set_cell g r c v)).
Proof.
  intros Hr Hc Hzero Hv. unfold empties.
  apply (filter_length_point _ _ _ (r, c)).
  - apply NoDup_positions.
  - intros [r' c'] Hne. simpl. by rewrite cell_set_cell_ne.
  - by apply elem_of_positions.
  - done.
  - simpl. rewrite cell_set_cell_eq by (rewrite Hzero; eauto). congruence.
Qed.

Lemma empties_zero n g r c :
  empties n g = 0 → r < n → c < n → cell g r c ≠ Some 0%Z.
Proof.
  unfold empties. intros Hlen Hr Hc Hzero.
  apply length_zero_iff_nil in Hlen.
  assert ((r, c) ∈ filter (λ p, cell g p.1 p.2 = Some 0%Z) (positions n)) as Hin.
  { apply list_elem_of_filter. split; [done|]. by apply elem_of_positions. }
  rewrite Hlen in Hin. by apply elem_of_nil in Hin.
Qed.

Lemma length_bind_singleton {A B} (f : A → B) (l : list A) :
  length (x ← l; [f x]) = length l.
Proof.
  induction l as [|x l IH]; [done|].
  rewrite bind_cons, length_app, IH. done.
Qed.

Lemma length_positions n : length (positions n) = n * n.
Proof.
  unfold positions.
  assert (∀ l : list nat,
    length (r ← l; c ← seq 0 n; [(r, c)]) = length l * n) as H.
  { intros l. induction l as [|x l IH]; [done|].
    rewrite bind_cons, length_app, IH, length_bind_singleton, length_seq. done. }
  by rewrite H, length_seq.
Qed.

Lemma empties_le n g : empties n g ≤ n * n.
Proof.
  unfold empties. rewrite <- length_positions. apply length_filter.
Qed.

(** Two cells share a unit when they lie in the same row, the same column
    or, on a grid whose size has a whole root, the same box. *)
Definition same_box (size r c r' c' : nat) : Prop :=
  r' / Nat.sqrt size = r / Nat.sqrt size ∧ c' / Nat.sqrt size = c / Nat.sqrt size.

Definition same_unit (size r c r' c' : nat) : Prop :=
  r' = r ∨ c' = c ∨ (sqrt_is_whole size = true ∧ same_box size r c r' c').

(** No value occurs twice in a row, a column or a box. *)
Definition conflict_free (size : nat) (g : Grid) : Prop :=
  ∀ r c r' c' v, r < size → c < size → r' < size → c' < size →
    (r, c) ≠ (r', c') → same_unit size r c r' c' →
    cell g r c = Some v → cell g r' c' = Some v → v = 0%Z.

(** Every cell holds one of the values 1..size. *)
Definition filled (size : nat) (g : Grid) : Prop :=
  ∀ r c, r < size → c < size →
    ∃ v, cell g r c = Some v ∧ (1 ≤ v ≤ Z.of_nat size)%Z.

(** A complete and legal grid. *)
Definition solved (size : nat) (g : Grid) : Prop :=
  square size g ∧ filled size g ∧ conflict_free size g.

(** [g] is [s] with some cells set to 0. *)
Definition blanked (size : nat) (s g : Grid) : Prop :=
  square size g ∧
  ∀ r c, r < size → c < size → cell g r c = cell s r c ∨ cell g r c = Some 0%Z.

(** Executable versions, to check concrete grids. *)
Definition squareb (n : nat) (g : Grid) : bool :=
  (length g =? n) && forallb (λ row, length row =? n) g.

Definition same_unitb (size r c r' c' : nat) : bool :=
  (r' =? r) || (c' =? c)
  || (sqrt_is_whole size
      && (r' / Nat.sqrt size =? r / Nat.sqrt size)
      && (c' / Nat.sqrt size =? c / Nat.sqrt size)).

Definition conflict_freeb (size : nat) (g : Grid) : bool :=
  forallb (λ p, forallb (λ p',
    negb (negb (bool_decide (p = p')) && same_unitb size p.1 p.2 p'.1 p'.2)
    || match cell g p.1 p.2, cell g p'.1 p'.2 with
       | Some v, Some v' => negb (v =? v')%Z || (v =? 0)%Z
       | _, _ => true
       end) (positions size)) (positions size).

Definition filledb (size : nat) (g : Grid) : bool :=
  forallb (λ p, match cell g p.1 p.2 with
                | Some v => (1 <=? v)%Z && (v <=? Z.of_nat size)%Z
                | None => false
                end) (positions size).

Definition solvedb (size : nat) (g : Grid) : bool :=
  squareb size g && filledb size g && conflict_freeb size g.

Definition blankedb (size : nat) (s g : Grid) : bool :=
  squareb size g
  && forallb (λ p, bool_decide (cell g p.1 p.2 = cell s p.1 p.2)
                   || bool_decide (cell g p.1 p.2 = Some 0%Z)) (positions size).

Lemma squareb_square n g : squareb n g = true → square n g.
Proof.
  unfold squareb, square. rewrite andb_true_iff, Nat.eqb_eq, forallb_forall.
  intros [Hl Hrows]. split; [done|]. intros r rw Hr.
  apply Nat.eqb_eq, Hrows, list_elem_of_In. eauto using list_elem_of_lookup_2.
Qed.

Lemma same_unitb_same_unit size r c r' c' :
  same_unit size r c r' c' → same_unitb size r c r' c' = true.
Proof.
  unfold same_unit, same_unitb, same_box.
  intros [->|[->|(Hw & Hr & Hc)]].
  - by rewrite Nat.eqb_refl.
  - rewrite Nat.eqb_refl. by rewrite orb_true_r.
  - rewrite Hw, Hr, Hc, !Nat.eqb_refl. by rewrite orb_true_r.
Qed.

Lemma conflict_freeb_conflict_free size g :
  conflict_freeb size g = true → conflict_free size g.
Proof.
  unfold conflict_freeb, conflict_free. rewrite forallb_forall.
  intros Hall r c r' c' v Hr Hc Hr' Hc' Hne Hunit Hv Hv'.
  specialize (Hall (r, c)). rewrite forallb_forall in Hall.
  specialize (Hall ltac:(by apply list_elem_of_In, elem_of_positions) (r', c')
                   ltac:(by apply list_elem_of_In, elem_of_positions)).
  simpl in Hall. rewrite Hv, Hv', (same_unitb_same_unit _ _ _ _ _ Hunit) in Hall.
  rewrite bool_decide_eq_false_2 in Hall by done. simpl in Hall.
  rewrite Z.eqb_refl in Hall. simpl in Hall. by apply Z.eqb_eq.
Qed.

Lemma filledb_filled size g : filledb size g = true → filled size g.
Proof.
  unfold filledb, filled. rewrite forallb_forall. intros Hall r c Hr Hc.
  specialize (Hall (r, c) ltac:(by apply list_elem_of_In, elem_of_positions)).
  simpl in Hall. destruct (cell g r c) as [v|]; [|done].
  exists v. split; [done|]. apply andb_true_iff in Hall as [H1 H2].
  apply Z.leb_le in H1, H2. lia.
Qed.

Lemma solvedb_solved size g : solvedb size g = true → solved size g.
Proof.
  unfold solvedb, solved. rewrite !andb_true_iff. intros [[H1 H2] H3].
  split; [by apply squareb_square|].
  split; [by apply filledb_filled|by apply conflict_freeb_conflict_free].
Qed.

Lemma blankedb_blanked size s g : blankedb size s g = true → blanked size s g.
Proof.
  unfold blankedb, blanked. rewrite andb_true_iff, forallb_forall.
  intros [Hsq Hall]. split; [by apply squareb_square|]. intros r c Hr Hc.
  specialize (Hall (r, c) ltac:(by apply list_elem_of_In, elem_of_positions)).
  simpl in Hall. apply orb_true_iff in Hall as [H|H];
    apply bool_decide_eq_true in H; auto.
Qed.

(** * The generator's search *)

Module GeneratorFacts.
Import Generator.

Lemma findEmptyCell_Some g size r c :
  findEmptyCell g size = Some (r, c) →
  r < size ∧ c < size ∧ cell g r c = Some 0%Z.
Proof.
  unfold findEmptyCell. intros H.
  apply first_hit_Some in H as (r' & Hr' & H).
  apply first_hit_Some in H as (c' & Hc' & H).
  unfold cell_is in H. case_bool_decide; [|done]. injection H as <- <-.
  apply elem_of_seq in Hr', Hc'. repeat split; [lia|lia|done].
Qed.

Lemma findEmptyCell_None g size : findEmptyCell g size = None → empties size g = 0.
Proof.
  unfold findEmptyCell, empties. intros H.
  destruct (filter _ (positions size)) as [|[r c] l] eqn:E; [done|]. exfalso.
  assert ((r, c) ∈ filter (λ p, cell g p.1 p.2 = Some 0%Z) (positions size)) as Hin
    by (rewrite E; left).
  apply list_elem_of_filter in Hin as [Hzero Hin]. simpl in Hzero.
  apply elem_of_positions in Hin as [Hr Hc].
  pose proof (first_hit_None _ _ H r ltac:(apply elem_of_seq; lia)) as Hrow.
  pose proof (first_hit_None _ _ Hrow c ltac:(apply elem_of_seq; lia)) as Hcell.
  simpl in Hcell. unfold cell_is in Hcell. by rewrite bool_decide_eq_true_2 in Hcell.
Qed.

(** The rows (or columns) of one box. *)
Lemma box_block b q x : 0 < b → (q * b ≤ x < q * b + b ↔ x / b = q).
Proof.
  intros Hb. pose proof (Nat.div_mod_eq x b) as Hdiv.
  pose proof (Nat.mod_upper_bound x b ltac:(lia)) as Hmod.
  split.
  - intros [Hlo Hhi]. nia.
  - intros <-. nia.
Qed.

Lemma whole_root size : sqrt_is_whole size = true → Nat.sqrt size * Nat.sqrt size = size.
Proof. unfold sqrt_is_whole. by rewrite Nat.eqb_eq. Qed.

Lemma root_pos size x : sqrt_is_whole size = true → x < size → 0 < Nat.sqrt size.
Proof. intros Hw Hx. pose proof (whole_root size Hw). nia. Qed.

Lemma box_inside size x y :
  sqrt_is_whole size = true → x < size →
  y / Nat.sqrt size = x / Nat.sqrt size → y < size.
Proof.
  intros Hw Hx Hy. pose proof (whole_root size Hw) as Hsq.
  pose proof (root_pos size x Hw Hx) as Hb.
  apply box_block in Hy; [|done].
  assert (x / Nat.sqrt size < Nat.sqrt size).
  { apply Nat.Div0.div_lt_upper_bound; lia. }
  nia.
Qed.

Section valid_move.
Context (size : nat) (Hwhole : sqrt_is_whole size = true).
Context (g : Grid) (row col : nat) (Hrow : row < size) (Hcol : col < size).

(** A move [isValidMove] accepts meets no equal value in the row, the
    column or the box of the cell. *)
Lemma isValidMove_true num :
  isValidMove g row col num size = true →
  ∀ r' c', r' < size → c' < size → same_unit size row col r' c' →
    cell g r' c' ≠ Some num.
Proof using Hwhole Hrow Hcol.
  unfold isValidMove. rewrite !andb_true_iff, !forallb_forall.
  intros [[Hr Hc] Hbox] r' c' Hr' Hc' [->|[->|[_ [Hbr Hbc]]]] Hcell.
  - specialize (Hr c' ltac:(apply in_seq; lia)).
    unfold cell_is in Hr. by rewrite bool_decide_eq_true_2 in Hr.
  - specialize (Hc r' ltac:(apply in_seq; lia)).
    unfold cell_is in Hc. by rewrite bool_decide_eq_true_2 in Hc.
  - pose proof (root_pos size row Hwhole Hrow) as Hb.
    apply box_block in Hbr, Hbc; [|done|done].
    specialize (Hbox r' ltac:(apply in_seq; lia)).
    rewrite forallb_forall in Hbox.
    specialize (Hbox c' ltac:(apply in_seq; lia)).
    unfold cell_is in Hbox. by rewrite bool_decide_eq_true_2 in Hbox.
Qed.

(** Conversely, a value absent from the three units is accepted. *)
Lemma isValidMove_intro num :
  (∀ r' c', r' < size → c' < size → same_unit size row col r' c' →
     cell g r' c' ≠ Some num) →
  isValidMove g row col num size = true.
Proof using Hwhole Hrow Hcol.
  intros Hfree. unfold isValidMove. rewrite !andb_true_iff, !forallb_forall.
  pose proof (root_pos size row Hwhole Hrow) as Hb.
  split; [split|].
  - intros c' Hc'. apply in_seq in Hc'. unfold cell_is.
    rewrite bool_decide_eq_false_2; [done|].
    apply Hfree; [done|lia|]. by left.
  - intros r' Hr'. apply in_seq in Hr'. unfold cell_is.
    rewrite bool_decide_eq_false_2; [done|].
    apply Hfree; [lia|done|]. right. by left.
  - intros r' Hr'. apply in_seq in Hr'. rewrite forallb_forall.
    intros c' Hc'. apply in_seq in Hc'. unfold cell_is.
    assert (r' / Nat.sqrt size = row / Nat.sqrt size) as Hbr
      by (apply box_block; [done|lia]).
    assert (c' / Nat.sqrt size = col / Nat.sqrt size) as Hbc
      by (apply box_block; [done|lia]).
    rewrite bool_decide_eq_false_2; [done|].
    apply Hfree; [by eapply (box_inside size row)|by eapply (box_inside size col)|].
    right. right. done.
Qed.
End valid_move.

(** ** The candidate loop, for an arbitrary recursive call *)

Section try_numbers.
Context (rec : Grid → Rng → option (bool * Grid * Rng)).
Context (row col size : nat) (g : Grid).
Context (Hzero : cell g row col = Some 0%Z).
Context (Hrestore : ∀ num rng g' rng',
  rec (set_cell g row col num) rng = Some (false, g', rng') →
  g' = set_cell g row col num).

(** A failed loop leaves the grid as it found it; a successful one returns
    what the recursive call returned for some accepted candidate. *)
Lemma try_numbers_spec numbers rng b g' rng' :
  try_numbers rec row col size numbers g rng = Some (b, g', rng') →
  if b then
    ∃ num rng0, num ∈ numbers ∧ isValidMove g row col num size = true ∧
      rec (set_cell g row col num) rng0 = Some (true, g', rng')
  else g' = g.
Proof using Hzero Hrestore.
  revert rng. induction numbers as [|num numbers IH]; intros rng; simpl.
  - intros [= <- <- <-]. done.
  - destruct (isValidMove g row col num size) eqn:Hvalid.
    + destruct (rec (set_cell g row col num) rng) as [[[[|] g1] rng1]|] eqn:Hrec;
        [| |done].
      * intros [= <- <- <-]. exists num, rng. split; [left|done].
      * apply Hrestore in Hrec as ->. rewrite set_cell_undo by done.
        intros H. apply IH in H. destruct b; [|done].
        destruct H as (num' & rng0 & Hin & H). exists num', rng0.
        split; [by right|done].
    + intros H. apply IH in H. destruct b; [|done].
      destruct H as (num' & rng0 & Hin & H). exists num', rng0.
      split; [by right|done].
Qed.

Lemma try_numbers_total numbers rng :
  (∀ num rng, num ∈ numbers → is_Some (rec (set_cell g row col num) rng)) →
  is_Some (try_numbers rec row col size numbers g rng).
Proof using Hzero Hrestore.
  revert rng. induction numbers as [|num numbers IH]; intros rng Htotal; simpl.
  - done.
  - assert (∀ rng, is_Some (try_numbers rec row col size numbers g rng)) as IH'.
    { intros rng0. apply IH. intros num' rng1 Hin. apply Htotal. by right. }
    destruct (isValidMove g row col num size); [|done].
    destruct (Htotal num rng ltac:(left)) as [[[[|] g1] rng1] Hrec]; rewrite Hrec.
    + done.
    + apply Hrestore in Hrec as ->. rewrite set_cell_undo by done. done.
Qed.

(** If some accepted candidate makes the recursive call succeed, the loop
    succeeds, whatever the order of the candidates. *)
Lemma try_numbers_complete numbers rng num :
  (∀ num rng, num ∈ numbers → is_Some (rec (set_cell g row col num) rng)) →
  num ∈ numbers → isValidMove g row col num size = true →
  (∀ rng, ∃ g' rng', rec (set_cell g row col num) rng = Some (true, g', rng')) →
  ∃ g' rng', try_numbers rec row col size numbers g rng = Some (true, g', rng').
Proof using Hzero Hrestore.
  intros Htotal Hin Hvalid Hgood. revert rng Htotal.
  induction numbers as [|num' numbers IH]; intros rng Htotal; simpl.
  - by apply elem_of_nil in Hin.
  - destruct (decide (num' = num)) as [->|Hne].
    + rewrite Hvalid. destruct (Hgood rng) as (g' & rng' & ->). eauto.
    + apply elem_of_cons in Hin as [->|Hin]; [done|].
      assert (∀ rng, ∃ g' rng',
        try_numbers rec row col size numbers g rng = Some (true, g', rng')) as IH'.
      { intros rng0. apply IH; [done|]. intros n r Hn. apply Htotal. by right. }
      destruct (isValidMove g row col num' size); [|done].
      destruct (Htotal num' rng ltac:(left)) as [[[[|] g1] rng1] Hrec]; rewrite Hrec.
      * eauto.
      * apply Hrestore in Hrec as ->. rewrite set_cell_undo by done. done.
Qed.
End try_numbers.

(** ** The randomized fill *)

(** A call that reports failure has undone all its writes. *)
Lemma solvePuzzle_restores fuel size g rng g' rng' :
  solvePuzzle fuel g size rng = Some (false, g', rng') → g' = g.
Proof.
  revert g rng g' rng'. induction fuel as [|fuel IH]; intros g rng g' rng'; simpl.
  - done.
  - destruct (findEmptyCell g size) as [[row col]|] eqn:Hfind; [|done].
    destruct (shuffleArray _ rng) as [numbers rng1].
    apply findEmptyCell_Some in Hfind as (_ & _ & Hzero).
    intros H. apply (try_numbers_spec _ _ _ _ _ Hzero) in H; [done|].
    intros num rng0 g0 rng0'. apply IH.
Qed.

(** The candidates are the numbers 1..size, in some order. *)
Lemma candidates_range size rng num :
  num ∈ (shuffleArray (Z.of_nat <$> seq 1 size) rng).1 ↔ (1 ≤ num ≤ Z.of_nat size)%Z.
Proof.
  rewrite shuffleArray_Permutation, list_elem_of_fmap. split.
  - intros (k & -> & Hk). apply elem_of_seq in Hk. lia.
  - intros Hnum. exists (Z.to_nat num). split; [lia|].
    apply elem_of_seq. lia.
Qed.

(** One unit of fuel per empty cell, and one more, is enough. *)
Lemma solvePuzzle_total fuel size g rng :
  empties size g < fuel → is_Some (solvePuzzle fuel g size rng).
Proof.
  revert g rng. induction fuel as [|fuel IH]; intros g rng Hfuel; simpl.
  - lia.
  - destruct (findEmptyCell g size) as [[row col]|] eqn:Hfind; [|done].
    destruct (shuffleArray _ rng) as [numbers rng1] eqn:Hshuffle.
    apply findEmptyCell_Some in Hfind as (Hr & Hc & Hzero).
    apply try_numbers_total; [done| |].
    + intros num rng0 g0 rng0'. apply solvePuzzle_restores.
    + intros num rng0 Hin. apply IH.
      assert (num ≠ 0%Z).
      { pose proof (candidates_range size rng num) as Hrange.
        rewrite Hshuffle in Hrange. apply Hrange in Hin. lia. }
      rewrite (empties_fill size g row col num) in Hfuel by done. lia.
Qed.

Lemma same_unit_sym size r c r' c' :
  same_unit size r c r' c' → same_unit size r' c' r c.
Proof.
  unfold same_unit, same_box. intros [->|[->|(Hw & Hr & Hc)]]; auto.
Qed.

(** The state of a grid during the search: some cells filled with values in
    range, no two equal values in a unit. *)
Definition partial (size : nat) (g : Grid) : Prop :=
  square size g ∧ conflict_free size g ∧
  ∀ r c v, cell g r c = Some v → (0 ≤ v ≤ Z.of_nat size)%Z.

Lemma partial_fill size g row col num :
  sqrt_is_whole size = true → partial size g →
  row < size → col < size → cell g row col = Some 0%Z →
  (1 ≤ num ≤ Z.of_nat size)%Z → isValidMove g row col num size = true →
  partial size (set_cell g row col num).
Proof.
  intros Hw (Hsq & Hfree & Hrange) Hrow Hcol Hzero Hnum Hvalid.
  pose proof (isValidMove_true size Hw g row col Hrow Hcol num Hvalid) as Habsent.
  assert (is_Some (cell g row col)) as Hsome by (rewrite Hzero; eauto).
  split; [by apply set_cell_square|]. split.
  - intros r c r' c' v Hr Hc Hr' Hc' Hne Hunit Hv Hv'.
    destruct (decide ((row, col) = (r, c))) as [[= <- <-]|Hne1];
      destruct (decide ((row, col) = (r', c'))) as [[= <- <-]|Hne2].
    + done.
    + rewrite cell_set_cell_eq in Hv by done.
      rewrite cell_set_cell_ne in Hv' by done.
      exfalso. apply (Habsent r' c'); [done|done|done|congruence].
    + rewrite cell_set_cell_eq in Hv' by done.
      rewrite cell_set_cell_ne in Hv by done.
      exfalso. apply (Habsent r c); [done|done| |congruence].
      by apply same_unit_sym.
    + rewrite cell_set_cell_ne in Hv, Hv' by done. eauto.
  - intros r c v. destruct (decide ((row, col) = (r, c))) as [[= <- <-]|Hne].
    + rewrite cell_set_cell_eq by done. intros [= <-]. lia.
    + rewrite cell_set_cell_ne by done. apply Hrange.
Qed.

(** A grid without empty cells reached by the search is a solution. *)
Lemma partial_full size g : partial size g → empties size g = 0 → solved size g.
Proof.
  intros (Hsq & Hfree & Hrange) Hfull. split; [done|]. split; [|done].
  intros r c Hr Hc.
  destruct (square_cell_is_Some size g r c Hsq Hr Hc) as [v Hv].
  exists v. split; [done|].
  pose proof (Hrange r c v Hv). pose proof (empties_zero size g r c Hfull Hr Hc).
  assert (v ≠ 0%Z) by congruence. lia.
Qed.

(** Soundness: when the fill reports success, the grid it leaves is
    complete and legal. *)
Lemma solvePuzzle_sound fuel size g rng g' rng' :
  sqrt_is_whole size = true → partial size g →
  solvePuzzle fuel g size rng = Some (true, g', rng') → solved size g'.
Proof.
  intros Hw. revert g rng. induction fuel as [|fuel IH]; intros g rng Hpart; simpl.
  - done.
  - destruct (findEmptyCell g size) as [[row col]|] eqn:Hfind.
    + destruct (shuffleArray _ rng) as [numbers rng1] eqn:Hshuffle.
      apply findEmptyCell_Some in Hfind as (Hr & Hc & Hzero).
      intros H. apply (try_numbers_spec _ _ _ _ _ Hzero) in H.
      * destruct H as (num & rng0 & Hin & Hvalid & Hrec).
        apply IH in Hrec; [done|]. apply partial_fill; try done.
        pose proof (candidates_range size rng num) as Hrange.
        rewrite Hshuffle in Hrange. by apply Hrange.
      * intros num rng0 g0 rng0'. apply solvePuzzle_restores.
    + intros [= <- <-]. apply partial_full; [done|]. by apply findEmptyCell_None.
Qed.

Lemma blanked_fill size s g row col v :
  blanked size s g → cell s row col = Some v → blanked size s (set_cell g row col v).
Proof.
  intros [Hsq Hcells] Hv. split; [by apply set_cell_square|].
  intros r c Hr Hc. destruct (decide ((row, col) = (r, c))) as [[= <- <-]|Hne].
  - left. rewrite cell_set_cell_eq; [done|]. by apply (square_cell_is_Some size).
  - rewrite cell_set_cell_ne by done. by apply Hcells.
Qed.

Lemma blanked_blank size s g row col :
  blanked size s g → blanked size s (set_cell g row col 0).
Proof.
  intros [Hsq Hcells]. split; [by apply set_cell_square|].
  intros r c Hr Hc. destruct (decide ((row, col) = (r, c))) as [[= <- <-]|Hne].
  - right. apply cell_set_cell_eq. by apply (square_cell_is_Some size).
  - rewrite cell_set_cell_ne by done. by apply Hcells.
Qed.

(** The value a completion holds at an empty cell is an acceptable move. *)
Lemma completion_move_valid size s g row col v :
  sqrt_is_whole size = true → solved size s → blanked size s g →
  row < size → col < size → cell g row col = Some 0%Z →
  cell s row col = Some v →
  isValidMove g row col v size = true.
Proof.
  intros Hw (Hsqs & Hfilled & Hfree) [_ Hcells] Hr Hc Hzero Hv.
  destruct (Hfilled row col Hr Hc) as (v' & Hv' & Hvrange).
  assert (v' = v) as -> by congruence.
  apply isValidMove_intro; [done|done|done|].
  intros r' c' Hr' Hc' Hunit Hcell.
  destruct (Hcells r' c' Hr' Hc') as [Hsame|Hblankcell].
  - destruct (decide ((row, col) = (r', c'))) as [[= <- <-]|Hne].
    + rewrite Hzero in Hcell. injection Hcell as <-. lia.
    + rewrite Hsame in Hcell.
      pose proof (Hfree row col r' c' v Hr Hc Hr' Hc' Hne Hunit Hv Hcell). lia.
  - rewrite Hblankcell in Hcell. injection Hcell as <-. lia.
Qed.

(** Completeness: a grid that can be completed to a solution is filled
    successfully, whatever the oracle says. *)
Lemma solvePuzzle_complete fuel size s g rng :
  sqrt_is_whole size = true → solved size s → blanked size s g →
  empties size g < fuel →
  ∃ g' rng', solvePuzzle fuel g size rng = Some (true, g', rng').
Proof.
  intros Hw (Hsqs & Hfilled & Hfree).
  revert g rng. induction fuel as [|fuel IH]; intros g rng Hblank Hfuel; simpl.
  - lia.
  - destruct (findEmptyCell g size) as [[row col]|] eqn:Hfind; [|eauto].
    destruct (shuffleArray _ rng) as [numbers rng1] eqn:Hshuffle.
    apply findEmptyCell_Some in Hfind as (Hr & Hc & Hzero).
    destruct (Hfilled row col Hr Hc) as (v & Hv & Hvrange).
    assert (∀ num, num ∈ numbers → (1 ≤ num ≤ Z.of_nat size)%Z) as Hnumbers.
    { intros num Hin. pose proof (candidates_range size rng num) as Hrange.
      rewrite Hshuffle in Hrange. by apply Hrange. }
    assert (∀ num, num ∈ numbers → empties size (set_cell g row col num) < fuel)
      as Hless.
    { intros num Hin. apply Hnumbers in Hin.
      rewrite (empties_fill size g row col num) in Hfuel by (done || lia). lia. }
    apply (try_numbers_complete _ _ _ _ _ Hzero) with (num := v).
    + intros num rng0 g0 rng0'. apply solvePuzzle_restores.
    + intros num rng0 Hin. apply solvePuzzle_total. by apply Hless.
    + pose proof (candidates_range size rng v) as Hrange.
      rewrite Hshuffle in Hrange. by apply Hrange.
    + by apply (completion_move_valid size s).
    + intros rng0. apply IH.
      * by apply blanked_fill.
      * apply Hless. pose proof (candidates_range size rng v) as Hrange.
        rewrite Hshuffle in Hrange. by apply Hrange.
Qed.

Lemma hasAnySolution_blanked size s g rng :
  sqrt_is_whole size = true → solved size s → blanked size s g →
  ∃ rng', hasAnySolution g size rng = Some (true, rng').
Proof.
  intros Hw Hs Hg. unfold hasAnySolution.
  destruct (solvePuzzle_complete (search_fuel size) size s g rng Hw Hs Hg)
    as (g' & rng' & ->); [|eauto].
  unfold search_fuel. pose proof (empties_le size g). lia.
Qed.

Lemma hard_removals_cons pos positions puzzle size targetClues currentClues
    attempts rng :
  hard_removals (pos :: positions) puzzle size targetClues currentClues attempts rng
  = if (currentClues <=? targetClues) || (maxAttempts <=? attempts)
    then Some (puzzle, rng)
    else
      let attempts := S attempts in
      match cell puzzle (row pos) (col pos) with
      | Some 0%Z =>
        hard_removals positions puzzle size targetClues currentClues attempts rng
      | originalValue =>
        let puzzle := set_cell puzzle (row pos) (col pos) 0 in
        if attempts `mod` 5 =? 0 then
          match hasAnySolution puzzle size rng with
          | None => None
          | Some (false, rng) =>
            let puzzle :=
              match originalValue with
              | Some v => set_cell puzzle (row pos) (col pos) v
              | None => puzzle
              end in
            hard_removals positions puzzle size targetClues currentClues attempts rng
          | Some (true, rng) =>
            hard_removals positions puzzle size targetClues (currentClues - 1) attempts rng
          end
        else
          hard_removals positions puzzle size targetClues (currentClues - 1) attempts rng
      end.
Proof. reflexivity. Qed.

Lemma easy_removals_cons pos positions puzzle targetClues currentClues :
  easy_removals (pos :: positions) puzzle targetClues currentClues
  = if currentClues <=? targetClues then puzzle
    else if cell_is puzzle (row pos) (col pos) 0
    then easy_removals positions puzzle targetClues currentClues
    else easy_removals positions (set_cell puzzle (row pos) (col pos) 0)
                       targetClues (currentClues - 1).
Proof. reflexivity. Qed.

(** With the gate always open, the gated loop is the permissive loop run on
    the positions it gets to see before the attempt cap. *)
Lemma hard_removals_permissive size s positions :
  sqrt_is_whole size = true → solved size s →
  ∀ g targetClues currentClues attempts rng, blanked size s g →
  ∃ rng', hard_removals positions g size targetClues currentClues attempts rng
    = Some (easy_removals (take (maxAttempts - attempts) positions) g
                          targetClues currentClues, rng').
Proof.
  intros Hw Hs. induction positions as [|pos positions IH];
    intros g targetClues currentClues attempts rng Hg.
  - rewrite take_nil. simpl. eauto.
  - rewrite hard_removals_cons.
    destruct (maxAttempts <=? attempts) eqn:Hcap.
    { rewrite orb_true_r. apply Nat.leb_le in Hcap.
      replace (maxAttempts - attempts) with 0 by lia. simpl. eauto. }
    apply Nat.leb_gt in Hcap. rewrite orb_false_r.
    replace (maxAttempts - attempts) with (S (maxAttempts - S attempts)) by lia.
    rewrite firstn_cons, easy_removals_cons.
    destruct (currentClues <=? targetClues) eqn:Hclues; [eauto|].
    pose proof (blanked_blank size s g (row pos) (col pos) Hg) as Hg'.
    cbv zeta.
    assert (∀ (restore : Grid) rng0, ∃ rng',
      (if S attempts `mod` 5 =? 0 then
         match hasAnySolution (set_cell g (row pos) (col pos) 0) size rng0 with
         | None => None
         | Some (false, rng) =>
           hard_removals positions restore size targetClues currentClues
                         (S attempts) rng
         | Some (true, rng) =>
           hard_removals positions (set_cell g (row pos) (col pos) 0) size
             targetClues (currentClues - 1) (S attempts) rng
         end
       else hard_removals positions (set_cell g (row pos) (col pos) 0) size
              targetClues (currentClues - 1) (S attempts) rng0)
      = Some (easy_removals (take (maxAttempts - S attempts) positions)
                (set_cell g (row pos) (col pos) 0) targetClues (currentClues - 1),
              rng')) as Hstep.
    { intros restore rng0. destruct (S attempts `mod` 5 =? 0).
      - destruct (hasAnySolution_blanked size s _ rng0 Hw Hs Hg') as [rng1 ->].
        by apply IH.
      - by apply IH. }
    unfold cell_is.
    destruct (cell g (row pos) (col pos)) as [[|v|v]|] eqn:Hcell.
    + rewrite bool_decide_eq_true_2 by done. by apply IH.
    + rewrite bool_decide_eq_false_2 by done. apply Hstep.
    + rewrite bool_decide_eq_false_2 by done. apply Hstep.
    + rewrite bool_decide_eq_false_2 by done. apply Hstep.
Qed.

(** C5.  A grid obtained from a complete, legal solution by setting cells
    to 0 always passes [hasAnySolution], whatever the oracle says.  Hence
    the solvability gate of [createHardPuzzle] never takes its restore
    branch: the gated loop removes exactly the cells the permissive loop of
    [createEasyPuzzle] removes on the positions visited before the attempt
    cap. *)
Theorem solvability_gate_always_passes size s g :
  sqrt_is_whole size = true → solved size s → blanked size s g →
  (∀ rng, ∃ rng', hasAnySolution g size rng = Some (true, rng')) ∧
  (∀ targetClues rng, ∃ rng',
     createHardPuzzle g targetClues size rng
     = Some (easy_removals (take maxAttempts (getBalancedRemovalOrder size rng).1)
                           g targetClues (size * size), rng')).
Proof.
  intros Hw Hs Hg. split.
  - intros rng. by apply (hasAnySolution_blanked size s).
  - intros targetClues rng. unfold createHardPuzzle.
    destruct (getBalancedRemovalOrder size rng) as [positions rng1]. simpl.
    destruct (hard_removals_permissive size s positions Hw Hs g targetClues
                (size * size) 0 rng1 Hg) as [rng' Heq].
    rewrite Nat.sub_0_r in Heq. eauto.
Qed.

(** ** The removal order *)

Lemma remaining_count (boxes : list (list Position)) k :
  foldl (λ sum b, sum + length b) k boxes = k + length (concat boxes).
Proof.
  revert k. induction boxes as [|b boxes IH]; intros k; simpl; [lia|].
  rewrite IH, length_app. lia.
Qed.

Lemma concat_insert_pop (boxes : list (list Position)) i box x :
  boxes !! i = Some (box ++ [x]) →
  x :: concat (<[i:=box]> boxes) ≡ₚ concat boxes.
Proof.
  revert i. induction boxes as [|b boxes IH]; intros [|i] Hi; simplify_eq/=.
  - by rewrite <- Permutation_cons_append, app_comm_cons.
  - rewrite <- (IH _ Hi). by rewrite Permutation_middle.
Qed.

Lemma concat_nonempty (boxes : list (list Position)) :
  concat boxes ≠ [] → ∃ i b, boxes !! i = Some b ∧ b ≠ [].
Proof.
  induction boxes as [|x boxes IH]; simpl; [done|]. intros Hne.
  destruct x as [|p x].
  - destruct (IH Hne) as (i & b & Hi & Hb). by exists (S i), b.
  - by exists 0, (p :: x).
Qed.

Lemma pop_Some {T} (a : list T) :
  a ≠ [] → ∃ a' x, pop a = (a', Some x) ∧ a = a' ++ [x].
Proof.
  intros Ha. unfold pop.
  destruct (last_is_Some a) as [_ [x Hx]]; [done|].
  exists (take (length a - 1) a), x. rewrite Hx. split; [done|].
  apply last_Some in Hx as [a' ->].
  rewrite length_app. simpl.
  replace (length a' + 1 - 1) with (length a') by lia.
  by rewrite take_app_length.
Qed.

(** One pass moves positions from the boxes to the order and keeps
    [remaining] equal to the number left in the boxes; a pass that meets a
    box with a position left moves at least one. *)
Lemma removal_pass_spec traverse :
  ∀ boxes positions remaining,
  remaining = length (concat boxes) →
  ∃ boxes' positions' remaining',
    removal_pass traverse (boxes, positions, remaining)
      = (boxes', positions', remaining') ∧
    length boxes' = length boxes ∧
    remaining' = length (concat boxes') ∧
    positions' ++ concat boxes' ≡ₚ positions ++ concat boxes ∧
    remaining' ≤ remaining ∧
    ((∃ i b, i ∈ traverse ∧ boxes !! i = Some b ∧ b ≠ []) →
     remaining' < remaining).
Proof.
  unfold removal_pass.
  induction traverse as [|i traverse IH]; intros boxes positions remaining Hrem.
  { eexists _, _, _. split; [done|]. repeat split; try done.
    intros (i & b & Hi & _). by apply elem_of_nil in Hi. }
  cbn [foldl]. destruct (boxes !! i) as [box|] eqn:Hbox.
  - destruct (decide (box = [])) as [->|Hne].
    + change (pop (@nil Position)) with (@nil Position, @None Position).
      cbv beta iota.
      destruct (IH boxes positions remaining Hrem)
        as (b' & p' & r' & -> & Hlen & Hr & Hperm & Hle & Hprog).
      eexists _, _, _. split; [done|]. repeat split; try done.
      intros (j & b & Hj & Hb & Hbne). apply Hprog.
      apply elem_of_cons in Hj as [->|Hj]; [congruence|]. by exists j, b.
    + destruct (pop_Some box Hne) as (box' & x & -> & ->).
      cbv beta iota.
      pose proof (concat_insert_pop boxes i box' x Hbox) as Hins.
      pose proof (Permutation_length Hins) as Hcount. simpl in Hcount.
      destruct (IH (<[i:=box']> boxes) (positions ++ [x]) (remaining - 1))
        as (b' & p' & r' & -> & Hlen & Hr & Hperm & Hle & _); [lia|].
      eexists _, _, _. split; [done|].
      rewrite length_insert in Hlen.
      repeat split; try done.
      * rewrite Hperm, <- Hins, <- (assoc_L (++)). done.
      * lia.
      * intros _. lia.
  - destruct (IH boxes positions remaining Hrem)
      as (b' & p' & r' & -> & Hlen & Hr & Hperm & Hle & Hprog).
    eexists _, _, _. split; [done|]. repeat split; try done.
    intros (j & b & Hj & Hb & Hbne). apply Hprog.
    apply elem_of_cons in Hj as [->|Hj]; [congruence|]. by exists j, b.
Qed.

(** The round-robin ends because the boxes are empty, never because the
    passes allowed ran out. *)
Lemma removal_passes_spec fuel :
  ∀ boxes positions remaining step,
  remaining = length (concat boxes) → remaining ≤ fuel →
  removal_passes fuel boxes positions remaining step ≡ₚ positions ++ concat boxes.
Proof.
  induction fuel as [|fuel IH]; intros boxes positions remaining step Hrem Hfuel.
  { simpl. assert (concat boxes = []) as -> by (apply nil_length_inv; lia).
    by rewrite app_nil_r. }
  simpl. destruct (remaining =? 0) eqn:Hz.
  { apply Nat.eqb_eq in Hz.
    assert (concat boxes = []) as -> by (apply nil_length_inv; lia).
    by rewrite app_nil_r. }
  apply Nat.eqb_neq in Hz.
  match goal with |- context [removal_pass ?t] => set (traverse := t) end.
  destruct (removal_pass_spec traverse boxes positions remaining Hrem)
    as (b' & p' & r' & -> & Hlen & Hr & Hperm & Hle & Hprog).
  rewrite IH; [done|done|].
  assert (r' < remaining); [|lia].
  apply Hprog. destruct (concat_nonempty boxes) as (i & b & Hi & Hb).
  { intros Hnil. rewrite Hnil in Hrem. simpl in Hrem. lia. }
  exists i, b. split; [|done].
  apply lookup_lt_Some in Hi.
  unfold traverse. destruct (_ =? 0).
  - apply elem_of_seq. lia.
  - apply elem_of_reverse, elem_of_seq. lia.
Qed.

(** The cells of the grid, box by box. *)
Definition box_cells (boxSize : nat) : list Position :=
  boxRow ← seq 0 boxSize; boxCol ← seq 0 boxSize;
  r ← seq (boxRow * boxSize) boxSize; c ← seq (boxCol * boxSize) boxSize;
  [mkPosition r c].

(** [getBalancedRemovalOrder] lists every cell of every box once. *)
Lemma getBalancedRemovalOrder_Permutation size rng :
  (getBalancedRemovalOrder size rng).1 ≡ₚ box_cells (Nat.sqrt size).
Proof.
  unfold getBalancedRemovalOrder, box_cells.
  set (boxSize := Nat.sqrt size).
  set (box := λ boxRow boxCol : nat,
    r ← seq (boxRow * boxSize) boxSize; c ← seq (boxCol * boxSize) boxSize;
    [mkPosition r c]).
  match goal with |- context [for_upto boxSize ?body ?init] =>
    pose proof (for_upto_inv
      (λ k st, concat st.1 ≡ₚ boxRow ← seq 0 k; boxCol ← seq 0 boxSize; box boxRow boxCol)
      boxSize body init) as Hloop
  end.
  cbv beta in Hloop.
  destruct (for_upto boxSize _ _) as [boxes rng1].
  destruct (shuffleArray boxes rng1) as [boxes' rng2] eqn:Hsh.
  pose proof (shuffleArray_Permutation boxes rng1) as Hperm.
  rewrite Hsh in Hperm. cbn [fst] in Hperm, Hloop |- *.
  rewrite remaining_count, Nat.add_0_l.
  rewrite removal_passes_spec; [|done|done].
  rewrite app_nil_l, Hperm. apply Hloop; [done|].
  intros k [bs r] Hk Hinv. cbn [fst] in Hinv.
  match goal with |- context [for_upto boxSize ?body ?init] =>
    pose proof (for_upto_inv
      (λ j st, concat st.1 ≡ₚ
         (boxRow ← seq 0 k; boxCol ← seq 0 boxSize; box boxRow boxCol)
         ++ (boxCol ← seq 0 j; box k boxCol))
      boxSize body init) as Hin
  end.
  cbv beta in Hin.
  rewrite seq_S, bind_app, Nat.add_0_l, bind_cons; change (@nil nat ≫= ?f) with (@nil Position); rewrite !app_nil_r.
  apply Hin.
  - cbn [fst]. change (seq 0 0 ≫= ?f) with (@nil Position). by rewrite app_nil_r.
  - intros j [bs' r'] Hj Hinv'. cbn [fst] in Hinv'.
    fold (box k j).
    destruct (shuffleArray (box k j) r') as [bp r''] eqn:Hbp.
    pose proof (shuffleArray_Permutation (box k j) r') as Hp.
    rewrite Hbp in Hp. cbn [fst] in Hp |- *.
    rewrite concat_app, Hinv'. cbn [concat]. rewrite app_nil_r, Hp.
    rewrite seq_S, bind_app, Nat.add_0_l, bind_cons; change (@nil nat ≫= ?f) with (@nil Position); rewrite !app_nil_r.
    by rewrite <- (assoc_L (++)).
Qed.

Lemma length_bind_const {A B} (f : A → list B) m (l : list A) :
  (∀ x, length (f x) = m) → length (l ≫= f) = length l * m.
Proof.
  intros Hf. induction l as [|x l IH]; [done|].
  rewrite bind_cons, length_app, IH, Hf. simpl. lia.
Qed.

Lemma getBalancedRemovalOrder_length size rng :
  sqrt_is_whole size = true →
  length (getBalancedRemovalOrder size rng).1 = size * size.
Proof.
  intros Hw. rewrite getBalancedRemovalOrder_Permutation.
  pose proof (whole_root size Hw) as Hsq.
  unfold box_cells.
  rewrite (length_bind_const _ (Nat.sqrt size * (Nat.sqrt size * Nat.sqrt size))).
  { rewrite length_seq. nia. }
  intros boxRow.
  rewrite (length_bind_const _ (Nat.sqrt size * Nat.sqrt size)).
  { by rewrite length_seq. }
  intros boxCol. rewrite (length_bind_const _ (Nat.sqrt size)).
  { by rewrite length_seq. }
  intros r. by rewrite length_bind_singleton, length_seq.
Qed.

Lemma elem_of_getBalancedRemovalOrder size rng r c :
  sqrt_is_whole size = true →
  mkPosition r c ∈ (getBalancedRemovalOrder size rng).1 ↔ r < size ∧ c < size.
Proof.
  intros Hw. rewrite getBalancedRemovalOrder_Permutation.
  pose proof (whole_root size Hw) as Hsq.
  set (b := Nat.sqrt size) in *.
  assert (∀ x, (∃ k, k ∈ seq 0 b ∧ x ∈ seq (k * b) b) ↔ x < size) as Hband.
  { intros x. split.
    - intros (k & Hk & Hx). apply elem_of_seq in Hk, Hx. nia.
    - intros Hx. assert (0 < b) by nia. exists (x / b).
      pose proof (Nat.div_mod_eq x b). pose proof (Nat.mod_upper_bound x b).
      rewrite !elem_of_seq. split; [split; [lia|]|nia].
      apply Nat.Div0.div_lt_upper_bound. nia. }
  unfold box_cells. split.
  - intros H. apply list_elem_of_bind in H as (br & H & Hbr).
    apply list_elem_of_bind in H as (bc & H & Hbc).
    apply list_elem_of_bind in H as (r' & H & Hr).
    apply list_elem_of_bind in H as (c' & H & Hc).
    apply list_elem_of_singleton in H as [= -> ->].
    split; apply Hband; eauto.
  - intros [Hr Hc].
    apply Hband in Hr as (br & Hbr & Hr). apply Hband in Hc as (bc & Hbc & Hc).
    apply list_elem_of_bind. exists br. split; [|done].
    apply list_elem_of_bind. exists bc. split; [|done].
    apply list_elem_of_bind. exists r. split; [|done].
    apply list_elem_of_bind. exists c. split; [|done].
    by left.
Qed.

(** ** What [generatePuzzle] hands out *)

Lemma bind_Permutation_pointwise {A B} (f h : A → list B) (l : list A) :
  (∀ x, x ∈ l → f x ≡ₚ h x) → l ≫= f ≡ₚ l ≫= h.
Proof.
  induction l as [|x l IH]; intros Hfh; [done|].
  rewrite !bind_cons. f_equiv.
  - apply Hfh. left.
  - apply IH. intros y Hy. apply Hfh. by right.
Qed.

Lemma bands_concat box k :
  (seq 0 k ≫= λ b, (λ i, b * box + i) <$> seq 0 box) = seq 0 (k * box).
Proof.
  induction k as [|k IH]; [done|].
  rewrite seq_S, bind_app, IH. simpl. rewrite app_nil_r.
  change (λ i, k * box + i) with (Nat.add (k * box)).
  rewrite (fmap_add_seq (k * box) 0 box), Nat.add_0_r.
  rewrite <- seq_app. f_equal. lia.
Qed.

(** How [generateBandWisePermutation] builds its result: the bands, each
    shuffled within itself, laid out in a shuffled order. *)
Lemma generateBandWisePermutation_bands size rng :
  ∃ (bands : list (list nat)) (bandOrder : list nat) rng',
    generateBandWisePermutation size rng
      = (b ← bandOrder; default [] (bands !! b), rng') ∧
    bandOrder ≡ₚ seq 0 (Nat.sqrt size) ∧
    ∀ b, b < Nat.sqrt size → ∃ band, bands !! b = Some band ∧
      band ≡ₚ (λ i, b * Nat.sqrt size + i) <$> seq 0 (Nat.sqrt size).
Proof.
  unfold generateBandWisePermutation.
  set (box := Nat.sqrt size).
  pose (Inv := λ k (st : list (list nat) * Rng),
    length st.1 = k ∧
    ∀ b, b < k → ∃ band, st.1 !! b = Some band ∧
      band ≡ₚ (λ i, b * box + i) <$> seq 0 box).
  match goal with |- context [for_upto box ?body ?init] =>
    assert (Inv box (for_upto box body init)) as Hbands end.
  { apply for_upto_inv.
    - split; [done|]. intros; lia.
    - intros k [bands rng0] Hk [Hlen Hall]. simpl in *.
      destruct (shuffleArray _ rng0) as [within rng1] eqn:Hshuffle.
      unfold Inv. simpl.
      split; [rewrite length_app; simpl; lia|].
      intros b Hb. destruct (decide (b = k)) as [->|Hne].
      + exists within. split.
        * rewrite lookup_app_r by lia. by rewrite Hlen, Nat.sub_diag.
        * pose proof (shuffleArray_Permutation ((λ i, k * box + i) <$> seq 0 box) rng0)
            as Hperm. by rewrite Hshuffle in Hperm.
      + destruct (Hall b ltac:(lia)) as (band & Hband & Hperm).
        exists band. split; [|done]. rewrite lookup_app_l by lia. done. }
  destruct (for_upto box _ _) as [bands rng0]. destruct Hbands as [Hlen Hall].
  simpl in *.
  pose proof (shuffleArray_Permutation (seq 0 box) rng0) as Horder.
  destruct (shuffleArray (seq 0 box) rng0) as [bandOrder rng1]. simpl in *.
  by exists bands, bandOrder, rng1.
Qed.

(** The band-wise permutation is a permutation of the indices 0..size-1. *)
Lemma generateBandWisePermutation_perm size rng :
  sqrt_is_whole size = true →
  (generateBandWisePermutation size rng).1 ≡ₚ seq 0 size.
Proof.
  intros Hw.
  destruct (generateBandWisePermutation_bands size rng)
    as (bands & bandOrder & rng' & -> & Horder & Hall).
  cbn [fst]. rewrite Horder.
  rewrite (bind_Permutation_pointwise _
    (λ b, (λ i, b * Nat.sqrt size + i) <$> seq 0 (Nat.sqrt size))).
  - rewrite bands_concat. by rewrite (whole_root size Hw).
  - intros b Hb. apply elem_of_seq in Hb.
    destruct (Hall b ltac:(lia)) as (band & -> & Hperm). done.
Qed.

(** An element of a concatenation of chunks of one length lies in the chunk
    its index points to. *)
Lemma lookup_bind_chunks {A B} (f : A → list B) m (l : list A) :
  (∀ x, x ∈ l → length (f x) = m) →
  ∀ i y, (l ≫= f) !! i = Some y → ∃ x, l !! (i / m) = Some x ∧ y ∈ f x.
Proof.
  induction l as [|x l IH]; intros Hlen i y Hy; [done|].
  rewrite bind_cons in Hy.
  assert (length (f x) = m) as Hx by (apply Hlen; left).
  destruct (decide (i < m)) as [Hi|Hi].
  - rewrite lookup_app_l in Hy by lia.
    exists x. rewrite Nat.div_small by done. split; [done|].
    by eapply list_elem_of_lookup_2.
  - rewrite lookup_app_r in Hy by lia. rewrite Hx in Hy.
    destruct (IH (λ z Hz, Hlen z (list_elem_of_further _ _ _ Hz)) _ _ Hy)
      as (x' & Hx' & Hin).
    destruct (decide (m = 0)) as [->|Hm].
    { apply list_elem_of_lookup_2 in Hx'.
      pose proof (Hlen x' (list_elem_of_further _ _ _ Hx')) as H0.
      apply nil_length_inv in H0. rewrite H0 in Hin. by apply elem_of_nil in Hin. }
    exists x'. split; [|done].
    replace i with ((i - m) + 1 * m) by lia.
    rewrite Nat.div_add by done. by rewrite Nat.add_1_r.
Qed.

(** Rows (or columns) of one band go to one band, and only they. *)
Definition keeps_bands (size : nat) (p : list nat) : Prop :=
  ∀ i j pi pj, p !! i = Some pi → p !! j = Some pj →
    pi / Nat.sqrt size = pj / Nat.sqrt size ↔ i / Nat.sqrt size = j / Nat.sqrt size.

Lemma generateBandWisePermutation_keeps_bands size rng :
  keeps_bands size (generateBandWisePermutation size rng).1.
Proof.
  destruct (generateBandWisePermutation_bands size rng)
    as (bands & bandOrder & rng' & -> & Horder & Hall).
  cbn [fst]. set (box := Nat.sqrt size) in *.
  assert (∀ i pi, (bandOrder ≫= λ b, default [] (bands !! b)) !! i = Some pi →
    bandOrder !! (i / box) = Some (pi / box)) as Hband.
  { intros i pi Hi.
    apply (lookup_bind_chunks _ box) in Hi as (b & Hb & Hin).
    - assert (b < box) as Hlt.
      { apply list_elem_of_lookup_2 in Hb. rewrite Horder, elem_of_seq in Hb. lia. }
      destruct (Hall b Hlt) as (band & Hbb & Hperm).
      rewrite Hbb in Hin. simpl in Hin. rewrite Hperm in Hin.
      apply list_elem_of_fmap in Hin as (k & -> & Hk). apply elem_of_seq in Hk.
      rewrite Hb. f_equal.
      apply (Nat.div_unique _ _ _ k); lia.
    - intros b Hb. rewrite Horder, elem_of_seq in Hb.
      destruct (Hall b ltac:(lia)) as (band & -> & Hperm). simpl.
      by rewrite Hperm, length_fmap, length_seq. }
  unfold keeps_bands. fold box.
  intros i j pi pj Hi Hj. apply Hband in Hi, Hj. split.
  - intros Heq. rewrite Heq in Hi.
    eapply NoDup_lookup; [|exact Hi|exact Hj].
    rewrite Horder. apply NoDup_seq.
  - intros Heq. rewrite Heq in Hi. congruence.
Qed.

Lemma empty_grid_partial size :
  partial size (replicate size (replicate size 0%Z)).
Proof.
  assert (∀ r c v,
    cell (replicate size (replicate size 0%Z)) r c = Some v → v = 0%Z) as Hzero.
  { intros r c v. unfold cell. intros H.
    destruct (replicate size (replicate size 0%Z) !! r) as [rw|] eqn:Hr;
      simpl in H; [|done].
    apply lookup_replicate_1 in Hr as [-> _].
    by apply lookup_replicate_1 in H as [-> _]. }
  split; [|split].
  - split; [by rewrite length_replicate|].
    intros r rw Hr. apply lookup_replicate_1 in Hr as [-> _].
    by rewrite length_replicate.
  - intros r c r' c' v _ _ _ _ _ _ Hv _. eauto.
  - intros r c v Hv. apply Hzero in Hv. lia.
Qed.

Lemma generateCompleteSolution_solved size rng s rng' :
  sqrt_is_whole size = true →
  generateCompleteSolution size rng = Returned (s, rng') → solved size s.
Proof.
  intros Hw. unfold generateCompleteSolution.
  destruct (solvePuzzle _ _ size rng) as [[[[|] g] rng1]|] eqn:Hsolve; [|done|done].
  intros [= <- <-]. eapply solvePuzzle_sound; [done| |done].
  apply empty_grid_partial.
Qed.

(** Permuting rows within bands, bands, columns within stacks and stacks
    keeps a complete, legal grid complete and legal. *)
Lemma applyPermutation_solved size s p q :
  solved size s → p ≡ₚ seq 0 size → q ≡ₚ seq 0 size →
  keeps_bands size p → keeps_bands size q →
  solved size (applyPermutation s p q).
Proof.
  intros (Hsq & Hfilled & Hfree) Hp Hq Hbp Hbq.
  destruct (Permutations.applyPermutation_spec size s p q Hsq Hp Hq) as [Hsq' Hcell].
  split; [done|]. split.
  - intros r c Hr Hc.
    destruct (Permutations.perm_surjective size p Hp r Hr) as [r0 Hr0].
    destruct (Permutations.perm_surjective size q Hq c Hc) as [c0 Hc0].
    rewrite (Hcell _ _ _ _ Hr0 Hc0). apply Hfilled.
    + rewrite <- (Permutations.perm_length size p Hp). by eapply lookup_lt_Some.
    + rewrite <- (Permutations.perm_length size q Hq). by eapply lookup_lt_Some.
  - intros r c r' c' v Hr Hc Hr' Hc' Hne Hunit Hv Hv'.
    destruct (Permutations.perm_surjective size p Hp r Hr) as [r0 Hr0].
    destruct (Permutations.perm_surjective size q Hq c Hc) as [c0 Hc0].
    destruct (Permutations.perm_surjective size p Hp r' Hr') as [r1 Hr1].
    destruct (Permutations.perm_surjective size q Hq c' Hc') as [c1 Hc1].
    rewrite (Hcell _ _ _ _ Hr0 Hc0) in Hv. rewrite (Hcell _ _ _ _ Hr1 Hc1) in Hv'.
    pose proof (Permutations.perm_length size p Hp) as Hlp.
    pose proof (Permutations.perm_length size q Hq) as Hlq.
    apply (Hfree r0 c0 r1 c1 v); try done.
    + rewrite <- Hlp. by eapply lookup_lt_Some.
    + rewrite <- Hlq. by eapply lookup_lt_Some.
    + rewrite <- Hlp. by eapply lookup_lt_Some.
    + rewrite <- Hlq. by eapply lookup_lt_Some.
    + intros [= -> ->]. apply Hne. congruence.
    + destruct Hunit as [->|[->|[Hw [Hbr Hbc]]]].
      * left. by eapply (Permutations.perm_injective size p Hp).
      * right; left. by eapply (Permutations.perm_injective size q Hq).
      * right; right. split; [done|]. split.
        -- by apply (Hbp r1 r0 r' r).
        -- by apply (Hbq c1 c0 c' c).
Qed.

(** Inside [generatePuzzle] the removal policies start from a complete,
    legal grid. *)
Lemma permuted_solution_solved size rng :
  sqrt_is_whole size = true →
  let '(rowPerm, rng1) := generateBandWisePermutation size rng in
  let '(colPerm, rng2) := generateBandWisePermutation size rng1 in
  ∀ s rng3, generateCompleteSolution size rng2 = Returned (s, rng3) →
  solved size (applyPermutation s rowPerm colPerm).
Proof.
  intros Hw.
  pose proof (generateBandWisePermutation_perm size rng Hw) as Hp.
  pose proof (generateBandWisePermutation_keeps_bands size rng) as Hbp.
  destruct (generateBandWisePermutation size rng) as [rowPerm rng1].
  pose proof (generateBandWisePermutation_perm size rng1 Hw) as Hq.
  pose proof (generateBandWisePermutation_keeps_bands size rng1) as Hbq.
  destruct (generateBandWisePermutation size rng1) as [colPerm rng2].
  intros s rng3 Hs. apply applyPermutation_solved; try done.
  by eapply generateCompleteSolution_solved.
Qed.

Lemma blanked_refl size s : square size s → blanked size s s.
Proof. intros Hsq. split; [done|]. auto. Qed.

Lemma easy_removals_blanked size s positions :
  ∀ g targetClues currentClues, blanked size s g →
  blanked size s (easy_removals positions g targetClues currentClues).
Proof.
  induction positions as [|pos positions IH]; intros g t c Hg; [done|].
  rewrite easy_removals_cons.
  destruct (c <=? t); [done|].
  destruct (cell_is g (row pos) (col pos) 0); apply IH; [done|].
  by apply blanked_blank.
Qed.

Lemma hard_removals_blanked size s positions :
  ∀ g targetClues currentClues attempts rng g' rng', blanked size s g →
  hard_removals positions g size targetClues currentClues attempts rng
    = Some (g', rng') →
  blanked size s g'.
Proof.
  induction positions as [|pos positions IH];
    intros g t c attempts rng g' rng' Hg.
  - simpl. by intros [= <- <-].
  - rewrite hard_removals_cons.
    destruct ((c <=? t) || (maxAttempts <=? attempts)); [by intros [= <- <-]|].
    cbv zeta.
    pose proof (blanked_blank size s g (row pos) (col pos) Hg) as Hg0.
    assert (∀ v, cell g (row pos) (col pos) = Some v →
      blanked size s (set_cell (set_cell g (row pos) (col pos) 0)
                               (row pos) (col pos) v)) as Hrestore.
    { intros v Hv. rewrite set_cell_set_cell. by rewrite set_cell_same. }
    destruct (cell g (row pos) (col pos)) as [[|v|v]|] eqn:Hcell.
    + by apply IH.
    + destruct (S attempts `mod` 5 =? 0); [|by apply IH].
      destruct (hasAnySolution _ size rng) as [[[|] rng1]|]; [| |done];
        apply IH; auto.
    + destruct (S attempts `mod` 5 =? 0); [|by apply IH].
      destruct (hasAnySolution _ size rng) as [[[|] rng1]|]; [| |done];
        apply IH; auto.
    + destruct (S attempts `mod` 5 =? 0); [|by apply IH].
      destruct (hasAnySolution _ size rng) as [[[|] rng1]|]; [| |done];
        apply IH; auto.
Qed.

Lemma createPuzzleFromSolution_blanked size s d rng g rng' :
  square size s →
  createPuzzleFromSolution s d size rng = Some (g, rng') → blanked size s g.
Proof.
  intros Hsq. unfold createPuzzleFromSolution.
  destruct (calculateTargetClues size d rng) as [targetClues rng1].
  pose proof (blanked_refl size s Hsq) as Hrefl.
  assert (createHardPuzzle s targetClues size rng1 = Some (g, rng') →
          blanked size s g) as Hhard.
  { unfold createHardPuzzle.
    destruct (getBalancedRemovalOrder size rng1) as [positions rng2].
    by apply hard_removals_blanked. }
  assert (Some (createEasyPuzzle s targetClues size rng1) = Some (g, rng') →
          blanked size s g) as Heasy.
  { unfold createEasyPuzzle.
    destruct (getBalancedRemovalOrder size rng1) as [positions rng2].
    intros [= <- <-]. by apply easy_removals_blanked. }
  destruct d; done.
Qed.

(** ** The capped enumeration *)

(** [g] can be completed to a solution. *)
Definition completable (size : nat) (g : Grid) : Prop :=
  ∃ s, solved size s ∧ blanked size s g.

(** What a run of the enumeration does to the list of solutions: it only
    grows, never beyond the cap, and it does grow when the grid can be
    completed and the cap is not yet reached. *)
Definition collects (maxSolutions : nat) (good : Prop) (before after : list Grid)
    : Prop :=
  length before ≤ length after ∧
  (length before ≤ maxSolutions → length after ≤ maxSolutions) ∧
  (good → length before < maxSolutions → length before < length after).

Section enumerate.
Context (rec : Grid → list Grid → option (Grid * list Grid)).
Context (row col size maxSolutions : nat) (g : Grid).
Context (Hzero : cell g row col = Some 0%Z).
Context (Hrec : ∀ num sols, (1 ≤ num ≤ Z.of_nat size)%Z →
  ∃ sols', rec (set_cell g row col num) sols = Some (set_cell g row col num, sols') ∧
    collects maxSolutions (completable size (set_cell g row col num)) sols sols').

Lemma enumerate_spec nums :
  (∀ num, num ∈ nums → (1 ≤ num ≤ Z.of_nat size)%Z) →
  ∀ sols, ∃ sols',
    enumerate rec row col size maxSolutions nums g sols = Some (g, sols') ∧
    collects maxSolutions
      (∃ v, v ∈ nums ∧ isValidMove g row col v size = true ∧
            completable size (set_cell g row col v)) sols sols'.
Proof using Hzero Hrec.
  unfold collects.
  induction nums as [|num nums IH]; intros Hnums sols; simpl.
  - exists sols. split; [done|]. split; [done|]. split; [done|].
    intros (v & Hin & _). by apply elem_of_nil in Hin.
  - assert (∀ n, n ∈ nums → (1 ≤ n ≤ Z.of_nat size)%Z) as Hnums'
      by (intros n Hn; apply Hnums; by right).
    specialize (IH Hnums').
    destruct (isValidMove g row col num size) eqn:Hvalid.
    + destruct (Hrec num sols ltac:(apply Hnums; left))
        as (sols1 & -> & Hle1 & Hcap1 & Hgrow1).
      rewrite set_cell_undo by done.
      destruct (maxSolutions <=? length sols1) eqn:Hfull.
      * apply Nat.leb_le in Hfull. exists sols1. split; [done|].
        split; [done|]. split; [done|]. intros _ Hroom. lia.
      * apply Nat.leb_gt in Hfull.
        destruct (IH sols1) as (sols' & -> & Hle & Hcap & Hgrow).
        exists sols'. split; [done|]. split; [lia|]. split; [lia|].
        intros (v & Hin & Hv & Hcompl) Hroom.
        apply elem_of_cons in Hin as [->|Hin].
        -- specialize (Hgrow1 Hcompl Hroom). lia.
        -- assert (length sols1 < length sols'); [|lia].
           apply Hgrow; [|done]. eauto.
    + destruct (IH sols) as (sols' & -> & Hle & Hcap & Hgrow).
      exists sols'. split; [done|]. split; [done|]. split; [done|].
      intros (v & Hin & Hv & Hcompl) Hroom.
      apply elem_of_cons in Hin as [->|Hin]; [congruence|].
      apply Hgrow; [|done]. eauto.
Qed.
End enumerate.

(** The enumeration returns, restores the grid, and records at least one
    completion of a completable grid. *)
Lemma findAllSolutions_spec size maxSolutions fuel :
  sqrt_is_whole size = true →
  ∀ g sols, empties size g < fuel →
  ∃ sols', findAllSolutions fuel g size sols maxSolutions = Some (g, sols') ∧
    collects maxSolutions (completable size g) sols sols'.
Proof.
  intros Hw. induction fuel as [|fuel IH]; intros g sols Hfuel; simpl.
  - lia.
  - destruct (maxSolutions <=? length sols) eqn:Hfull.
    { exists sols. split; [done|]. apply Nat.leb_le in Hfull.
      split; [done|]. split; [done|]. lia. }
    apply Nat.leb_gt in Hfull.
    destruct (findEmptyCell g size) as [[row col]|] eqn:Hfind.
    + apply findEmptyCell_Some in Hfind as (Hr & Hc & Hzero).
      destruct (enumerate_spec (λ g s, findAllSolutions fuel g size s maxSolutions)
                  row col size maxSolutions g Hzero) with
        (nums := Z.of_nat <$> seq 1 size) (sols := sols)
        as (sols' & Heq & Hle & Hcap & Hgrow).
      * intros num sols0 Hnum. apply IH.
        rewrite (empties_fill size g row col num) in Hfuel by (done || lia). lia.
      * intros num Hin. apply list_elem_of_fmap in Hin as (k & -> & Hk).
        apply elem_of_seq in Hk. lia.
      * exists sols'. split; [done|]. split; [done|]. split; [done|].
        intros (s & Hs & Hblank). apply Hgrow.
        pose proof Hs as (_ & Hfilled & _).
        destruct (Hfilled row col Hr Hc) as (v & Hv & Hvrange).
        exists v. split; [|split].
        -- apply list_elem_of_fmap. exists (Z.to_nat v). split; [lia|].
           apply elem_of_seq. lia.
        -- by apply (completion_move_valid size s).
        -- exists s. split; [done|]. by apply blanked_fill.
    + exists (sols ++ [g]). split; [done|]. unfold collects.
      rewrite length_app. simpl. split; [lia|]. split; lia.
Qed.

(** The puzzles [generatePuzzle] returns: the solution is complete and
    legal, and the initial state is the solution with some cells blanked. *)
Lemma generatePuzzle_blanked options rng p :
  generatePuzzle options rng = Returned p →
  sqrt_is_whole (size p) = true ∧
  solved (size p) (solution p) ∧
  blanked (size p) (solution p) (initialState p).
Proof.
  unfold generatePuzzle. set (n := opt_size options).
  destruct (sqrt_is_whole n) eqn:Hw; [simpl|done].
  pose proof (generateBandWisePermutation_perm n rng Hw) as Hrow.
  destruct (generateBandWisePermutation n rng) as [rowPerm rng1].
  pose proof (generateBandWisePermutation_perm n rng1 Hw) as Hcol.
  destruct (generateBandWisePermutation n rng1) as [colPerm rng2].
  simpl in Hrow, Hcol.
  destruct (generateCompleteSolution n rng2) as [[s rng3]| |] eqn:Hgen; [|done|done].
  apply generateCompleteSolution_solved in Hgen; [|done].
  pose proof Hgen as (Hsq & _ & _).
  destruct (Permutations.applyPermutation_spec n s rowPerm colPerm Hsq Hrow Hcol)
    as [Hsq1 Hcells1].
  set (s1 := applyPermutation s rowPerm colPerm) in *.
  destruct (createPuzzleFromSolution s1 _ n rng3) as [[g1 rng4]|] eqn:Hcreate;
    [|done].
  apply (createPuzzleFromSolution_blanked n) in Hcreate as [Hsqg1 Hblank]; [|done].
  pose proof (Permutations.invertPermutation_perm n rowPerm Hrow) as Hirow.
  pose proof (Permutations.invertPermutation_perm n colPerm Hcol) as Hicol.
  destruct (Permutations.applyPermutation_spec n g1 _ _ Hsqg1 Hirow Hicol)
    as [Hsqg Hcellsg].
  assert (applyPermutation s1 (invertPermutation rowPerm)
            (invertPermutation colPerm) = s) as Hback
    by (by apply (Permutations.applyPermutation_inverse_roundtrip n)).
  rewrite Hback.
  destruct (analyzeSolvingTechniques _ s) as [techniques|]; [|done].
  intros [= <-]. simpl. fold n. split; [done|]. split; [done|].
  split; [done|]. intros r c Hr Hc.
  destruct (Permutations.perm_lookup_total n rowPerm Hrow r Hr) as [pr Hpr].
  destruct (Permutations.perm_lookup_total n colPerm Hcol c Hc) as [pc Hpc].
  destruct (Permutations.invertPermutation_spec n rowPerm Hrow) as [_ Hinvr].
  destruct (Permutations.invertPermutation_spec n colPerm Hcol) as [_ Hinvc].
  rewrite (Hcellsg pr pc r c) by eauto.
  rewrite <- (Hcells1 r c pr pc) by done.
  apply Hblank.
  - exact (Permutations.perm_lookup_lt n rowPerm Hrow r pr Hpr).
  - exact (Permutations.perm_lookup_lt n colPerm Hcol c pc Hpc).
Qed.

(** C1.  Every puzzle [generatePuzzle] returns, whatever the oracle says,
    has a complete and legal solution (every cell in 1..size, no value twice
    in a row, column or box), and every nonzero cell of its initial state
    equals the solution cell at the same coordinates. *)
Theorem generatePuzzle_givens_match_solution options rng p :
  generatePuzzle options rng = Returned p →
  solved (size p) (solution p) ∧
  ∀ r c v, cell (initialState p) r c = Some v → v ≠ 0%Z →
    cell (solution p) r c = Some v.
Proof.
  intros Hgen.
  destruct (generatePuzzle_blanked options rng p Hgen) as (_ & Hs & Hsq & Hcells).
  split; [done|]. intros r c v Hv Hnz.
  destruct (cell_is_Some_lt (size p) _ r c Hsq ltac:(rewrite Hv; eauto)) as [Hr Hc].
  destruct (Hcells r c Hr Hc) as [Hsame|Hzero]; [by rewrite <- Hsame|congruence].
Qed.


(** What the code does ensure of every puzzle [generatePuzzle] returns: the
    enumeration behind [validateUniqueSolution] terminates on the initial
    state and finds one or two completions of it, and
    [validateUniqueSolution] answers whether it found exactly one.  The
    removal policies never check that there is only one. *)
Theorem generatePuzzle_initialState_has_completion options rng p :
  generatePuzzle options rng = Returned p →
  ∃ g sols,
    findAllSolutions (search_fuel (size p)) (initialState p) (size p) [] 2
      = Some (g, sols) ∧
    1 ≤ length sols ≤ 2 ∧
    validateUniqueSolution (initialState p) = Some (length sols =? 1).
Proof.
  intros Hgen.
  destruct (generatePuzzle_blanked options rng p Hgen) as (Hw & Hs & Hblank).
  pose proof Hblank as [[Hlen _] _].
  destruct (findAllSolutions_spec (size p) 2 (search_fuel (size p)) Hw
              (initialState p) []) as (sols & Heq & _ & Hcap & Hgrow).
  { unfold search_fuel. pose proof (empties_le (size p) (initialState p)). lia. }
  exists (initialState p), sols. split; [done|]. split.
  - simpl in *. split; [|lia].
    assert (0 < length sols); [|lia]. apply Hgrow; [|lia]. by exists (solution p).
  - unfold validateUniqueSolution. by rewrite Hlen, Heq.
Qed.

(** ** [generatePuzzle] returns *)

Lemma hard_removals_total size positions :
  ∀ g targetClues currentClues attempts rng,
  is_Some (hard_removals positions g size targetClues currentClues attempts rng).
Proof.
  induction positions as [|pos positions IH];
    intros g targetClues currentClues attempts rng; [done|].
  rewrite hard_removals_cons.
  destruct ((currentClues <=? targetClues) || (maxAttempts <=? attempts)); [done|].
  cbv zeta.
  assert (∀ g' rng0, is_Some (hasAnySolution g' size rng0)) as Hany.
  { intros g' rng0. unfold hasAnySolution.
    destruct (solvePuzzle_total (search_fuel size) size g' rng0) as [[[b g1] rng1] ->];
      [|done].
    unfold search_fuel. pose proof (empties_le size g'). lia. }
  destruct (cell g (row pos) (col pos)) as [[|v|v]|]; [apply IH| | |];
    (destruct (S attempts `mod` 5 =? 0); [|apply IH]);
    match goal with |- context [hasAnySolution ?g' size rng] =>
      destruct (Hany g' rng) as [[[|] rng1] ->]; apply IH
    end.
Qed.

Lemma createPuzzleFromSolution_total s d size rng :
  is_Some (createPuzzleFromSolution s d size rng).
Proof.
  unfold createPuzzleFromSolution.
  destruct (calculateTargetClues size d rng) as [targetClues rng1].
  assert (is_Some (createHardPuzzle s targetClues size rng1)) as Hhard.
  { unfold createHardPuzzle.
    destruct (getBalancedRemovalOrder size rng1) as [positions rng2].
    apply hard_removals_total. }
  destruct d; done.
Qed.

(** A pass of a technique leaves a grid with no more empty cells than
    before, and with fewer when it reports progress. *)
Definition advance (n : nat) (g : Grid) (st : Grid * bool) : Prop :=
  square n st.1 ∧ empties n st.1 + (if st.2 then 1 else 0) ≤ empties n g.

Lemma advance_refl n g : square n g → advance n g (g, false).
Proof. intros Hsq. split; [done|]. simpl. lia. Qed.

Lemma advance_fill n g0 g p r c v :
  advance n g0 (g, p) → cell g r c = Some 0%Z → v ≠ 0%Z →
  advance n g0 (set_cell g r c v, true).
Proof.
  intros [Hsq Hle] Hzero Hv. simpl in *.
  destruct (cell_is_Some_lt n g r c Hsq ltac:(rewrite Hzero; eauto)) as [Hr Hc].
  split; [by apply set_cell_square|]. simpl.
  rewrite (empties_fill n g r c v) in Hle by done. destruct p; lia.
Qed.

Lemma advance_trans n g0 g1 p1 g2 p2 :
  advance n g0 (g1, p1) → advance n g1 (g2, p2) → advance n g0 (g2, p2 || p1).
Proof.
  intros [Hsq1 Hle1] [Hsq2 Hle2]. simpl in *. split; [done|]. simpl.
  destruct p1, p2; simpl; lia.
Qed.

Lemma applyNakedSingles_advance n g :
  square n g → advance n g (applyNakedSingles g).
Proof.
  intros Hsq. unfold applyNakedSingles.
  apply (for_upto_inv (λ _, advance n g)); [by apply advance_refl|].
  intros r st _ Hst.
  apply (for_upto_inv (λ _, advance n g)); [done|].
  intros c [grid progress] _ Hgrid. unfold cell_is.
  case_bool_decide as Hzero; [|done].
  destruct (getCandidates grid r c (length g)) as [|value [|]] eqn:Hcand; try done.
  apply (advance_fill n g grid progress); [done|done|].
  assert (value ∈ getCandidates grid r c (length g)) as Hin by (rewrite Hcand; left).
  unfold getCandidates in Hin. apply list_elem_of_filter in Hin as [_ Hin].
  apply list_elem_of_fmap in Hin as (k & -> & Hk). apply elem_of_seq in Hk. lia.
Qed.

Lemma fill_hidden_singles_advance n unit size g :
  square n g → advance n g (fill_hidden_singles unit size g).
Proof.
  intros Hsq. unfold fill_hidden_singles.
  assert (∀ nums st, (∀ num, num ∈ nums → num ≠ 0%Z) → advance n g st →
    advance n g (foldl (λ '(grid, progress) num,
        match filter (λ '(r, c), cell_is grid r c 0
                                 && isValidMove grid r c num size = true) unit with
        | [(r, c)] => (set_cell grid r c num, true)
        | _ => (grid, progress)
        end) st nums)) as Hloop.
  { induction nums as [|num nums IH]; intros [grid progress] Hnums Hst; [done|].
    simpl. apply IH; [intros m Hm; apply Hnums; by right|].
    destruct (filter _ unit) as [|[r c] [|]] eqn:Hfilter; try done.
    assert ((r, c) ∈ filter (λ '(r, c), cell_is grid r c 0
              && isValidMove grid r c num size = true) unit) as Hin
      by (rewrite Hfilter; left).
    apply list_elem_of_filter in Hin as [Hok _].
    apply andb_true_iff in Hok as [Hzero _]. apply bool_decide_eq_true in Hzero.
    apply (advance_fill n g grid progress); [done|done|].
    apply Hnums. left. }
  apply Hloop; [|by apply advance_refl].
  intros num Hin. apply list_elem_of_fmap in Hin as (k & -> & Hk).
  apply elem_of_seq in Hk. lia.
Qed.

Lemma applyHiddenSingles_advance n g :
  square n g → advance n g (applyHiddenSingles g).
Proof.
  intros Hsq. unfold applyHiddenSingles.
  assert (∀ (f : Grid → Grid * bool) grid progress,
    (∀ g', square n g' → advance n g' (f g')) →
    advance n g (grid, progress) →
    advance n g (let '(grid, p) := f grid in (grid, p || progress))) as Hcall.
  { intros f grid progress Hf Hst. pose proof (Hf grid (proj1 Hst)) as Hstep.
    destruct (f grid) as [grid' p]. by apply (advance_trans n g grid). }
  set (lines := for_upto (length g) _ (g, false)).
  assert (advance n g lines) as Hlines.
  { apply (for_upto_inv (λ _, advance n g)); [by apply advance_refl|].
    intros i [grid progress] _ Hst.
    pose proof (Hcall (λ grid, findHiddenSinglesInRow grid i (length g)) grid progress
                  (λ g' Hg', fill_hidden_singles_advance n _ _ g' Hg') Hst) as Hrow.
    simpl in Hrow.
    destruct (findHiddenSinglesInRow grid i (length g)) as [grid1 p1].
    exact (Hcall (λ grid, findHiddenSinglesInColumn grid i (length g)) grid1
             (p1 || progress)
             (λ g' Hg', fill_hidden_singles_advance n _ _ g' Hg') Hrow). }
  clearbody lines.
  assert (∀ (A : Type) (f : Grid * bool → A → Grid * bool) (l : list A) st,
    (∀ st a, advance n g st → advance n g (f st a)) →
    advance n g st → advance n g (foldl f st l)) as Hfold.
  { intros A f l. induction l as [|a l IH]; intros st Hf Hst; [done|].
    simpl. apply IH; [done|]. by apply Hf. }
  apply Hfold; [|done]. intros st boxRow Hst.
  apply Hfold; [|done]. intros [grid progress] boxCol Hgrid.
  exact (Hcall (λ grid, findHiddenSinglesInBox grid boxRow boxCol (Nat.sqrt (length g)))
           grid progress
           (λ g' Hg', fill_hidden_singles_advance n _ _ g' Hg') Hgrid).
Qed.

(** The technique analysis stops: every round that goes on has filled a
    cell. *)
Lemma analysis_loop_total n fuel :
  ∀ g ts, square n g → empties n g < fuel → is_Some (analysis_loop fuel g ts).
Proof.
  induction fuel as [|fuel IH]; intros g ts Hsq Hfuel; [lia|].
  cbn [analysis_loop]. destruct (isGridComplete g); [done|].
  pose proof (applyNakedSingles_advance n g Hsq) as Hnaked.
  destruct (applyNakedSingles g) as [g1 [|]]; destruct Hnaked as [Hsq1 Hle1];
    simpl in *.
  { apply IH; [done|lia]. }
  pose proof (applyHiddenSingles_advance n g1 Hsq1) as Hhidden.
  destruct (applyHiddenSingles g1) as [g2 [|]]; destruct Hhidden as [Hsq2 Hle2];
    simpl in *.
  { apply IH; [done|lia]. }
  done.
Qed.

(** For a size with a whole root for which a solution grid exists,
    [generatePuzzle] returns a puzzle, whatever the oracle says. *)
Lemma generatePuzzle_returns options rng :
  sqrt_is_whole (opt_size options) = true →
  (∃ s, solved (opt_size options) s) →
  ∃ p, generatePuzzle options rng = Returned p.
Proof.
  intros Hw [s Hs]. unfold generatePuzzle. set (n := opt_size options) in *.
  rewrite Hw. simpl.
  pose proof (generateBandWisePermutation_perm n rng Hw) as Hrow.
  destruct (generateBandWisePermutation n rng) as [rowPerm rng1].
  pose proof (generateBandWisePermutation_perm n rng1 Hw) as Hcol.
  destruct (generateBandWisePermutation n rng1) as [colPerm rng2].
  simpl in Hrow, Hcol.
  assert (∃ s0 rng3, generateCompleteSolution n rng2 = Returned (s0, rng3) ∧
                     square n s0) as (s0 & rng3 & Hgen & Hsq0).
  { unfold generateCompleteSolution.
    destruct (solvePuzzle_complete (search_fuel n) n s
                (replicate n (replicate n 0%Z)) rng2 Hw Hs) as (g & rng3 & Hsolve).
    - destruct (empty_grid_partial n) as (Hsq & _ & _). split; [done|].
      intros r c Hr Hc. right.
      destruct (square_cell_is_Some n _ r c Hsq Hr Hc) as [v Hv]. rewrite Hv.
      f_equal. unfold cell in Hv.
      destruct (replicate n (replicate n 0%Z) !! r) as [rw|] eqn:Hrw;
        simpl in Hv; [|done].
      apply lookup_replicate_1 in Hrw as [-> _].
      by apply lookup_replicate_1 in Hv as [-> _].
    - unfold search_fuel. pose proof (empties_le n (replicate n (replicate n 0%Z))).
      lia.
    - rewrite Hsolve. exists g, rng3. split; [done|].
      apply (solvePuzzle_sound _ n) in Hsolve as [Hsq _]; [done|done|].
      apply empty_grid_partial. }
  rewrite Hgen.
  destruct (Permutations.applyPermutation_spec n s0 rowPerm colPerm Hsq0 Hrow Hcol)
    as [Hsq1 _].
  destruct (createPuzzleFromSolution_total (applyPermutation s0 rowPerm colPerm)
              (opt_difficulty options) n rng3) as [[g1 rng4] Hcreate].
  rewrite Hcreate.
  apply (createPuzzleFromSolution_blanked n) in Hcreate as [Hsqg1 _]; [|done].
  pose proof (Permutations.invertPermutation_perm n rowPerm Hrow) as Hirow.
  pose proof (Permutations.invertPermutation_perm n colPerm Hcol) as Hicol.
  destruct (Permutations.applyPermutation_spec n g1 _ _ Hsqg1 Hirow Hicol)
    as [Hsqg _].
  unfold analyzeSolvingTechniques.
  match goal with |- context [analysis_loop ?f ?g ?ts] =>
    destruct (analysis_loop_total n f g ts Hsqg) as [techniques ->]
  end.
  - destruct Hsqg as [-> _]. pose proof (empties_le n
      (applyPermutation g1 (invertPermutation rowPerm) (invertPermutation colPerm))).
    lia.
  - eauto.
Qed.

(** A solution grid of every size with a whole root: shift each row of a
    band by the box size, each band by one. *)
Definition pattern_solution (n : nat) : Grid :=
  let b := Nat.sqrt n in
  (λ r, (λ c, Z.of_nat ((b * (r `mod` b) + r / b + c) `mod` n + 1)) <$> seq 0 n)
    <$> seq 0 n.

(** The size guard of [generatePuzzle].  The invalid-size error is raised
    exactly when the root of the requested size is not whole.  For the sizes
    9 and 16 a puzzle is returned, whatever the oracle says.  Size 6, which
    [PuzzleSize] declares as [MINI_6X6], has no whole root: every request
    for a 6×6 puzzle is rejected. *)
Theorem generatePuzzle_invalid_size :
  (∀ options rng,
     generatePuzzle options rng = Thrown (InvalidPuzzleSize (opt_size options))
     ↔ sqrt_is_whole (opt_size options) = false) ∧
  (∀ variant d cs rng,
     (∃ p, generatePuzzle (mkOptions variant d CLASSIC_9X9 cs) rng = Returned p) ∧
     (∃ p, generatePuzzle (mkOptions variant d MEGA_16X16 cs) rng = Returned p)) ∧
  (∀ variant d cs rng,
     generatePuzzle (mkOptions variant d MINI_6X6 cs) rng
     = Thrown (InvalidPuzzleSize 6)).
Proof.
  split; [|split; [|reflexivity]].
  - intros options rng. unfold generatePuzzle.
    destruct (sqrt_is_whole (opt_size options)); simpl; [|done].
    split; [|done].
    destruct (generateBandWisePermutation _ rng) as [rowPerm rng1].
    destruct (generateBandWisePermutation _ rng1) as [colPerm rng2].
    unfold generateCompleteSolution.
    destruct (solvePuzzle _ _ _ rng2) as [[[[|] s] rng3]|]; [|done|done].
    destruct (createPuzzleFromSolution _ _ _ rng3) as [[g rng4]|]; [|done].
    destruct (analyzeSolvingTechniques _ _); done.
  - intros variant d cs rng. split; apply generatePuzzle_returns; try reflexivity.
    + exists (pattern_solution 9). apply solvedb_solved. vm_compute. reflexivity.
    + exists (pattern_solution 16). apply solvedb_solved. vm_compute. reflexivity.
Qed.

End GeneratorFacts.

(** * A sample run of the generator *)

Definition sample_options : PuzzleGenerationOptions :=
  mkOptions CLASSIC MEDIUM CLASSIC_9X9 None.

Definition sample_initialState : Grid :=
  [[0; 0; 0; 0; 6; 0; 0; 0; 2];
   [0; 7; 5; 0; 1; 0; 0; 3; 0];
   [0; 6; 1; 0; 3; 7; 9; 5; 0];
   [0; 0; 0; 3; 0; 9; 8; 0; 0];
   [0; 0; 7; 5; 0; 0; 0; 0; 1];
   [3; 5; 6; 0; 0; 1; 0; 0; 7];
   [0; 0; 4; 0; 0; 3; 2; 0; 0];
   [0; 2; 8; 1; 9; 4; 0; 7; 3];
   [0; 9; 0; 0; 0; 0; 0; 0; 0]]%Z.

Definition sample_solution : Grid :=
  [[8; 3; 9; 4; 6; 5; 7; 1; 2];
   [4; 7; 5; 9; 1; 2; 6; 3; 8];
   [2; 6; 1; 8; 3; 7; 9; 5; 4];
   [1; 4; 2; 3; 7; 9; 8; 6; 5];
   [9; 8; 7; 5; 4; 6; 3; 2; 1];
   [3; 5; 6; 2; 8; 1; 4; 9; 7];
   [7; 1; 4; 6; 5; 3; 2; 8; 9];
   [6; 2; 8; 1; 9; 4; 5; 7; 3];
   [5; 9; 3; 7; 2; 8; 1; 4; 6]]%Z.

Lemma generatePuzzle_givens_match_solution_witness :
  ∃ p, Generator.generatePuzzle sample_options (scrambled 1) = Generator.Returned p ∧
    initialState p = sample_initialState ∧ solution p = sample_solution ∧
    solved 9 (solution p) ∧
    ∀ r c v, cell (initialState p) r c = Some v → v ≠ 0%Z →
      cell (solution p) r c = Some v.
Proof.
  eexists. split; [vm_compute; reflexivity|].
  split; [reflexivity|]. split; [reflexivity|].
  apply (GeneratorFacts.generatePuzzle_givens_match_solution
           sample_options (scrambled 1)).
  vm_compute. reflexivity.
Defined.

(** C4.  A 6×6 puzzle should be generated: [PuzzleSize] declares
    [MINI_6X6], the solver and the calibrator handle that size, and the test
    'should generate puzzles with different sizes' asks the generator for
    it.  The code does not: the guard of [generatePuzzle] wants a size with
    a whole root, and a request for a 6×6 puzzle is answered with the
    invalid-size error. *)
Lemma generatePuzzle_rejects_mini_6x6 :
  Generator.generatePuzzle (mkOptions CLASSIC MEDIUM MINI_6X6 None) (scrambled 1)
  = Generator.Thrown (Generator.InvalidPuzzleSize 6).
Proof. reflexivity. Qed.

(** A second completion of the sample initial state: the returned solution
    with 4 and 8 exchanged in six cells of the first three rows. *)
Definition sample_other_completion : Grid :=
  [[4; 3; 9; 8; 6; 5; 7; 1; 2];
   [8; 7; 5; 9; 1; 2; 6; 3; 4];
   [2; 6; 1; 4; 3; 7; 9; 5; 8];
   [1; 4; 2; 3; 7; 9; 8; 6; 5];
   [9; 8; 7; 5; 4; 6; 3; 2; 1];
   [3; 5; 6; 2; 8; 1; 4; 9; 7];
   [7; 1; 4; 6; 5; 3; 2; 8; 9];
   [6; 2; 8; 1; 9; 4; 5; 7; 3];
   [5; 9; 3; 7; 2; 8; 1; 4; 6]]%Z.

(** C2.  A generated puzzle should have exactly one solution: the step
    that blanks the cells is commented 'removing cells while maintaining
    unique solution'.  The code does not ensure it.  The generator returns
    the sample puzzle for a medium 9×9 request; its initial state has two
    different legal completions, the returned solution and
    [sample_other_completion], and [validateUniqueSolution] answers false
    on it. *)
Lemma generated_puzzle_not_unique :
  ∃ p, Generator.generatePuzzle sample_options (scrambled 1) = Generator.Returned p ∧
    initialState p = sample_initialState ∧
    solution p = sample_solution ∧
    Generator.validateUniqueSolution (initialState p) = Some false ∧
    solved 9 sample_other_completion ∧
    blanked 9 sample_other_completion sample_initialState ∧
    sample_other_completion ≠ sample_solution.
Proof.
  eexists. split; [vm_compute; reflexivity|].
  split; [reflexivity|]. split; [reflexivity|].
  split; [vm_compute; reflexivity|].
  split; [apply solvedb_solved; vm_compute; reflexivity|].
  split; [apply blankedb_blanked; vm_compute; reflexivity|].
  discriminate.
Qed.

Lemma generatePuzzle_initialState_has_completion_witness :
  ∃ p, Generator.generatePuzzle sample_options (scrambled 1) = Generator.Returned p ∧
    ∃ g sols,
      Generator.findAllSolutions (Generator.search_fuel (size p))
        (initialState p) (size p) [] 2 = Some (g, sols) ∧
      1 ≤ length sols ≤ 2 ∧
      Generator.validateUniqueSolution (initialState p) = Some (length sols =? 1).
Proof.
  eexists. split; [vm_compute; reflexivity|].
  apply (GeneratorFacts.generatePuzzle_initialState_has_completion
           sample_options (scrambled 1)).
  vm_compute. reflexivity.
Defined.

Lemma solvability_gate_always_passes_witness :
  sqrt_is_whole 9 = true ∧ solved 9 sample_solution ∧
  blanked 9 sample_solution sample_initialState ∧
  (∀ rng, ∃ rng',
     Generator.hasAnySolution sample_initialState 9 rng = Some (true, rng')) ∧
  (∀ targetClues rng, ∃ rng',
     Generator.createHardPuzzle sample_initialState targetClues 9 rng
     = Some (Generator.easy_removals
               (take Generator.maxAttempts
                     (Generator.getBalancedRemovalOrder 9 rng).1)
               sample_initialState targetClues (9 * 9), rng')).
Proof.
  assert (sqrt_is_whole 9 = true) as Hw by reflexivity.
  assert (solved 9 sample_solution) as Hs
    by (apply solvedb_solved; vm_compute; reflexivity).
  assert (blanked 9 sample_solution sample_initialState) as Hb
    by (apply blankedb_blanked; vm_compute; reflexivity).
  split; [done|]. split; [done|]. split; [done|].
  exact (GeneratorFacts.solvability_gate_always_passes
           9 sample_solution sample_initialState Hw Hs Hb).
Defined.
Lemma applyPermutation_inverse_roundtrip_witness :
  let g := [[1; 2; 3; 4]; [3; 4; 1; 2]; [2; 1; 4; 3]; [4; 3; 2; 1]]%Z in
  let p := (Generator.generateBandWisePermutation 4 (scrambled 1)).1 in
  let q := (Generator.generateBandWisePermutation 4 (scrambled 2)).1 in
  p = [2; 3; 1; 0] ∧ q = [0; 1; 3; 2] ∧
  Generator.applyPermutation g p q
    = [[4; 3; 1; 2]; [2; 1; 3; 4]; [1; 2; 4; 3]; [3; 4; 2; 1]]%Z ∧
  Generator.applyPermutation (Generator.applyPermutation g p q)
    (Generator.invertPermutation p) (Generator.invertPermutation q) = g.
Proof.
  intros g p q. split; [|split; [|split]].
  4: { apply (Permutations.applyPermutation_inverse_roundtrip 4).
       - split; [reflexivity|]. intros r rw Hr.
         destruct r as [|[|[|[|r]]]]; simpl in Hr; try discriminate;
           injection Hr as <-; reflexivity.
       - apply (bool_decide_unpack _). vm_compute. reflexivity.
       - apply (bool_decide_unpack _). vm_compute. reflexivity. }
  all: vm_compute; reflexivity.
Defined.

(** * The solver ([puzzle-solver.js]) *)

(** ** The clock *)

(** The successive values [Date.now()] returns, and how many of them have
    been read. *)
Record Clock := mkClock { readings : nat → Z; ticks : nat }.

(** [Date.now()] *)
Definition now (clock : Clock) : Z * Clock :=
  (readings clock (ticks clock), mkClock (readings clock) (S (ticks clock))).

(** ** Grids held in memory *)

(** The solver works on a grid through the reference it holds: it reads
    cells, reads the array lengths and writes cells in place.  [contents]
    is what the reference currently designates, [store] the in-place write
    [grid[r][c] = v].  The functions below are written against this
    interface, so that they run both on a grid passed by value and on a grid
    that lives in a heap of arrays. *)
Class GridStore (S : Type) := {
  contents : S → Grid;
  store : S → nat → nat → Z → S
}.

Global Instance value_store : GridStore Grid := {|
  contents g := g;
  store := set_cell
|}.

Module Solver.

Inductive Description :=
  | NakedSingleText (value : Z) (row col : nat)
  | HiddenSingleInRowText (num : Z) (row col : nat)
  | HiddenSingleInColumnText (num : Z) (row col : nat)
  | HiddenSingleInBoxText (num : Z) (row col : nat)
  | BacktrackingText.

(** [SolverStep]; the position is a pair of integers because the
    backtracking marker uses [-1, -1].  The description stands for the
    message built from the listed values (rows and columns printed from 1). *)
Record SolverStep := mkStep {
  step_technique : SolvingTechnique;
  step_position : Z * Z;
  step_value : Z;
  step_candidates : option (list Z);
  step_description : Description
}.

Inductive ErrorType :=
  | invalid_value | duplicate_in_row | duplicate_in_column | duplicate_in_box.

(** [ValidationError]; [err_other] is the second position named in the
    message of a duplicate. *)
Record ValidationError := mkError {
  err_type : ErrorType;
  err_position : Position;
  err_value : Z;
  err_other : option Position
}.

Record ValidationResult := mkValidation {
  isValid : bool;
  errors : list ValidationError;
  isComplete : bool;
  conflictingCells : list Position
}.

Definition maxIterations : nat := 1000.

Definition ladder : list SolvingTechnique :=
  [NAKED_SINGLES; HIDDEN_SINGLES; NAKED_PAIRS; HIDDEN_PAIRS; POINTING_PAIRS;
   BOX_LINE_REDUCTION; X_WING; SWORDFISH; XY_WING; COLORING; FORCING_CHAINS].

Section with_store.
Context {S : Type} `{!GridStore S}.

(** [grid[r][c]] *)
Definition read (grid : S) (r c : nat) : option Z := cell (contents grid) r c.

(** [grid[r][c] === v] *)
Definition holds (grid : S) (r c : nat) (v : Z) : bool :=
  bool_decide (read grid r c = Some v).

Definition isGridComplete (grid : S) : bool :=
  forallb (λ row, forallb (λ cell, negb (cell =? 0)%Z) row) (contents grid).

Definition findEmptyCell (grid : S) (size : nat) : option (nat * nat) :=
  first_hit (λ row,
    first_hit (λ col, if holds grid row col 0 then Some (row, col) else None)
              (seq 0 size))
    (seq 0 size).

Definition isValidMove (grid : S) (row col : nat) (num : Z) (size : nat) : bool :=
  forallb (λ c, negb (holds grid row c num)) (seq 0 size)
  && forallb (λ r, negb (holds grid r col num)) (seq 0 size)
  && (let boxSize := Nat.sqrt size in
      if sqrt_is_whole size then
        let boxRow := row / boxSize * boxSize in
        let boxCol := col / boxSize * boxSize in
        forallb (λ r, forallb (λ c, negb (holds grid r c num)) (seq boxCol boxSize))
                (seq boxRow boxSize)
      else true).

Definition getCandidates (grid : S) (row col : nat) : list Z :=
  if holds grid row col 0 then
    let size := length (contents grid) in
    filter (λ num, isValidMove grid row col num size = true) (Z.of_nat <$> seq 1 size)
  else [].

Definition applyNakedSingles (grid : S) (size : nat) (steps : list SolverStep)
    : S * list SolverStep * bool :=
  for_upto size (λ st row,
    for_upto size (λ '(grid, steps, progress) col,
      if holds grid row col 0 then
        match getCandidates grid row col with
        | [value] =>
          (store grid row col value,
           steps ++ [mkStep NAKED_SINGLES (Z.of_nat row, Z.of_nat col) value
                            (Some [value]) (NakedSingleText value row col)],
           true)
        | _ => (grid, steps, progress)
        end
      else (grid, steps, progress)) st) (grid, steps, false).

(** The shape shared by the three hidden-single scans: for each number,
    collect the empty cells of the unit that accept it; when there is exactly
    one, fill it and record the step. *)
Definition fill_hidden_singles (describe : Z → nat → nat → Description)
    (unit : list (nat * nat)) (size : nat) (grid : S) (steps : list SolverStep)
    : S * list SolverStep * bool :=
  foldl (λ '(grid, steps, progress) num,
           let possible :=
             filter (λ '(r, c), holds grid r c 0 && isValidMove grid r c num size = true)
                    unit in
           match possible with
           | [(r, c)] =>
             (store grid r c num,
              steps ++ [mkStep HIDDEN_SINGLES (Z.of_nat r, Z.of_nat c) num None
                               (describe num r c)],
              true)
           | _ => (grid, steps, progress)
           end)
        (grid, steps, false) (Z.of_nat <$> seq 1 size).

Definition findHiddenSinglesInRow (grid : S) (row size : nat) (steps : list SolverStep) :=
  fill_hidden_singles HiddenSingleInRowText ((λ col, (row, col)) <$> seq 0 size)
                      size grid steps.

Definition findHiddenSinglesInColumn (grid : S) (col size : nat) (steps : list SolverStep) :=
  fill_hidden_singles HiddenSingleInColumnText ((λ row, (row, col)) <$> seq 0 size)
                      size grid steps.

Definition findHiddenSinglesInBox (grid : S) (startRow startCol boxSize : nat)
    (steps : list SolverStep) :=
  let size := length (contents grid) in
  fill_hidden_singles HiddenSingleInBoxText
    (r ← seq startRow boxSize; c ← seq startCol boxSize; [(r, c)]) size grid steps.

Definition applyHiddenSingles (grid : S) (size : nat) (steps : list SolverStep)
    : S * list SolverStep * bool :=
  let st :=
    for_upto size (λ '(grid, steps, progress) row,
      let '(grid, steps, p) := findHiddenSinglesInRow grid row size steps in
      (grid, steps, p || progress)) (grid, steps, false) in
  let st :=
    for_upto size (λ '(grid, steps, progress) col,
      let '(grid, steps, p) := findHiddenSinglesInColumn grid col size steps in
      (grid, steps, p || progress)) st in
  let boxSize := Nat.sqrt size in
  if sqrt_is_whole size then
    foldl (λ st boxRow,
      foldl (λ '(grid, steps, progress) boxCol,
        let '(grid, steps, p) := findHiddenSinglesInBox grid boxRow boxCol boxSize steps in
        (grid, steps, p || progress)) st (stride size boxSize)) st (stride size boxSize)
  else st.

Definition applyNakedPairs (grid : S) (size : nat) (steps : list SolverStep)
    : S * list SolverStep * bool := (grid, steps, false).

Definition applyHiddenPairs (grid : S) (size : nat) (steps : list SolverStep)
    : S * list SolverStep * bool := (grid, steps, false).

(** [applyTechnique]: the grid after the attempt, whether it applied, and
    the steps it recorded. *)
Definition applyTechnique (grid : S) (technique : SolvingTechnique) (size : nat)
    : S * bool * list SolverStep :=
  let '(grid, steps, applied) :=
    match technique with
    | NAKED_SINGLES => applyNakedSingles grid size []
    | HIDDEN_SINGLES => applyHiddenSingles grid size []
    | NAKED_PAIRS => applyNakedPairs grid size []
    | HIDDEN_PAIRS => applyHiddenPairs grid size []
    | _ => (grid, [], false)
    end in
  (grid, applied, steps).

(** The [for (let num = 1; num <= size; num++)] loop of
    [solveWithBacktracking]. *)
Fixpoint try_values (rec : S → option (S * bool)) (row col size : nat)
    (nums : list Z) (grid : S) : option (S * bool) :=
  match nums with
  | [] => Some (grid, false)
  | num :: nums =>
    if isValidMove grid row col num size then
      match rec (store grid row col num) with
      | None => None
      | Some (grid, true) => Some (grid, true)
      | Some (grid, false) => try_values rec row col size nums (store grid row col 0)
      end
    else try_values rec row col size nums grid
  end.

Fixpoint solveWithBacktracking (fuel : nat) (grid : S) (size depth : nat)
    : option (S * bool) :=
  match fuel with
  | 0 => None
  | Datatypes.S fuel =>
    if 81 <? depth then Some (grid, false)
    else match findEmptyCell grid size with
    | None => Some (grid, true)
    | Some (row, col) =>
      try_values (λ g, solveWithBacktracking fuel g size (depth + 1))
                 row col size (Z.of_nat <$> seq 1 size) grid
    end
  end.

(** The recursion stops below depth 82, so this much fuel is never used up. *)
Definition depth_fuel : nat := 83.

(** [usedTechniques.add(t)] *)
Definition add_technique (t : SolvingTechnique) (used : list SolvingTechnique)
    : list SolvingTechnique :=
  if bool_decide (t ∈ used) then used else used ++ [t].

(** The [for (const technique of this.techniques)] loop of [solvePuzzle]:
    the first technique that applies. *)
Fixpoint first_applicable (techniques : list SolvingTechnique) (grid : S) (size : nat)
    : S * option (SolvingTechnique * list SolverStep) :=
  match techniques with
  | [] => (grid, None)
  | technique :: techniques =>
    let '(grid, applied, steps) := applyTechnique grid technique size in
    if applied then (grid, Some (technique, steps))
    else first_applicable techniques grid size
  end.

(** The [while (progress && !complete && iterations < maxIterations)] loop;
    [budget] is [maxIterations - iterations]. *)
Fixpoint logical_loop (budget : nat) (grid : S) (size : nat)
    (steps : list SolverStep) (used : list SolvingTechnique)
    : S * list SolverStep * list SolvingTechnique :=
  match budget with
  | 0 => (grid, steps, used)
  | Datatypes.S budget =>
    if isGridComplete grid then (grid, steps, used)
    else match first_applicable ladder grid size with
    | (grid, Some (technique, new_steps)) =>
      logical_loop budget grid size (steps ++ new_steps) (add_technique technique used)
    | (grid, None) => (grid, steps, used)
    end
  end.

Record SolverOutcome := mkOutcome {
  solved_flag : bool;
  steps_taken : list SolverStep;
  techniques_used : list SolvingTechnique;
  timeElapsed : Z
}.

(** The body of [solvePuzzle] once the working copy exists: the outcome,
    the working grid as the solver leaves it, and the clock.  The [solution]
    field of the result is the working grid when [solved_flag] is set. *)
Definition solve_working_copy (workingGrid : S) (size : nat) (clock : Clock)
    : option (S * SolverOutcome * Clock) :=
  let '(startTime, clock) := now clock in
  let '(workingGrid, steps, used) := logical_loop maxIterations workingGrid size [] [] in
  let fallback :=
    if isGridComplete workingGrid then Some (workingGrid, steps, used, clock)
    else
      let '(t, clock) := now clock in
      let timeRemaining := (10000 - (t - startTime))%Z in
      if (1000 <? timeRemaining)%Z then
        match solveWithBacktracking depth_fuel workingGrid size 0 with
        | None => None
        | Some (workingGrid, true) =>
          Some (workingGrid,
                steps ++ [mkStep FORCING_CHAINS (-1, -1)%Z 0 None BacktrackingText],
                add_technique FORCING_CHAINS used, clock)
        | Some (workingGrid, false) => Some (workingGrid, steps, used, clock)
        end
      else Some (workingGrid, steps, used, clock) in
  match fallback with
  | None => None
  | Some (workingGrid, steps, used, clock) =>
    let '(t, clock) := now clock in
    let timeElapsed := Z.max 1 (t - startTime) in
    let solved := isGridComplete workingGrid in
    Some (workingGrid, mkOutcome solved steps used timeElapsed, clock)
  end.

Definition findConflicts (grid : S) (row col : nat) (value : Z) (size : nat)
    : list ValidationError :=
  if ((value <? 1) || (Z.of_nat size <? value))%Z then
    [mkError invalid_value (mkPosition row col) value None]
  else
    let in_row :=
      c ← seq 0 size;
      if negb (c =? col) && holds grid row c value
      then [mkError duplicate_in_row (mkPosition row col) value (Some (mkPosition row c))]
      else [] in
    let in_column :=
      r ← seq 0 size;
      if negb (r =? row) && holds grid r col value
      then [mkError duplicate_in_column (mkPosition row col) value (Some (mkPosition r col))]
      else [] in
    let boxSize := Nat.sqrt size in
    let in_box :=
      if sqrt_is_whole size then
        let boxRow := row / boxSize * boxSize in
        let boxCol := col / boxSize * boxSize in
        r ← seq boxRow boxSize;
        c ← seq boxCol boxSize;
        if (negb (r =? row) || negb (c =? col)) && holds grid r c value
        then [mkError duplicate_in_box (mkPosition row col) value (Some (mkPosition r c))]
        else []
      else [] in
    in_row ++ in_column ++ in_box.

(** [validatePuzzle] (the interface's [validateGrid]).  A filled cell is one
    whose value is not 0; every position the loop visits lies inside a
    square grid. *)
Definition validatePuzzle (grid : S) : ValidationResult :=
  let size := length (contents grid) in
  let '(errors, conflictingCells) :=
    for_upto size (λ st row,
      for_upto size (λ '(errors, conflictingCells) col,
        match read grid row col with
        | Some value =>
          if negb (value =? 0)%Z then
            let conflicts := findConflicts grid row col value size in
            (errors ++ conflicts,
             if 0 <? length conflicts
             then conflictingCells ++ [mkPosition row col]
             else conflictingCells)
          else (errors, conflictingCells)
        | None => (errors, conflictingCells)
        end) st) ([], []) in
  let isComplete := isGridComplete grid in
  let isValid := length errors =? 0 in
  mkValidation isValid errors isComplete conflictingCells.

End with_store.

(** The [for] loop of [findAllSolutionsWithTimeout]. *)
Fixpoint enumerate_values
    (rec : Grid → list Grid → Clock → option (Grid * list Grid * Clock))
    (row col size maxSolutions : nat) (startTime timeout : Z)
    (nums : list Z) (grid : Grid) (solutions : list Grid) (clock : Clock)
    : option (Grid * list Grid * Clock) :=
  match nums with
  | [] => Some (grid, solutions, clock)
  | num :: nums =>
    if isValidMove grid row col num size then
      match rec (store grid row col num) solutions clock with
      | None => None
      | Some (grid, solutions, clock) =>
        let grid := store grid row col 0 in
        if maxSolutions <=? length solutions then Some (grid, solutions, clock)
        else
          let '(t, clock) := now clock in
          if (timeout <? t - startTime)%Z then Some (grid, solutions, clock)
          else enumerate_values rec row col size maxSolutions startTime timeout
                                nums grid solutions clock
      end
    else enumerate_values rec row col size maxSolutions startTime timeout
                          nums grid solutions clock
  end.

(** [findAllSolutionsWithTimeout], on the private working copy of
    [hasUniqueSolution]. *)
Fixpoint findAllSolutionsWithTimeout (fuel : nat) (grid : Grid) (size : nat)
    (solutions : list Grid) (maxSolutions : nat) (startTime timeout : Z)
    (depth : nat) (clock : Clock) : option (Grid * list Grid * Clock) :=
  match fuel with
  | 0 => None
  | Datatypes.S fuel =>
    if (maxSolutions <=? length solutions) || (81 <? depth)
    then Some (grid, solutions, clock)
    else
      let '(t, clock) := now clock in
      if (timeout <? t - startTime)%Z then Some (grid, solutions, clock)
      else match findEmptyCell grid size with
      | None => Some (grid, solutions ++ [grid], clock)
      | Some (row, col) =>
        enumerate_values
          (λ g s c, findAllSolutionsWithTimeout fuel g size s maxSolutions
                      startTime timeout (depth + 1) c)
          row col size maxSolutions startTime timeout
          (Z.of_nat <$> seq 1 size) grid solutions clock
      end
  end.

(** [hasUniqueSolution]; [None] when the fuel runs out. *)
Definition hasUniqueSolution (grid : Grid) (clock : Clock) : option (bool * Clock) :=
  let solutions := [] in
  let workingGrid := grid in
  let '(startTime, clock) := now clock in
  let timeout := 5000%Z in
  match findAllSolutionsWithTimeout depth_fuel workingGrid (length grid) solutions 2
          startTime timeout 0 clock with
  | None => None
  | Some (_, solutions, clock) => Some (length solutions =? 1, clock)
  end.

End Solver.

(** * The solver on a grid passed by value *)

Module SolverFacts.
Import Solver.

Lemma solver_findEmptyCell_Some (g : Grid) size r c :
  findEmptyCell g size = Some (r, c) →
  r < size ∧ c < size ∧ cell g r c = Some 0%Z.
Proof. apply GeneratorFacts.findEmptyCell_Some. Qed.

Lemma solver_findEmptyCell_None (g : Grid) size :
  findEmptyCell g size = None → empties size g = 0.
Proof. apply GeneratorFacts.findEmptyCell_None. Qed.

(** ** The depth limit of the enumeration *)

Section enumerate_values.
Context (rec : Grid → list Grid → Clock → option (Grid * list Grid * Clock)).
Context (row col size maxSolutions : nat) (startTime timeout : Z) (g : Grid).
Context (Hzero : cell g row col = Some 0%Z).

(** If no recursive call records anything, neither does the loop, and the
    grid is back to what it was. *)
Lemma enumerate_values_nothing nums :
  (∀ num sols clock, num ∈ nums →
     ∃ clock', rec (set_cell g row col num) sols clock
               = Some (set_cell g row col num, sols, clock')) →
  ∀ sols clock, ∃ clock',
    enumerate_values rec row col size maxSolutions startTime timeout nums g sols clock
    = Some (g, sols, clock').
Proof using Hzero.
  induction nums as [|num nums IH]; intros Hrec sols clock; simpl.
  - eauto.
  - assert (∀ sols clock, ∃ clock',
      enumerate_values rec row col size maxSolutions startTime timeout nums g sols clock
      = Some (g, sols, clock')) as IH'.
    { apply IH. intros n s c Hn. apply Hrec. by right. }
    destruct (isValidMove g row col num size); [|apply IH'].
    destruct (Hrec num sols clock ltac:(left)) as [clock1 ->].
    rewrite set_cell_undo by done.
    destruct (maxSolutions <=? length sols); [eauto|].
    destruct (timeout <? _)%Z; [eauto|]. apply IH'.
Qed.
End enumerate_values.

(** A call whose depth plus the number of empty cells exceeds 81 returns
    without recording a solution: before the grid is full the recursion has
    passed depth 81. *)
Lemma findAllSolutionsWithTimeout_depth_limit fuel :
  ∀ g size sols maxSolutions startTime timeout depth clock,
  83 ≤ fuel + depth → 1 ≤ fuel → 81 < empties size g + depth →
  ∃ clock', findAllSolutionsWithTimeout fuel g size sols maxSolutions
              startTime timeout depth clock = Some (g, sols, clock').
Proof.
  induction fuel as [|fuel IH];
    intros g size sols maxSolutions startTime timeout depth clock Hfuel Hpos Hdeep.
  - lia.
  - simpl. destruct (maxSolutions <=? length sols); simpl; [eauto|].
    destruct (81 <? depth) eqn:Hdepth; [eauto|]. apply Nat.ltb_ge in Hdepth.
    destruct (timeout <? _)%Z; [eauto|].
    destruct (findEmptyCell g size) as [[row col]|] eqn:Hfind.
    + apply solver_findEmptyCell_Some in Hfind as (Hr & Hc & Hzero).
      apply enumerate_values_nothing; [done|].
      intros num sols0 clock0 Hin. apply IH; [lia|lia|].
      apply list_elem_of_fmap in Hin as (k & -> & Hk). apply elem_of_seq in Hk.
      rewrite (empties_fill size g row col (Z.of_nat k)) in Hdeep by (done || lia).
      lia.
    + apply solver_findEmptyCell_None in Hfind. lia.
Qed.

(** C7.  On a grid with more than 81 empty cells [hasUniqueSolution] returns
    false, whatever the clock says and however many completions the grid
    has: the enumeration gives up at depth 82, before any completion of such
    a grid can be recorded. *)
Theorem hasUniqueSolution_false_beyond_depth_limit (g : Grid) clock :
  81 < empties (length g) g →
  ∃ clock', hasUniqueSolution g clock = Some (false, clock').
Proof.
  intros Hdeep. unfold hasUniqueSolution, now. cbv beta iota zeta.
  destruct (findAllSolutionsWithTimeout_depth_limit depth_fuel g (length g) [] 2
              (readings clock (ticks clock)) 5000 0
              (mkClock (readings clock) (S (ticks clock)))) as [clock' ->].
  - unfold depth_fuel. lia.
  - unfold depth_fuel. lia.
  - lia.
  - eauto.
Qed.

(** ** The enumeration returns *)

Lemma enumerate_values_total
    (rec : Grid → list Grid → Clock → option (Grid * list Grid * Clock))
    row col size maxSolutions startTime timeout nums :
  (∀ g sols clock, is_Some (rec g sols clock)) →
  ∀ g sols clock,
  is_Some (enumerate_values rec row col size maxSolutions startTime timeout
                            nums g sols clock).
Proof.
  intros Hrec. induction nums as [|num nums IH]; intros g sols clock; simpl; [done|].
  destruct (isValidMove g row col num size); [|apply IH].
  destruct (Hrec (set_cell g row col num) sols clock) as [[[g1 sols1] clock1] ->].
  destruct (maxSolutions <=? length sols1); [done|].
  destruct (timeout <? _)%Z; [done|]. apply IH.
Qed.

(** The depth limit bounds the recursion of the enumeration as well. *)
Lemma findAllSolutionsWithTimeout_total fuel :
  ∀ g size sols maxSolutions startTime timeout depth clock,
  83 ≤ fuel + depth → 1 ≤ fuel →
  is_Some (findAllSolutionsWithTimeout fuel g size sols maxSolutions
             startTime timeout depth clock).
Proof.
  induction fuel as [|fuel IH];
    intros g size sols maxSolutions startTime timeout depth clock Hfuel Hpos; [lia|].
  simpl. destruct (maxSolutions <=? length sols); simpl; [done|].
  destruct (81 <? depth) eqn:Hdepth; [done|]. apply Nat.ltb_ge in Hdepth.
  destruct (timeout <? _)%Z; [done|].
  destruct (findEmptyCell g size) as [[row col]|]; [|done].
  apply enumerate_values_total. intros g0 sols0 clock0. apply IH; lia.
Qed.

Lemma hasUniqueSolution_returns (g : Grid) clock :
  is_Some (hasUniqueSolution g clock).
Proof.
  unfold hasUniqueSolution, now. cbv beta iota zeta.
  destruct (findAllSolutionsWithTimeout_total depth_fuel g (length g) [] 2
              (readings clock (ticks clock)) 5000 0
              (mkClock (readings clock) (S (ticks clock))))
    as [[[g' sols] clock'] ->]; [unfold depth_fuel; lia|unfold depth_fuel; lia|].
  done.
Qed.

(** ** The time budget of the enumeration *)

(** Every reading from now on lies beyond the budget. *)
Definition expired (clock : Clock) (startTime timeout : Z) : Prop :=
  ∀ k, ticks clock ≤ k → (timeout < readings clock k - startTime)%Z.

(** Once the budget is exceeded the enumeration returns at once and records
    nothing further, whatever it has recorded so far; so a search that is
    out of budget at its first check returns false.  The answer is decided by
    the number of completions recorded when the search stops, not by the
    reason it stopped. *)
Theorem hasUniqueSolution_out_of_budget :
  (∀ fuel g size sols maxSolutions startTime timeout depth clock,
     expired clock startTime timeout →
     ∃ clock', findAllSolutionsWithTimeout (S fuel) g size sols maxSolutions
                 startTime timeout depth clock = Some (g, sols, clock')) ∧
  (∀ (g : Grid) clock,
     expired (now clock).2 (now clock).1 5000 →
     ∃ clock', hasUniqueSolution g clock = Some (false, clock')).
Proof.
  assert (∀ fuel g size sols maxSolutions startTime timeout depth clock,
     expired clock startTime timeout →
     ∃ clock', findAllSolutionsWithTimeout (S fuel) g size sols maxSolutions
                 startTime timeout depth clock = Some (g, sols, clock')) as Hstop.
  { intros fuel g size sols maxSolutions startTime timeout depth clock Hexp. simpl.
    destruct ((maxSolutions <=? length sols) || (81 <? depth)); [eauto|].
    specialize (Hexp (ticks clock) ltac:(lia)).
    apply Z.ltb_lt in Hexp. rewrite Hexp. eauto. }
  split; [exact Hstop|].
  intros g clock Hexp. unfold hasUniqueSolution.
  destruct (now clock) as [startTime clock1]. simpl in Hexp.
  unfold depth_fuel.
  destruct (Hstop 82 g (length g) [] 2 startTime 5000%Z 0 clock1 Hexp) as [clock' ->].
  eauto.
Qed.

(** ** Validation of a solution *)

Lemma bind_nil_pointwise {A B} (f : A → list B) (l : list A) :
  (∀ x, x ∈ l → f x = []) → l ≫= f = [].
Proof.
  induction l as [|x l IH]; intros Hf; [done|].
  rewrite bind_cons, (Hf x) by left. simpl. apply IH.
  intros y Hy. apply Hf. by right.
Qed.

Lemma findConflicts_solved n (g : Grid) row col value :
  solved n g → row < n → col < n → cell g row col = Some value →
  findConflicts g row col value n = [].
Proof.
  intros (Hsq & Hfilled & Hfree) Hrow Hcol Hvalue.
  destruct (Hfilled row col Hrow Hcol) as (v & Hv & Hrange).
  assert (v = value) as -> by congruence.
  assert (∀ r c, r < n → c < n → (row, col) ≠ (r, c) →
            same_unit n row col r c → holds g r c value = false) as Hclear.
  { intros r c Hr Hc Hne Hunit. unfold holds, read. simpl.
    apply bool_decide_eq_false_2. intros Hcell.
    pose proof (Hfree row col r c value Hrow Hcol Hr Hc Hne Hunit Hvalue Hcell). lia. }
  unfold findConflicts.
  replace (value <? 1)%Z with false by (symmetry; apply Z.ltb_ge; lia).
  replace (Z.of_nat n <? value)%Z with false by (symmetry; apply Z.ltb_ge; lia).
  simpl.
  rewrite (bind_nil_pointwise _ (seq 0 n)); [simpl|].
  2: { intros c Hc. apply elem_of_seq in Hc.
       destruct (c =? col) eqn:Heq; [done|]. apply Nat.eqb_neq in Heq. simpl.
       rewrite Hclear; [done|done|lia|congruence|]. by left. }
  rewrite (bind_nil_pointwise _ (seq 0 n)); [simpl|].
  2: { intros r Hr. apply elem_of_seq in Hr.
       destruct (r =? row) eqn:Heq; [done|]. apply Nat.eqb_neq in Heq. simpl.
       rewrite Hclear; [done|lia|done|congruence|]. right. by left. }
  destruct (sqrt_is_whole n) eqn:Hw; [|done].
  pose proof (GeneratorFacts.root_pos n row Hw Hrow) as Hb.
  apply bind_nil_pointwise. intros r Hr. apply elem_of_seq in Hr.
  apply bind_nil_pointwise. intros c Hc. apply elem_of_seq in Hc.
  assert (r / Nat.sqrt n = row / Nat.sqrt n) as Hbr
    by (apply GeneratorFacts.box_block; [done|lia]).
  assert (c / Nat.sqrt n = col / Nat.sqrt n) as Hbc
    by (apply GeneratorFacts.box_block; [done|lia]).
  destruct (negb (r =? row) || negb (c =? col)) eqn:Hdiff; [simpl|done].
  rewrite Hclear; [done| | | |].
  - by apply (GeneratorFacts.box_inside n row).
  - by apply (GeneratorFacts.box_inside n col).
  - intros [= -> ->]. rewrite !Nat.eqb_refl in Hdiff. done.
  - right. right. done.
Qed.

Lemma isGridComplete_solved n (g : Grid) : solved n g → isGridComplete g = true.
Proof.
  intros (Hsq & Hfilled & _). unfold isGridComplete. simpl.
  apply forallb_forall. intros rw Hrw.
  apply list_elem_of_In, list_elem_of_lookup_1 in Hrw as [r Hr].
  apply forallb_forall. intros v Hv.
  apply list_elem_of_In, list_elem_of_lookup_1 in Hv as [c Hc].
  assert (cell g r c = Some v) as Hcell by (unfold cell; rewrite Hr; done).
  destruct (cell_is_Some_lt n g r c Hsq ltac:(rewrite Hcell; eauto)) as [Hrn Hcn].
  destruct (Hfilled r c Hrn Hcn) as (v' & Hv' & Hrange).
  assert (v' = v) as -> by congruence.
  apply negb_true_iff, Z.eqb_neq. lia.
Qed.

(** C6.  On a complete grid that is legal under the row, column and box
    constraints, [validatePuzzle] reports a valid and complete grid, with no
    error and no conflicting cell. *)
Theorem validatePuzzle_solved n (g : Grid) :
  solved n g →
  validatePuzzle g
  = {| isValid := true; errors := []; isComplete := true; conflictingCells := [] |}.
Proof.
  intros Hs. pose proof Hs as ([Hlen Hrows] & Hfilled & _).
  unfold validatePuzzle. simpl. rewrite Hlen.
  match goal with |- context [for_upto n ?body ([], [])] =>
    assert (for_upto n body ([], []) = ([], [])) as ->
  end.
  { apply (for_upto_inv (λ _ st, st = ([], []))); [done|].
    intros row st Hrow ->.
    apply (for_upto_inv (λ _ st, st = ([], []))); [done|].
    intros col st Hcol ->. unfold read. simpl.
    destruct (Hfilled row col Hrow Hcol) as (v & Hv & Hrange). rewrite Hv.
    replace (v =? 0)%Z with false by (symmetry; apply Z.eqb_neq; lia). simpl.
    by rewrite (findConflicts_solved n g row col v Hs Hrow Hcol Hv). }
  by rewrite (isGridComplete_solved n g Hs).
Qed.

End SolverFacts.

(** * What the solver writes *)

(** The solver changes the grid it is given only through [store].  Any
    relation between memory states that is reflexive, transitive and holds
    across a single [store] therefore holds across every solver routine. *)
Module SolverFrame.
Import Solver.

Section frame.
Context {S : Type} `{!GridStore S}.
Context (R : S → S → Prop) `{!PreOrder R}.
Context (Hstore : ∀ s r c v, R s (store s r c v)).











Lemma try_values_total (rec : S → option (S * bool)) row col size nums :
  (∀ g, is_Some (rec g)) → ∀ grid, is_Some (try_values rec row col size nums grid).
Proof.
  intros Hrec. induction nums as [|num nums IH]; intros grid; simpl; [done|].
  destruct (isValidMove grid row col num size); [|apply IH].
  destruct (Hrec (store grid row col num)) as [[g1 [|]] ->]; [done|apply IH].
Qed.

(** The depth limit bounds the recursion: the fuel never runs out. *)
Lemma solveWithBacktracking_total fuel :
  ∀ grid size depth, 83 ≤ fuel + depth → 1 ≤ fuel →
  is_Some (solveWithBacktracking fuel grid size depth).
Proof.
  induction fuel as [|fuel IH]; intros grid size depth Hfuel Hpos; [lia|]. simpl.
  destruct (81 <? depth) eqn:Hdepth; [done|]. apply Nat.ltb_ge in Hdepth.
  destruct (findEmptyCell grid size) as [[row col]|]; [|done].
  apply try_values_total. intros g. apply IH; lia.
Qed.


End frame.
End SolverFrame.

(** * The solver on a puzzle held by its caller *)

(** The caller's puzzle is an object whose grids are arrays of row arrays,
    all of them living in a heap the caller shares with the solver. *)
Module SolverHeap.
Import Solver.

Abbreviation loc := nat.

Record PuzzleFields := mkFields {
  f_variant : PuzzleVariant;
  f_difficulty : Difficulty;
  f_size : nat;
  f_initialState : loc;
  f_solution : loc;
  f_constraints : list Constraint;
  f_metadata : PuzzleMetadata;
  f_difficultyScore : Q
}.

Inductive object :=
  | RowArray (cells : list Z)
  | GridArray (rows : list loc)
  | PuzzleObject (fields : PuzzleFields).

Abbreviation Heap := (gmap loc object).

(** The grid a reference designates: the rows its row references hold. *)
Definition heap_contents (h : Heap) (grid : loc) : Grid :=
  match h !! grid with
  | Some (GridArray rows) =>
    (λ l, match h !! l with Some (RowArray cells) => cells | _ => [] end) <$> rows
  | _ => []
  end.

(** [grid[r][c] = v]: an update of the row array that row [r] refers to. *)
Definition heap_store (s : Heap * loc) (r c : nat) (v : Z) : Heap * loc :=
  match s.1 !! s.2 with
  | Some (GridArray rows) =>
    match rows !! r with
    | Some l =>
      match s.1 !! l with
      | Some (RowArray cells) => (<[l := RowArray (<[c:=v]> cells)]> s.1, s.2)
      | _ => s
      end
    | None => s
    end
  | _ => s
  end.

Global Instance heap_grid_store : GridStore (Heap * loc) := {|
  contents s := heap_contents s.1 s.2;
  store := heap_store
|}.

(** A new object, at a location the heap does not use yet. *)
Definition alloc (h : Heap) (o : object) : Heap * loc :=
  let l := fresh (dom h) in (<[l := o]> h, l).

(** [grid.map(row => [...row])]: a fresh row array for each row, and a fresh
    array holding them. *)
Definition copy_grid (h : Heap) (grid : loc) : Heap * loc :=
  let '(h, rows) :=
    foldl (λ '(h, rows) cells,
             let '(h, l) := alloc h (RowArray cells) in (h, rows ++ [l]))
          (h, []) (heap_contents h grid) in
  alloc h (GridArray rows).

Record SolverResult := mkResult {
  solved : bool;
  solution : option loc;
  steps : list SolverStep;
  techniques : list SolvingTechnique;
  timeElapsed : Z
}.

(** [solvePuzzle(puzzle)].  [None] stands for a call on something that is
    not a puzzle object. *)
Definition solvePuzzle (h : Heap) (puzzle : loc) (clock : Clock)
    : option (Heap * SolverResult * Clock) :=
  match h !! puzzle with
  | Some (PuzzleObject fields) =>
    let '(h, workingGrid) := copy_grid h (f_initialState fields) in
    match solve_working_copy (h, workingGrid) (f_size fields) clock with
    | None => None
    | Some ((h, workingGrid), outcome, clock) =>
      Some (h,
            {| solved := solved_flag outcome;
               solution := if solved_flag outcome then Some workingGrid else None;
               steps := steps_taken outcome;
               techniques := techniques_used outcome;
               timeElapsed := Solver.timeElapsed outcome |},
            clock)
    end
  | _ => None
  end.

(** ** The frame of [solvePuzzle] *)

Section frame.
Context (old : gset loc).

(** The rows of the grid are not among the old locations. *)
Definition owns_rows (s : Heap * loc) : Prop :=
  ∀ rows l, s.1 !! s.2 = Some (GridArray rows) → l ∈ rows → l ∉ old.

(** The old locations hold what they held. *)
Definition preserves (s s' : Heap * loc) : Prop :=
  owns_rows s →
  owns_rows s' ∧ s'.2 = s.2 ∧ ∀ l, l ∈ old → s'.1 !! l = s.1 !! l.

Global Instance preserves_preorder : PreOrder preserves.
Proof.
  split.
  - intros s Hs. done.
  - intros s1 s2 s3 H12 H23 Hs1.
    destruct (H12 Hs1) as (Hs2 & Hg2 & Hl2).
    destruct (H23 Hs2) as (Hs3 & Hg3 & Hl3).
    split; [done|]. split; [congruence|].
    intros l Hl. rewrite Hl3, Hl2; done.
Qed.


End frame.

Lemma alloc_fresh h o : (alloc h o).2 ∉ dom h.
Proof. unfold alloc. simpl. apply is_fresh. Qed.

Lemma alloc_lookup h o l : l ∈ dom h → (alloc h o).1 !! l = h !! l.
Proof.
  intros Hl. unfold alloc. simpl. apply lookup_insert_ne.
  intros <-. by apply (is_fresh (dom h)).
Qed.




End SolverHeap.

(** * The difficulty calibrator ([difficulty-calibrator.js]) *)

(** Scores and confidences are JavaScript numbers; they are modelled as real
    numbers, with [Math.log] as [ln].  Technique frequencies are exact
    fractions. *)
Module Calibrator.

Global Instance Rle_decision (x y : R) : Decision (x <= y)%R := Rle_dec x y.
Global Instance Rlt_decision (x y : R) : Decision (x < y)%R := Rlt_dec x y.

Record TechniqueAnalysis := mkAnalysis {
  technique : SolvingTechnique;
  frequency : Q;
  complexity : R;
  timeImpact : R
}.

Record DifficultyCalibrationResult := mkCalibration {
  calculatedDifficulty : Difficulty;
  difficultyScore : R;
  requiredTechniques : list SolvingTechnique;
  estimatedSolveTime : Z;
  confidence : R
}.

(** [techniqueWeights]: complexity and time impact. *)
Definition techniqueWeights (t : SolvingTechnique) : R * R :=
  match t with
  | NAKED_SINGLES => (1 / 10, 1)
  | HIDDEN_SINGLES => (2 / 10, 2)
  | NAKED_PAIRS => (1, 5)
  | HIDDEN_PAIRS => (12 / 10, 6)
  | POINTING_PAIRS => (15 / 10, 8)
  | BOX_LINE_REDUCTION => (18 / 10, 10)
  | X_WING => (25 / 10, 15)
  | SWORDFISH => (35 / 10, 25)
  | XY_WING => (4, 30)
  | COLORING => (45 / 10, 35)
  | FORCING_CHAINS => (5, 45)
  end%R.

(** [difficultyBoundaries], in the order [Object.entries] lists them. *)
Definition difficultyBoundaries : list (Difficulty * (R * R)) :=
  [(BEGINNER, (0, 2)); (EASY, (15 / 10, 35 / 10)); (MEDIUM, (3, 55 / 10));
   (HARD, (5, 8)); (EXPERT, (75 / 10, 10))]%R.

Definition baseSolveTimes (size : nat) : option R :=
  if size =? MINI_6X6 then Some 180%R
  else if size =? CLASSIC_9X9 then Some 600%R
  else if size =? MEGA_16X16 then Some 1800%R
  else None.

Definition isGridComplete (grid : Grid) : bool :=
  forallb (λ row, forallb (λ cell, negb (cell =? 0)%Z) row) grid.

Definition isValidMove (grid : Grid) (row col : nat) (num : Z) (size : nat) : bool :=
  if (size <=? row) || (size <=? col) then false
  else if negb (bool_decide (is_Some (grid !! row))) then false
  else
    forallb (λ c, negb (cell_is grid row c num)) (seq 0 size)
    && forallb (λ r, negb (cell_is grid r col num)) (seq 0 size)
    && (let boxSize := Nat.sqrt size in
        if sqrt_is_whole size then
          let boxRow := row / boxSize * boxSize in
          let boxCol := col / boxSize * boxSize in
          forallb (λ r, forallb (λ c, negb (cell_is grid r c num)) (seq boxCol boxSize))
                  (seq boxRow boxSize)
        else true).

Definition getCandidates (grid : Grid) (row col size : nat) : list Z :=
  filter (λ num, isValidMove grid row col num size = true) (Z.of_nat <$> seq 1 size).

Definition applyNakedSingles (grid : Grid) (gridSize : nat) : Grid * bool :=
  for_upto gridSize (λ st row,
    for_upto gridSize (λ '(grid, progress) col,
      if cell_is grid row col 0 then
        match getCandidates grid row col gridSize with
        | [value] => (set_cell grid row col value, true)
        | _ => (grid, progress)
        end
      else (grid, progress)) st) (grid, false).

Definition fill_hidden_singles (unit : list (nat * nat)) (size : nat) (grid : Grid)
    : Grid * bool :=
  foldl (λ '(grid, progress) num,
           let possible :=
             filter (λ '(r, c), cell_is grid r c 0 && isValidMove grid r c num size = true)
                    unit in
           match possible with
           | [(r, c)] => (set_cell grid r c num, true)
           | _ => (grid, progress)
           end)
        (grid, false) (Z.of_nat <$> seq 1 size).

Definition findHiddenSinglesInRow (grid : Grid) (row size : nat) : Grid * bool :=
  fill_hidden_singles ((λ col, (row, col)) <$> seq 0 size) size grid.

Definition findHiddenSinglesInColumn (grid : Grid) (col size : nat) : Grid * bool :=
  fill_hidden_singles ((λ row, (row, col)) <$> seq 0 size) size grid.

Definition findHiddenSinglesInBox (grid : Grid) (startRow startCol boxSize : nat)
    : Grid * bool :=
  let size := length grid in
  fill_hidden_singles (r ← seq startRow boxSize; c ← seq startCol boxSize; [(r, c)])
                      size grid.

Definition applyHiddenSingles (grid : Grid) (gridSize : nat) : Grid * bool :=
  let st :=
    for_upto gridSize (λ '(grid, progress) i,
      let '(grid, p1) := findHiddenSinglesInRow grid i gridSize in
      let progress := p1 || progress in
      let '(grid, p2) := findHiddenSinglesInColumn grid i gridSize in
      (grid, p2 || progress)) (grid, false) in
  let boxSize := Nat.sqrt gridSize in
  if sqrt_is_whole gridSize then
    foldl (λ st boxRow,
      foldl (λ '(grid, progress) boxCol,
        let '(grid, p) := findHiddenSinglesInBox grid boxRow boxCol boxSize in
        (grid, p || progress)) st (stride gridSize boxSize)) st (stride gridSize boxSize)
  else st.

Definition applyTechnique (grid : Grid) (t : SolvingTechnique) (_size : nat)
    : Grid * bool :=
  if length grid =? 0 then (grid, false)
  else
    let gridSize := length grid in
    match t with
    | NAKED_SINGLES => applyNakedSingles grid gridSize
    | HIDDEN_SINGLES => applyHiddenSingles grid gridSize
    | _ => (grid, false)
    end.

Definition countEmptyCells (grid : Grid) : nat :=
  foldl (λ count row, foldl (λ count cell, if (cell =? 0)%Z then S count else count)
                            count row) 0 grid.

Definition getAdvancedTechniqueForDifficulty (d : Difficulty) : SolvingTechnique :=
  match d with
  | BEGINNER | EASY => HIDDEN_SINGLES
  | MEDIUM => NAKED_PAIRS
  | HARD => X_WING
  | EXPERT => FORCING_CHAINS
  end.

(** The [Map] of technique usage, in insertion order. *)
Abbreviation Usage := (list (SolvingTechnique * Q)).

(** [techniqueUsage.get(t) || 0] *)
Definition usage_get (usage : Usage) (t : SolvingTechnique) : Q :=
  match list_find (λ e, e.1 = t) usage with
  | Some (_, (_, f)) => f
  | None => 0%Q
  end.

(** [techniqueUsage.set(t, f)]: an existing key keeps its place. *)
Definition usage_set (usage : Usage) (t : SolvingTechnique) (f : Q) : Usage :=
  match list_find (λ e, e.1 = t) usage with
  | Some (i, _) => <[i := (t, f)]> usage
  | None => usage ++ [(t, f)]
  end.

Definition usage_add (usage : Usage) (t : SolvingTechnique) (f : Q) : Usage :=
  usage_set usage t (usage_get usage t + f)%Q.

Definition Qmax1 (q : Q) : Q := if Qlt_le_dec 1 q then q else 1%Q.

Definition addTechniquesBasedOnDifficulty (d : Difficulty) (usage : Usage)
    (emptyCells : nat) : Usage :=
  let baseFrequency := inject_Z (Z.max 1 (Z.of_nat (emptyCells / 20))) in
  match d with
  | BEGINNER => usage
  | EASY => usage_add usage HIDDEN_SINGLES baseFrequency
  | MEDIUM =>
    usage_add (usage_add usage HIDDEN_SINGLES baseFrequency) NAKED_PAIRS baseFrequency
  | HARD =>
    let usage := usage_add usage HIDDEN_SINGLES baseFrequency in
    let usage := usage_add usage NAKED_PAIRS baseFrequency in
    let usage := usage_add usage HIDDEN_PAIRS baseFrequency in
    usage_add usage X_WING (Qmax1 (baseFrequency / 2))
  | EXPERT =>
    let usage := usage_add usage HIDDEN_SINGLES baseFrequency in
    let usage := usage_add usage NAKED_PAIRS baseFrequency in
    let usage := usage_add usage HIDDEN_PAIRS baseFrequency in
    let usage := usage_add usage X_WING baseFrequency in
    let usage := usage_add usage XY_WING (Qmax1 (baseFrequency / 2)) in
    usage_add usage FORCING_CHAINS (Qmax1 (baseFrequency / 3))
  end%Q.

(** The technique loop of one iteration: the first technique that applies. *)
Fixpoint first_applicable (ts : list SolvingTechnique) (grid : Grid) (size : nat)
    : Grid * option SolvingTechnique :=
  match ts with
  | [] => (grid, None)
  | t :: ts =>
    let '(grid, applied) := applyTechnique grid t size in
    if applied then (grid, Some t) else first_applicable ts grid size
  end.

(** The [while (!complete && iterations < maxIterations)] loop of
    [analyzeTechniques]; [budget] is [maxIterations - iterations]. *)
Fixpoint usage_loop (budget : nat) (workingGrid : Grid) (size : nat)
    (d : Difficulty) (usage : Usage) : Usage :=
  match budget with
  | 0 => usage
  | S budget =>
    if isGridComplete workingGrid then usage
    else match first_applicable Solver.ladder workingGrid size with
    | (workingGrid, Some t) => usage_loop budget workingGrid size d (usage_add usage t 1)
    | (_, None) => usage_add usage (getAdvancedTechniqueForDifficulty d) 1
    end
  end.

(** The first half of [analyzeTechniques]: the usage map. *)
Definition techniqueUsage (puzzle : Puzzle) (forGeneration : bool) : Usage :=
  let workingGrid := initialState puzzle in
  let emptyCells := countEmptyCells workingGrid in
  let totalCells := size puzzle * size puzzle in
  (* [fillRatio < 0.6], with [0 / 0] comparing false *)
  let low_fill :=
    (0 <? totalCells)
    && (10 * (Z.of_nat totalCells - Z.of_nat emptyCells) <? 6 * Z.of_nat totalCells)%Z in
  let usage := usage_loop 100 workingGrid (size puzzle) (difficulty puzzle) [] in
  let usage :=
    if length usage =? 0 then
      let usage :=
        usage_set usage NAKED_SINGLES (inject_Z (Z.max 1 (Z.of_nat (emptyCells / 10)))) in
      if low_fill
      then usage_set usage HIDDEN_SINGLES (inject_Z (Z.max 1 (Z.of_nat (emptyCells / 15))))
      else usage
    else usage in
  if forGeneration && (1 <? emptyCells)
  then addTechniquesBasedOnDifficulty (difficulty puzzle) usage emptyCells
  else usage.

(** [analyzeTechniques]: the usage map, turned into the list of analyses. *)
Definition analyzeTechniques (puzzle : Puzzle) (forGeneration : bool)
    : list TechniqueAnalysis :=
  (λ '(t, f), mkAnalysis t f (techniqueWeights t).1 (techniqueWeights t).2)
    <$> techniqueUsage puzzle forGeneration.

Definition calculateDifficultyScore (techniques : list TechniqueAnalysis) : R :=
  let totalScore :=
    foldl (λ total a, total + complexity a * ln (Q2R (frequency a) + 1))%R 0%R techniques in
  Rmin totalScore 10.

Definition scoreToDifficulty (score : R) : Difficulty :=
  match list_find (λ e, (e.2.1 <= score)%R ∧ (score < e.2.2)%R) difficultyBoundaries with
  | Some (_, (d, _)) => d
  | None => EXPERT
  end.

Definition getSizeMultiplier (size : nat) : R :=
  if size =? MINI_6X6 then 6 / 10
  else if size =? CLASSIC_9X9 then 1
  else if size =? MEGA_16X16 then 25 / 10
  else 1.

Definition getDifficultyMultiplier (techniques : list TechniqueAnalysis) : R :=
  if length techniques =? 0 then 1%R
  else
    let avgComplexity :=
      (foldl (λ sum t, sum + complexity t) 0 techniques / INR (length techniques))%R in
    if Rlt_dec avgComplexity (5 / 10) then (8 / 10)%R
    else if Rlt_dec avgComplexity (15 / 10) then 1%R
    else if Rlt_dec avgComplexity 3 then (14 / 10)%R
    else (18 / 10)%R.

(** [Math.round] *)
Definition round (x : R) : Z := Int_part (x + 1 / 2).

Definition estimateSolveTime (size : nat) (techniques : list TechniqueAnalysis) : Z :=
  let baseTime := default 600%R (baseSolveTimes size) in
  let timeMultiplier :=
    foldl (λ m a, m + timeImpact a / 100 * ln (Q2R (frequency a) + 1))%R 1%R techniques in
  let timeMultiplier := (timeMultiplier * getSizeMultiplier size)%R in
  let timeMultiplier := (timeMultiplier * getDifficultyMultiplier techniques)%R in
  round (baseTime * timeMultiplier).

Definition calculateConfidence (puzzle : Puzzle) (techniques : list TechniqueAnalysis) : R :=
  let confidence := 1%R in
  let techniqueCount := length techniques in
  let confidence :=
    if techniqueCount <? 2 then (confidence * (7 / 10))%R
    else if 8 <? techniqueCount then (confidence * (8 / 10))%R
    else confidence in
  let score := calculateDifficultyScore techniques in
  let confidence :=
    if Rlt_dec score (5 / 10) then (confidence * (6 / 10))%R
    else if Rlt_dec (95 / 10) score then (confidence * (6 / 10))%R
    else confidence in
  let confidence :=
    if negb (size puzzle =? CLASSIC_9X9) then (confidence * (85 / 100))%R
    else confidence in
  let confidence :=
    if size puzzle =? CLASSIC_9X9 then
      if (1 <=? techniqueCount) && (techniqueCount <=? 8)
      then if Rle_dec (1 / 10) score
           then if Rle_dec score 9 then Rmax confidence (85 / 100) else confidence
           else confidence
      else confidence
    else confidence in
  Rmax confidence (1 / 10).

Definition calibrateDifficulty (puzzle : Puzzle) (forGeneration : bool)
    : DifficultyCalibrationResult :=
  let techniques := analyzeTechniques puzzle forGeneration in
  let difficultyScore := calculateDifficultyScore techniques in
  let calculatedDifficulty := scoreToDifficulty difficultyScore in
  let estimatedSolveTime := estimateSolveTime (size puzzle) techniques in
  let confidence := calculateConfidence puzzle techniques in
  {| calculatedDifficulty := calculatedDifficulty;
     difficultyScore := difficultyScore;
     requiredTechniques := technique <$> techniques;
     estimatedSolveTime := estimatedSolveTime;
     confidence := confidence |}.

(** The stages of [calculateConfidence]: the discounts keep the confidence
    in (0, 1], the floor for standard puzzles lifts it to 0.85, the final
    floor to 0.1. *)
Lemma calculateConfidence_bounds puzzle techniques :
  (1 / 10 <= calculateConfidence puzzle techniques <= 1)%R ∧
  (size puzzle = 9 → 1 ≤ length techniques ≤ 8 →
   (1 / 10 <= calculateDifficultyScore techniques <= 9)%R →
   (85 / 100 <= calculateConfidence puzzle techniques)%R).
Proof.
  unfold calculateConfidence. cbv zeta.
  set (score := calculateDifficultyScore techniques).
  set (n := length techniques).
  set (c1 := if n <? 2 then _ else _).
  assert (7 / 10 <= c1 <= 1)%R as H1.
  { unfold c1. destruct (n <? 2); [lra|]. destruct (8 <? n); lra. }
  clearbody c1.
  set (c2 := if Rlt_dec score (5 / 10) then _ else _).
  assert (4 / 10 <= c2 <= 1)%R as H2.
  { unfold c2. destruct (Rlt_dec score (5 / 10)); [lra|].
    destruct (Rlt_dec (95 / 10) score); lra. }
  clearbody c2.
  set (c3 := if negb (size puzzle =? CLASSIC_9X9) then _ else _).
  assert (3 / 10 <= c3 <= 1)%R as H3.
  { unfold c3. destruct (negb (size puzzle =? CLASSIC_9X9)); lra. }
  clearbody c3.
  assert (∀ x y, (x <= 1 → y <= 1 → Rmax x y <= 1)%R) as Hmax_le.
  { intros x y Hx Hy. unfold Rmax. destruct (Rle_dec x y); lra. }
  assert (∀ x y, (y <= Rmax x y)%R) as Hmax_r by (intros; apply Rmax_r).
  assert (∀ x y, (x <= Rmax x y)%R) as Hmax_l by (intros; apply Rmax_l).
  split.
  - split; [apply Hmax_r|]. apply Hmax_le; [|lra].
    destruct (size puzzle =? CLASSIC_9X9); [|lra].
    destruct ((1 <=? n) && (n <=? 8)); [|lra].
    destruct (Rle_dec (1 / 10) score); [|lra].
    destruct (Rle_dec score 9); [|lra]. apply Hmax_le; lra.
  - intros Hsize [Hlo Hhi] [Hslo Hshi]. rewrite Hsize.
    replace (1 <=? n) with true by (symmetry; apply Nat.leb_le; lia).
    replace (n <=? 8) with true by (symmetry; apply Nat.leb_le; lia).
    simpl. destruct (Rle_dec (1 / 10) score); [|lra].
    destruct (Rle_dec score 9); [|lra].
    etransitivity; [|apply Hmax_l]. apply Hmax_r.
Qed.

(** C10.  The confidence [calibrateDifficulty] reports lies between 0.1 and
    1.0, for every puzzle and either value of [forGeneration]; and for a 9×9
    puzzle with between 1 and 8 analysed techniques and a difficulty score
    between 0.1 and 9.0 it is at least 0.85. *)
Theorem calibrateDifficulty_confidence puzzle forGeneration :
  (1 / 10 <= confidence (calibrateDifficulty puzzle forGeneration) <= 1)%R ∧
  (size puzzle = 9 →
   1 ≤ length (requiredTechniques (calibrateDifficulty puzzle forGeneration)) ≤ 8 →
   (1 / 10 <= difficultyScore (calibrateDifficulty puzzle forGeneration) <= 9)%R →
   (85 / 100 <= confidence (calibrateDifficulty puzzle forGeneration))%R).
Proof.
  unfold calibrateDifficulty. cbn [confidence requiredTechniques difficultyScore].
  rewrite length_fmap. apply calculateConfidence_bounds.
Qed.

End Calibrator.

(** * Sample runs of the solver and the calibrator *)

Lemma validatePuzzle_solved_witness :
  solved 9 sample_solution ∧
  Solver.validatePuzzle sample_solution
  = {| Solver.isValid := true; Solver.errors := [];
       Solver.isComplete := true; Solver.conflictingCells := [] |}.
Proof.
  assert (solved 9 sample_solution) as Hs
    by (apply solvedb_solved; vm_compute; reflexivity).
  split; [done|]. exact (SolverFacts.validatePuzzle_solved 9 sample_solution Hs).
Defined.

(** The clock that stands still. *)
Definition frozen_clock : Clock := mkClock (λ _, 0%Z) 0.

(** The clock that reads 0 for its first [k] readings and 6000 after that. *)
Definition clock_jumping_at (k : nat) : Clock :=
  mkClock (λ i, if i <? k then 0%Z else 6000%Z) 0.

Definition empty_16x16 : Grid := replicate 16 (replicate 16 0%Z).

Lemma hasUniqueSolution_false_beyond_depth_limit_witness :
  81 < empties (length empty_16x16) empty_16x16 ∧
  ∃ clock', Solver.hasUniqueSolution empty_16x16 frozen_clock = Some (false, clock').
Proof.
  assert (81 < empties (length empty_16x16) empty_16x16) as H
    by (vm_compute; lia).
  split; [done|].
  exact (SolverFacts.hasUniqueSolution_false_beyond_depth_limit
           empty_16x16 frozen_clock H).
Defined.

(** A 4×4 grid with exactly two completions: the 1 and the 2 of the first
    two columns can be exchanged between the first and the third row. *)
Definition two_completions : Grid :=
  [[0; 0; 3; 4];
   [3; 4; 1; 2];
   [0; 0; 4; 3];
   [4; 3; 2; 1]]%Z.

(** C3.  A search that runs out of budget should answer false; the code
    answers by the number of completions recorded so far.  The search on
    [two_completions] records its first completion after five readings of
    the clock.  If the budget runs out at the sixth reading, the search stops
    with that one completion and [hasUniqueSolution] answers true, although
    the search timed out and the grid has a second completion, which an
    unhurried search finds. *)
Lemma hasUniqueSolution_true_after_timeout :
  let clock := clock_jumping_at 6 in
  (∃ clock', Solver.hasUniqueSolution two_completions clock = Some (true, clock') ∧
     ticks clock' = 10 ∧
     (5000 < readings clock 6 - readings clock 0)%Z) ∧
  (∃ clock', Solver.hasUniqueSolution two_completions frozen_clock
             = Some (false, clock')).
Proof.
  split.
  - eexists. split; [vm_compute; reflexivity|]. split; [reflexivity|]. simpl. lia.
  - eexists. vm_compute. reflexivity.
Qed.

Lemma hasUniqueSolution_out_of_budget_witness :
  SolverFacts.expired (now (clock_jumping_at 1)).2 (now (clock_jumping_at 1)).1 5000 ∧
  ∃ clock', Solver.hasUniqueSolution two_completions (clock_jumping_at 1)
            = Some (false, clock').
Proof.
  assert (SolverFacts.expired (now (clock_jumping_at 1)).2
            (now (clock_jumping_at 1)).1 5000) as H.
  { intros k Hk. simpl in *. destruct k; [lia|]. simpl. lia. }
  split; [done|].
  exact (proj2 SolverFacts.hasUniqueSolution_out_of_budget
           two_completions (clock_jumping_at 1) H).
Defined.

(** A caller's heap: a 9×9 puzzle with one empty cell; locations 0-8 hold
    the rows of its initial state, 9-17 the rows of its solution. *)
Definition sample_rows : Grid :=
  [[5; 3; 4; 6; 7; 8; 9; 1; 2];
   [6; 7; 2; 1; 9; 5; 3; 4; 8];
   [1; 9; 8; 3; 4; 2; 5; 6; 7];
   [8; 5; 9; 7; 6; 1; 4; 2; 3];
   [4; 2; 6; 8; 5; 3; 7; 9; 1];
   [7; 1; 3; 9; 2; 4; 8; 5; 6];
   [9; 6; 1; 5; 3; 7; 2; 8; 4];
   [2; 8; 7; 4; 1; 9; 6; 3; 5];
   [3; 4; 5; 2; 8; 6; 1; 7; 9]]%Z.

Definition sample_fields : SolverHeap.PuzzleFields :=
  SolverHeap.mkFields CLASSIC BEGINNER 9 18 19 []
    (mkMetadata 300 [NAKED_SINGLES] 0%Q 0 0 (CLASSIC, BEGINNER)) 0%Q.

Definition sample_heap : gmap nat SolverHeap.object :=
  list_to_map
    (zip (seq 0 9) (SolverHeap.RowArray <$> set_cell sample_rows 8 8 0)
     ++ zip (seq 9 9) (SolverHeap.RowArray <$> sample_rows)
     ++ [(18, SolverHeap.GridArray (seq 0 9));
         (19, SolverHeap.GridArray (seq 9 9));
         (20, SolverHeap.PuzzleObject sample_fields)]).


(** What the solver returns on that heap: the cell is found by a naked
    single, in a working copy allocated at fresh locations. *)
Lemma solvePuzzle_sample_run :
  ∃ h' result clock',
    SolverHeap.solvePuzzle sample_heap 20 frozen_clock = Some (h', result, clock') ∧
    SolverHeap.solved result = true ∧
    SolverHeap.techniques result = [NAKED_SINGLES] ∧
    length (SolverHeap.steps result) = 1 ∧
    (SolverHeap.heap_contents h' <$> SolverHeap.solution result) = Some sample_rows ∧
    SolverHeap.heap_contents h' 18 = set_cell sample_rows 8 8 0.
Proof.
  do 3 eexists. split; [vm_compute; reflexivity|].
  repeat split; vm_compute; reflexivity.
Qed.

(** An empty 9×9 puzzle of medium difficulty: the ladder makes no progress,
    so the analysis records one use of naked pairs. *)
Definition blank_puzzle : Puzzle :=
  mkPuzzle CLASSIC MEDIUM 9 (replicate 9 (replicate 9 0%Z)) sample_solution []
           (mkMetadata 300 [] 0%Q 0 0 (CLASSIC, MEDIUM)) 0%Q.

Lemma blank_puzzle_score :
  Calibrator.calculateDifficultyScore (Calibrator.analyzeTechniques blank_puzzle false)
  = ln 2.
Proof.
  unfold Calibrator.analyzeTechniques.
  assert (Calibrator.techniqueUsage blank_puzzle false = [(NAKED_PAIRS, 1%Q)]) as ->
    by (vm_compute; reflexivity).
  unfold Calibrator.calculateDifficultyScore. simpl.
  assert (Q2R 1 = 1%R) as -> by (unfold Q2R; simpl; lra).
  assert (ln 2 < 1)%R.
  { rewrite <- (ln_exp 1). apply ln_increasing; [lra|].
    pose proof (exp_ineq1 1 ltac:(lra)). lra. }
  replace (1 + 1)%R with 2%R by lra.
  unfold Rmin. destruct (Rle_dec _ _); lra.
Qed.

Lemma calibrateDifficulty_confidence_witness :
  size blank_puzzle = 9 ∧
  1 ≤ length (Calibrator.requiredTechniques
                (Calibrator.calibrateDifficulty blank_puzzle false)) ≤ 8 ∧
  (1 / 10 <= Calibrator.difficultyScore
               (Calibrator.calibrateDifficulty blank_puzzle false) <= 9)%R ∧
  (1 / 10 <= Calibrator.confidence
               (Calibrator.calibrateDifficulty blank_puzzle false) <= 1)%R ∧
  (85 / 100 <= Calibrator.confidence
                 (Calibrator.calibrateDifficulty blank_puzzle false))%R.
Proof.
  assert (1 ≤ length (Calibrator.requiredTechniques
                        (Calibrator.calibrateDifficulty blank_puzzle false)) ≤ 8) as Hn.
  { unfold Calibrator.calibrateDifficulty, Calibrator.analyzeTechniques.
    cbn [Calibrator.requiredTechniques]. rewrite !length_fmap.
    assert (Calibrator.techniqueUsage blank_puzzle false = [(NAKED_PAIRS, 1%Q)]) as ->
      by (vm_compute; reflexivity).
    simpl. lia. }
  assert (1 / 10 <= Calibrator.difficultyScore
                      (Calibrator.calibrateDifficulty blank_puzzle false) <= 9)%R as Hs.
  { unfold Calibrator.calibrateDifficulty. cbn [Calibrator.difficultyScore].
    rewrite blank_puzzle_score. pose proof ln_lt_2.
    assert (ln 2 < 1)%R.
    { rewrite <- (ln_exp 1). apply ln_increasing; [lra|].
      pose proof (exp_ineq1 1 ltac:(lra)). lra. }
    lra. }
  split; [reflexivity|]. split; [exact Hn|]. split; [exact Hs|].
  destruct (Calibrator.calibrateDifficulty_confidence blank_puzzle false)
    as [Hrange Hfloor].
  split; [exact Hrange|]. exact (Hfloor eq_refl Hn Hs).
Defined.

(** * Further properties of the generator *)

Module GeneratorLaws.
Import Generator GeneratorFacts.

(** ** One more function of the generator *)

(** [calculateDifficulty], for a puzzle whose side has a whole root; [None]
    when the analysis runs out of fuel.  The method is public and checks
    nothing.  On a grid whose side has no whole root the box scans of the
    source work with a fractional [Math.sqrt(size)] and can fail on a row
    index that is no integer; the helpers modelled above do not follow the
    source there. *)
Definition calculateDifficulty (puzzle : Puzzle) : option Q :=
  match analyzeSolvingTechniques (initialState puzzle) (solution puzzle) with
  | Some techniques => Some (calculateDifficultyFromTechniques techniques)
  | None => None
  end.

(** ** Shuffling *)

(** X1.  [shuffleArray] returns a rearrangement of its argument: the same
    elements with the same multiplicities, whatever the oracle draws; it
    draws once for every index from the last down to 1. *)
Theorem shuffleArray_rearranges {T} (array : list T) (rng : Rng) :
  (shuffleArray array rng).1 ≡ₚ array ∧
  length (shuffleArray array rng).1 = length array ∧
  cursor (shuffleArray array rng).2 = cursor rng + (length array - 1) ∧
  draws (shuffleArray array rng).2 = draws rng.
Proof.
  split; [apply shuffleArray_Permutation|].
  split; [by rewrite shuffleArray_Permutation|].
  assert (∀ (idx : list nat) (cur : list T) rng0,
    let st := foldl (λ '(shuffled, rng) i,
                       let '(j, rng) := random_below (i + 1) rng in
                       (swap shuffled i j, rng)) (cur, rng0) idx in
    cursor st.2 = cursor rng0 + length idx ∧ draws st.2 = draws rng0) as Hdraws.
  { induction idx as [|i idx IH]; intros cur rng0; simpl.
    - split; [lia|done].
    - destruct (IH (swap cur i (draws rng0 (cursor rng0) `mod` (i + 1)))
                   (mkRng (draws rng0) (S (cursor rng0)))) as [IH1 IH2].
      simpl in IH1, IH2. rewrite IH1, IH2. simpl. split; [lia|done]. }
  destruct (Hdraws (reverse (seq 1 (length array - 1))) array rng) as [H1 H2].
  rewrite length_reverse, length_seq in H1. done.
Qed.

(** ** Permutations *)

(** X2.  For a size with a whole root, [generateBandWisePermutation] returns
    a permutation of the indices 0..size-1 that keeps bands together: two
    indices land in the same band exactly when they come from the same
    band. *)
Theorem generateBandWisePermutation_band_permutation size rng :
  sqrt_is_whole size = true →
  (generateBandWisePermutation size rng).1 ≡ₚ seq 0 size ∧
  keeps_bands size (generateBandWisePermutation size rng).1.
Proof.
  intros Hw. split.
  - by apply generateBandWisePermutation_perm.
  - apply generateBandWisePermutation_keeps_bands.
Qed.

(** X3.  On a permutation [p] of 0..n-1, [invertPermutation] returns the
    inverse permutation: it undoes [p] on both sides, and inverting twice
    gives [p] back. *)
Theorem invertPermutation_inverse n (p : list nat) :
  p ≡ₚ seq 0 n →
  invertPermutation p ≡ₚ seq 0 n ∧
  (∀ i x, p !! i = Some x ↔ invertPermutation p !! x = Some i) ∧
  invertPermutation (invertPermutation p) = p.
Proof.
  intros Hp.
  pose proof (Permutations.invertPermutation_perm n p Hp) as Hip.
  destruct (Permutations.invertPermutation_spec n p Hp) as [Hlen Hinv].
  assert (∀ i x, p !! i = Some x ↔ invertPermutation p !! x = Some i) as Hiff.
  { intros i x. split; [apply Hinv|]. intros Hx.
    assert (x < n) as Hxn by (rewrite <- Hlen; by eapply lookup_lt_Some).
    destruct (Permutations.perm_surjective n p Hp x Hxn) as [j Hj].
    rewrite (Hinv _ _ Hj) in Hx. congruence. }
  split; [done|]. split; [done|].
  destruct (Permutations.invertPermutation_spec n _ Hip) as [Hlen2 Hinv2].
  apply list_eq. intros i.
  destruct (decide (i < n)) as [Hi|Hi].
  - destruct (Permutations.perm_lookup_total n p Hp i Hi) as [x Hx].
    rewrite Hx. apply Hinv2. by apply Hinv.
  - rewrite !lookup_ge_None_2; [done| |].
    + rewrite (Permutations.perm_length n p Hp). lia.
    + rewrite Hlen2. lia.
Qed.

(** X4.  Permuting a complete, legal grid with two band-wise permutations
    of the generator gives a complete, legal grid again. *)
Theorem applyPermutation_band_wise_solved size (s : Grid) rng1 rng2 :
  sqrt_is_whole size = true → solved size s →
  solved size (applyPermutation s (generateBandWisePermutation size rng1).1
                                  (generateBandWisePermutation size rng2).1).
Proof.
  intros Hw Hs. apply applyPermutation_solved; [done| | | |].
  - by apply generateBandWisePermutation_perm.
  - by apply generateBandWisePermutation_perm.
  - apply generateBandWisePermutation_keeps_bands.
  - apply generateBandWisePermutation_keeps_bands.
Qed.

(** ** The removal order *)

Lemma NoDup_box_cells b : NoDup (box_cells b).
Proof.
  unfold box_cells.
  assert (∀ k x, 0 < b → x ∈ seq (k * b) b → x / b = k) as Hband.
  { intros k x Hb Hx. apply elem_of_seq in Hx. apply box_block; [done|lia]. }
  destruct (decide (b = 0)) as [->|Hb]; [apply NoDup_nil_2|].
  assert (0 < b) as Hpos by lia.
  apply NoDup_bind; [| |apply NoDup_seq].
  - intros br1 br2 x _ _ H1 H2.
    apply list_elem_of_bind in H1 as (bc1 & H1 & _).
    apply list_elem_of_bind in H2 as (bc2 & H2 & _).
    apply list_elem_of_bind in H1 as (r1 & H1 & Hr1).
    apply list_elem_of_bind in H2 as (r2 & H2 & Hr2).
    apply list_elem_of_bind in H1 as (c1 & H1 & _).
    apply list_elem_of_bind in H2 as (c2 & H2 & _).
    apply list_elem_of_singleton in H1, H2. subst x. injection H2 as -> _.
    rewrite <- (Hband br1 r2 Hpos Hr1). by apply Hband.
  - intros br _. apply NoDup_bind; [| |apply NoDup_seq].
    + intros bc1 bc2 x _ _ H1 H2.
      apply list_elem_of_bind in H1 as (r1 & H1 & _).
      apply list_elem_of_bind in H2 as (r2 & H2 & _).
      apply list_elem_of_bind in H1 as (c1 & H1 & Hc1).
      apply list_elem_of_bind in H2 as (c2 & H2 & Hc2).
      apply list_elem_of_singleton in H1, H2. subst x. injection H2 as _ ->.
      rewrite <- (Hband bc1 c2 Hpos Hc1). by apply Hband.
    + intros bc _. apply NoDup_bind; [| |apply NoDup_seq].
      * intros r1 r2 x _ _ H1 H2.
        apply list_elem_of_bind in H1 as (c1 & H1 & _).
        apply list_elem_of_bind in H2 as (c2 & H2 & _).
        apply list_elem_of_singleton in H1, H2. congruence.
      * intros r _. apply NoDup_bind; [| |apply NoDup_seq].
        -- intros c1 c2 x _ _ H1 H2.
           apply list_elem_of_singleton in H1, H2. congruence.
        -- intros c _. apply NoDup_singleton.
Qed.

(** X5.  For a size with a whole root, [getBalancedRemovalOrder] lists every
    cell of the grid exactly once, whatever the oracle draws. *)
Theorem getBalancedRemovalOrder_each_cell_once size rng :
  sqrt_is_whole size = true →
  NoDup (getBalancedRemovalOrder size rng).1 ∧
  length (getBalancedRemovalOrder size rng).1 = size * size ∧
  ∀ pos, pos ∈ (getBalancedRemovalOrder size rng).1 ↔ row pos < size ∧ col pos < size.
Proof.
  intros Hw. split; [|split].
  - rewrite getBalancedRemovalOrder_Permutation. apply NoDup_box_cells.
  - by apply getBalancedRemovalOrder_length.
  - intros [r c]. by apply elem_of_getBalancedRemovalOrder.
Qed.

(** ** Searching the grid *)

Lemma first_hit_first {A B} (f : A → option B) (l : list A) y :
  first_hit f l = Some y →
  ∃ l1 x l2, l = l1 ++ x :: l2 ∧ f x = Some y ∧ ∀ x', x' ∈ l1 → f x' = None.
Proof.
  induction l as [|x l IH]; simpl; [done|].
  destruct (f x) as [y'|] eqn:Hx.
  - intros [= ->]. exists [], x, l. split; [done|]. split; [done|].
    intros x' Hin. by apply elem_of_nil in Hin.
  - intros H. destruct (IH H) as (l1 & x' & l2 & -> & Hx' & Hbefore).
    exists (x :: l1), x', l2. split; [done|]. split; [done|].
    intros x0 Hin. apply elem_of_cons in Hin as [->|Hin]; [done|]. by apply Hbefore.
Qed.

Lemma seq_split_at n l1 x l2 :
  seq 0 n = l1 ++ x :: l2 → x < n ∧ ∀ y, y < x → y ∈ l1.
Proof.
  intros Heq.
  assert (length l1 = x) as Hlen.
  { assert (seq 0 n !! length l1 = Some x) as Hx
      by (rewrite Heq; apply list_lookup_middle; done).
    apply lookup_seq in Hx. lia. }
  split.
  - assert (x ∈ seq 0 n) as Hin by (rewrite Heq; set_solver).
    apply elem_of_seq in Hin. lia.
  - intros y Hy.
    assert (seq 0 n !! y = Some y) as Hlook.
    { apply lookup_seq. split; [done|].
      assert (length (seq 0 n) = length l1 + S (length l2)) as Hl
        by (rewrite Heq, length_app; done).
      rewrite length_seq in Hl. lia. }
    rewrite Heq, lookup_app_l in Hlook by lia.
    by eapply list_elem_of_lookup_2.
Qed.

(** X6.  [findEmptyCell] returns the first empty cell in reading order (row
    by row, left to right): the cell holds 0 and no cell before it does.  It
    returns nothing exactly when no cell of the [size]×[size] area holds 0. *)
Theorem findEmptyCell_first (g : Grid) size :
  match findEmptyCell g size with
  | Some (r, c) =>
    r < size ∧ c < size ∧ cell g r c = Some 0%Z ∧
    ∀ r' c', r' < size → c' < size → r' < r ∨ (r' = r ∧ c' < c) →
      cell g r' c' ≠ Some 0%Z
  | None => ∀ r' c', r' < size → c' < size → cell g r' c' ≠ Some 0%Z
  end.
Proof.
  destruct (findEmptyCell g size) as [[r c]|] eqn:Hfind.
  - pose proof (findEmptyCell_Some g size r c Hfind) as (Hr & Hc & Hzero).
    split; [done|]. split; [done|]. split; [done|].
    unfold findEmptyCell in Hfind.
    apply first_hit_first in Hfind as (rows1 & r0 & rows2 & Hrows & Hrow & Hbefore).
    apply first_hit_first in Hrow as (cols1 & c0 & cols2 & Hcols & Hcell & Hleft).
    assert ((r0, c0) = (r, c)) as [= -> ->].
    { destruct (cell_is g r0 c0 0); congruence. }
    apply seq_split_at in Hrows as [_ Hrows]. apply seq_split_at in Hcols as [_ Hcols].
    intros r' c' Hr' Hc' [Hlt|[-> Hlt]] Hz.
    + specialize (Hbefore r' (Hrows r' Hlt)).
      pose proof (first_hit_None _ _ Hbefore c') as Hnone. simpl in Hnone.
      unfold cell_is in Hnone. rewrite bool_decide_eq_true_2 in Hnone by done.
      discriminate Hnone. apply elem_of_seq. lia.
    + specialize (Hleft c' (Hcols c' Hlt)).
      unfold cell_is in Hleft. by rewrite bool_decide_eq_true_2 in Hleft.
  - intros r' c' Hr' Hc'. apply findEmptyCell_None in Hfind.
    by apply (empties_zero size).
Qed.

(** X7.  For a size with a whole root and a position inside the grid,
    [isValidMove] accepts a number exactly when no cell in the row, the
    column or the box of the position holds it (the cell at the position
    itself included). *)
Theorem isValidMove_iff size (g : Grid) row col num :
  sqrt_is_whole size = true → row < size → col < size →
  isValidMove g row col num size = true ↔
  ∀ r' c', r' < size → c' < size → same_unit size row col r' c' →
    cell g r' c' ≠ Some num.
Proof.
  intros Hw Hrow Hcol. split.
  - by apply isValidMove_true.
  - by apply isValidMove_intro.
Qed.

(** ** The backtracking fill decides completability *)

(** [s] is a completion of [g]: a complete, legal grid that agrees with [g]
    on every filled cell of [g]. *)
Definition completion (size : nat) (g s : Grid) : Prop :=
  solved size s ∧ blanked size s g.

Lemma completion_fill size g s row col v :
  completion size g s → cell s row col = Some v →
  completion size (set_cell g row col v) s.
Proof. intros [Hs Hb] Hv. split; [done|]. by apply blanked_fill. Qed.

Lemma completion_of_fill size g s row col v :
  row < size → col < size → square size g → v ≠ 0%Z →
  cell g row col = Some 0%Z →
  completion size (set_cell g row col v) s →
  completion size g s ∧ cell s row col = Some v.
Proof.
  intros Hr Hc Hsq Hv Hzero [Hs [_ Hcells]].
  assert (is_Some (cell g row col)) as Hsome by (rewrite Hzero; eauto).
  split; [split; [done|split; [done|]]|].
  - intros r c Hr' Hc'. destruct (decide ((row, col) = (r, c))) as [[= <- <-]|Hne].
    + by right.
    + specialize (Hcells r c Hr' Hc'). by rewrite cell_set_cell_ne in Hcells.
  - specialize (Hcells row col Hr Hc). rewrite cell_set_cell_eq in Hcells by done.
    destruct Hcells as [Heq|[= ?]]; [done|done].
Qed.

(** A grid without empty cells has itself as its only possible completion. *)
Lemma completion_full size g s :
  square size g → empties size g = 0 → completion size g s → s = g.
Proof.
  intros Hsq Hfull [(Hsqs & _) [_ Hcells]].
  apply (square_ext size); [done|done|]. intros r c Hr Hc.
  destruct (Hcells r c Hr Hc) as [Heq|Hz]; [done|].
  by apply (empties_zero size g r c Hfull Hr Hc) in Hz.
Qed.

(** A successful fill only writes to cells that were empty. *)
Lemma solvePuzzle_extends fuel size g rng g' rng' :
  square size g →
  solvePuzzle fuel g size rng = Some (true, g', rng') → blanked size g' g.
Proof.
  revert g rng. induction fuel as [|fuel IH]; intros g rng Hsq; simpl; [done|].
  destruct (findEmptyCell g size) as [[row col]|] eqn:Hfind.
  - destruct (shuffleArray _ rng) as [numbers rng1] eqn:Hshuffle.
    apply findEmptyCell_Some in Hfind as (Hr & Hc & Hzero).
    intros H. apply (try_numbers_spec _ _ _ _ _ Hzero) in H.
    + destruct H as (num & rng0 & Hin & Hvalid & Hrec).
      apply IH in Hrec as [_ Hcells]; [|by apply set_cell_square].
      split; [done|]. intros r c Hr' Hc'.
      destruct (decide ((row, col) = (r, c))) as [[= <- <-]|Hne]; [by right|].
      specialize (Hcells r c Hr' Hc'). by rewrite cell_set_cell_ne in Hcells.
    + intros num rng0 g0 rng0'. apply solvePuzzle_restores.
  - intros [= <- <-]. by apply blanked_refl.
Qed.

(** X8.  On a grid in a legal state (values in range, no duplicate in a
    unit) of a size with a whole root, the randomized backtracking fill
    [solvePuzzle] returns for every oracle, and it decides whether the grid
    can be completed: when it reports success the grid it leaves is complete,
    legal and agrees with the given cells; when it reports failure the grid is
    as it was and no completion exists. *)
Theorem solvePuzzle_decides size (g : Grid) rng :
  sqrt_is_whole size = true → partial size g →
  ∃ b g' rng', solvePuzzle (search_fuel size) g size rng = Some (b, g', rng') ∧
    if b then completion size g g'
    else g' = g ∧ ¬ ∃ s, completion size g s.
Proof.
  intros Hw Hpart.
  assert (empties size g < search_fuel size) as Hfuel.
  { unfold search_fuel. pose proof (empties_le size g). lia. }
  destruct (solvePuzzle_total (search_fuel size) size g rng Hfuel)
    as [[[b g'] rng'] Hrun].
  exists b, g', rng'. split; [done|]. destruct b.
  - split.
    + by eapply solvePuzzle_sound.
    + eapply solvePuzzle_extends; [|done]. by destruct Hpart.
  - split; [by eapply solvePuzzle_restores|].
    intros (s & Hs & Hb).
    destruct (solvePuzzle_complete (search_fuel size) size s g rng Hw Hs Hb Hfuel)
      as (g1 & rng1 & Hyes).
    congruence.
Qed.

(** ** The capped enumeration is exact *)

(** What a search adds to the list of solutions: distinct grids, all of them
    good, and all the good ones unless the cap was reached. *)
Definition records (maxSolutions : nat) (good : Grid → Prop)
    (before after : list Grid) : Prop :=
  ∃ new, after = before ++ new ∧ NoDup new ∧ (∀ s, s ∈ new → good s) ∧
    (length after < maxSolutions → ∀ s, good s → s ∈ new).

Section enumerate_exact.
Context (rec : Grid → list Grid → option (Grid * list Grid)).
Context (row col size maxSolutions : nat) (g : Grid).
Context (Hw : sqrt_is_whole size = true) (Hsq : square size g).
Context (Hrow : row < size) (Hcol : col < size).
Context (Hzero : cell g row col = Some 0%Z).
Context (Hrec : ∀ num sols, (1 ≤ num ≤ Z.of_nat size)%Z →
  isValidMove g row col num size = true →
  ∃ sols', rec (set_cell g row col num) sols = Some (set_cell g row col num, sols') ∧
    records maxSolutions (completion size (set_cell g row col num)) sols sols').

Lemma enumerate_exact nums :
  NoDup nums → (∀ num, num ∈ nums → (1 ≤ num ≤ Z.of_nat size)%Z) →
  ∀ sols, ∃ sols',
    enumerate rec row col size maxSolutions nums g sols = Some (g, sols') ∧
    records maxSolutions
      (λ s, completion size g s ∧ ∃ v, v ∈ nums ∧ cell s row col = Some v)
      sols sols'.
Proof using Hw Hsq Hrow Hcol Hzero Hrec.
  induction nums as [|num nums IH]; intros Hnd Hrange sols; simpl.
  { exists sols. split; [done|]. exists []. rewrite app_nil_r.
    split; [done|]. split; [apply NoDup_nil_2|]. split.
    - intros s Hin. by apply elem_of_nil in Hin.
    - intros _ s (_ & v & Hin & _). by apply elem_of_nil in Hin. }
  apply NoDup_cons in Hnd as [Hfresh Hnd].
  assert (∀ n, n ∈ nums → (1 ≤ n ≤ Z.of_nat size)%Z) as Hrange'
    by (intros n Hn; apply Hrange; by right).
  assert (1 ≤ num ≤ Z.of_nat size)%Z as Hnum by (apply Hrange; left).
  specialize (IH Hnd Hrange').
  destruct (isValidMove g row col num size) eqn:Hvalid.
  - destruct (Hrec num sols Hnum Hvalid) as (sols1 & -> & new1 & -> & Hnd1 & Hgood1 & Hall1).
    rewrite set_cell_undo by done.
    assert (∀ s, s ∈ new1 → completion size g s ∧ cell s row col = Some num) as Hgood1'.
    { intros s Hin. apply (completion_of_fill size g s row col num); try done; [lia|].
      by apply Hgood1. }
    destruct (maxSolutions <=? length (sols ++ new1)) eqn:Hcap.
    + apply Nat.leb_le in Hcap. exists (sols ++ new1). split; [done|].
      exists new1. split; [done|]. split; [done|]. split.
      * intros s Hin. destruct (Hgood1' s Hin) as [Hc Hv].
        split; [done|]. exists num. split; [left|done].
      * intros Hlt. lia.
    + apply Nat.leb_gt in Hcap.
      destruct (IH (sols ++ new1)) as (sols' & -> & new2 & -> & Hnd2 & Hgood2 & Hall2).
      exists ((sols ++ new1) ++ new2). split; [done|].
      exists (new1 ++ new2). split; [by rewrite (assoc_L (++))|]. split; [|split].
      * apply NoDup_app. split; [done|]. split; [|done].
        intros s Hin1 Hin2. destruct (Hgood1' s Hin1) as [_ Hv1].
        destruct (Hgood2 s Hin2) as (_ & v & Hv & Hv2).
        assert (v = num) as -> by congruence. done.
      * intros s Hin. apply elem_of_app in Hin as [Hin|Hin].
        -- destruct (Hgood1' s Hin) as [Hc Hv].
           split; [done|]. exists num. split; [left|done].
        -- destruct (Hgood2 s Hin) as (Hc & v & Hv & Hv2).
           split; [done|]. exists v. split; [by right|done].
      * intros Hlt s (Hc & v & Hv & Hcell). apply elem_of_app.
        apply elem_of_cons in Hv as [->|Hv].
        -- left. apply Hall1; [rewrite length_app in *; lia|].
           by apply completion_fill.
        -- right. apply Hall2; [done|]. split; [done|]. by exists v.
  - destruct (IH sols) as (sols' & -> & new & -> & Hnd2 & Hgood2 & Hall2).
    exists (sols ++ new). split; [done|]. exists new. split; [done|].
    split; [done|]. split.
    + intros s Hin. destruct (Hgood2 s Hin) as (Hc & v & Hv & Hv2).
      split; [done|]. exists v. split; [by right|done].
    + intros Hlt s (Hc & v & Hv & Hcell).
      apply elem_of_cons in Hv as [->|Hv].
      * destruct Hc as [Hs Hb].
        rewrite (completion_move_valid size s g row col num) in Hvalid; done.
      * apply Hall2; [done|]. split; [done|]. by exists v.
Qed.
End enumerate_exact.

Lemma findAllSolutions_exact size maxSolutions fuel :
  sqrt_is_whole size = true →
  ∀ g sols, partial size g → empties size g < fuel →
  ∃ sols', findAllSolutions fuel g size sols maxSolutions = Some (g, sols') ∧
    records maxSolutions (completion size g) sols sols'.
Proof.
  intros Hw. induction fuel as [|fuel IH]; intros g sols Hpart Hfuel; [lia|].
  simpl. destruct (maxSolutions <=? length sols) eqn:Hcap.
  { apply Nat.leb_le in Hcap. exists sols. split; [done|]. exists [].
    rewrite app_nil_r. split; [done|]. split; [apply NoDup_nil_2|]. split.
    - intros s Hin. by apply elem_of_nil in Hin.
    - intros Hlt. lia. }
  pose proof Hpart as (Hsq & _ & _).
  destruct (findEmptyCell g size) as [[row col]|] eqn:Hfind.
  - apply findEmptyCell_Some in Hfind as (Hr & Hc & Hzero).
    destruct (enumerate_exact
      (λ g s, findAllSolutions fuel g size s maxSolutions)
      row col size maxSolutions g Hw Hsq Hr Hc Hzero) with
      (nums := Z.of_nat <$> seq 1 size) (sols := sols)
      as (sols' & Hrun & new & -> & Hnd & Hgood & Hall).
    + intros num sols0 Hnum Hvalid. apply IH.
      * by apply partial_fill.
      * rewrite (empties_fill size g row col num) in Hfuel by (done || lia). lia.
    + apply (NoDup_fmap_2 _), NoDup_seq.
    + intros num Hin. apply list_elem_of_fmap in Hin as (k & -> & Hk).
      apply elem_of_seq in Hk. lia.
    + exists (sols ++ new). split; [done|]. exists new. split; [done|].
      split; [done|]. split.
      * intros s Hin. by apply Hgood.
      * intros Hlt s Hs. apply Hall; [done|]. split; [done|].
        destruct Hs as [(_ & Hfilled & _) _].
        destruct (Hfilled row col Hr Hc) as (v & Hv & Hvr).
        exists v. split; [|done]. apply list_elem_of_fmap.
        exists (Z.to_nat v). split; [lia|]. apply elem_of_seq. lia.
  - apply findEmptyCell_None in Hfind.
    exists (sols ++ [g]). split; [done|]. exists [g]. split; [done|].
    split; [apply NoDup_singleton|]. split.
    + intros s Hin. apply list_elem_of_singleton in Hin as ->.
      split; [by apply partial_full|by apply blanked_refl].
    + intros _ s Hs. apply list_elem_of_singleton. by apply (completion_full size).
Qed.

(** X9.  On a grid in a legal state whose size has a whole root,
    [validateUniqueSolution] answers true exactly when the grid has one and
    only one completion; the enumeration behind it hands the grid back as it
    received it and records at most two completions, all different. *)
Theorem validateUniqueSolution_exact (g : Grid) :
  sqrt_is_whole (length g) = true → partial (length g) g →
  ∃ sols b,
    findAllSolutions (search_fuel (length g)) g (length g) [] 2 = Some (g, sols) ∧
    NoDup sols ∧ length sols ≤ 2 ∧ (∀ s, s ∈ sols → completion (length g) g s) ∧
    validateUniqueSolution g = Some b ∧
    (b = true ↔
     ∃ s, completion (length g) g s ∧ ∀ s', completion (length g) g s' → s' = s).
Proof.
  intros Hw Hpart. set (n := length g) in *.
  assert (empties n g < search_fuel n) as Hfuel.
  { unfold search_fuel. pose proof (empties_le n g). lia. }
  destruct (findAllSolutions_exact n 2 (search_fuel n) Hw g [] Hpart Hfuel)
    as (sols & Hrun & new & Heq & Hnd & Hgood & Hall).
  simpl in Heq. subst sols.
  destruct (findAllSolutions_spec n 2 (search_fuel n) Hw g [] Hfuel)
    as (sols2 & Hrun2 & _ & Hcap & _).
  assert (sols2 = new) as -> by congruence.
  exists new, (length new =? 1). split; [done|]. split; [done|].
  split; [apply Hcap; simpl; lia|]. split; [done|]. split.
  - unfold validateUniqueSolution. fold n. by rewrite Hrun.
  - rewrite Nat.eqb_eq. split.
    + intros Hone. destruct new as [|s [|]]; simpl in Hone; try lia.
      exists s. split; [apply Hgood; left|].
      intros s' Hs'. apply list_elem_of_singleton. apply Hall; [simpl; lia|done].
    + intros (s & Hs & Huniq).
      destruct new as [|s1 [|s2 rest]]; simpl.
      * specialize (Hall ltac:(simpl; lia) s Hs). by apply elem_of_nil in Hall.
      * done.
      * apply NoDup_cons in Hnd as [Hne _]. exfalso. apply Hne.
        rewrite (Huniq s1) by (apply Hgood; left).
        rewrite (Huniq s2) by (apply Hgood; right; left). left.
Qed.

(** ** How many cells are given *)

(** The number of filled cells of a grid. *)
Definition givens (n : nat) (g : Grid) : nat := n * n - empties n g.

(** Blanking a filled cell adds exactly one empty cell. *)
Lemma empties_blank n g r c v :
  r < n → c < n → cell g r c = Some v → v ≠ 0%Z →
  empties n (set_cell g r c 0) = S (empties n g).
Proof.
  intros Hr Hc Hcell Hv. unfold empties.
  apply (filter_length_point _ _ _ (r, c)).
  - apply NoDup_positions.
  - intros [r' c'] Hne. simpl. rewrite cell_set_cell_ne; [done|congruence].
  - by apply elem_of_positions.
  - simpl. apply cell_set_cell_eq. rewrite Hcell. eauto.
  - simpl. rewrite Hcell. congruence.
Qed.

(** The permissive loop blanks one cell per position until the target is
    met or the positions run out, when the positions are distinct cells that
    are all filled. *)
Lemma easy_removals_empties n positions :
  ∀ g targetClues currentClues,
  NoDup positions →
  (∀ pos, pos ∈ positions → row pos < n ∧ col pos < n ∧
     ∃ v, cell g (row pos) (col pos) = Some v ∧ v ≠ 0%Z) →
  empties n (easy_removals positions g targetClues currentClues)
  = empties n g + min (currentClues - targetClues) (length positions).
Proof.
  induction positions as [|pos positions IH]; intros g t c Hnd Hfilled.
  { simpl. lia. }
  rewrite easy_removals_cons.
  destruct (c <=? t) eqn:Hdone.
  { apply Nat.leb_le in Hdone. replace (c - t) with 0 by lia. simpl. lia. }
  apply Nat.leb_gt in Hdone.
  apply NoDup_cons in Hnd as [Hfresh Hnd].
  destruct (Hfilled pos ltac:(left)) as (Hr & Hc & v & Hv & Hne).
  unfold cell_is. rewrite bool_decide_eq_false_2 by (rewrite Hv; congruence).
  rewrite IH; [|done|].
  - rewrite (empties_blank n g _ _ v) by done. simpl. lia.
  - intros pos' Hin. destruct (Hfilled pos' ltac:(by right)) as (Hr' & Hc' & v' & Hv' & Hne').
    split; [done|]. split; [done|]. exists v'. split; [|done].
    rewrite cell_set_cell_ne; [done|].
    intros Heq. apply Hfresh. destruct pos, pos'. simpl in Heq.
    by injection Heq as -> ->.
Qed.

Lemma filter_none {A} (P : A → Prop) `{!∀ x, Decision (P x)} (l : list A) :
  (∀ x, x ∈ l → ¬ P x) → filter P l = [].
Proof.
  induction l as [|x l IH]; intros Hnone; [done|].
  rewrite filter_cons_False by (apply Hnone; left).
  apply IH. intros y Hy. apply Hnone. by right.
Qed.

Lemma solved_empties n s : solved n s → empties n s = 0.
Proof.
  intros (_ & Hfilled & _). unfold empties. rewrite filter_none; [done|].
  intros [r c] Hin. apply elem_of_positions in Hin as [Hr Hc]. simpl.
  destruct (Hfilled r c Hr Hc) as (v & -> & Hv). intros [= ->]. lia.
Qed.

(** What the removal policies leave of a complete, legal grid. *)
Lemma createPuzzleFromSolution_empties n s d rng g rng' :
  sqrt_is_whole n = true → solved n s →
  createPuzzleFromSolution s d n rng = Some (g, rng') →
  empties n g
  = let targetClues := (calculateTargetClues n d rng).1 in
    match d with
    | EXPERT | HARD => min (n * n - targetClues) (min maxAttempts (n * n))
    | _ => min (n * n - targetClues) (n * n)
    end.
Proof.
  intros Hw Hs. pose proof Hs as (Hsq & Hfilled & _).
  pose proof (solved_empties n s Hs) as Hfull.
  unfold createPuzzleFromSolution.
  destruct (calculateTargetClues n d rng) as [t rng1]. cbn [fst].
  assert (∀ rng0 k,
    empties n (easy_removals (take k (getBalancedRemovalOrder n rng0).1) s t (n * n))
    = min (n * n - t) (min k (n * n))) as Hcount.
  { intros rng0 k.
    pose proof (getBalancedRemovalOrder_Permutation n rng0) as Hperm.
    pose proof (getBalancedRemovalOrder_length n rng0 Hw) as Hlen.
    rewrite easy_removals_empties.
    - rewrite Hfull, length_take, Hlen. lia.
    - eapply sublist_NoDup; [|apply sublist_take].
      rewrite Hperm. apply NoDup_box_cells.
    - intros [r c] Hin. apply elem_of_take in Hin as (i & Hin & _).
      apply list_elem_of_lookup_2 in Hin.
      apply (elem_of_getBalancedRemovalOrder n rng0 r c Hw) in Hin as [Hr Hc].
      simpl. split; [done|]. split; [done|].
      destruct (Hfilled r c Hr Hc) as (v & Hv & Hrange). exists v.
      split; [done|lia]. }
  assert (createHardPuzzle s t n rng1 = Some (g, rng') →
          empties n g = min (n * n - t) (min maxAttempts (n * n))) as Hhard.
  { unfold createHardPuzzle. pose proof (Hcount rng1 maxAttempts) as Hk.
    destruct (getBalancedRemovalOrder n rng1) as [positions rng2]. cbn [fst] in Hk.
    destruct (hard_removals_permissive n s positions Hw Hs s t (n * n) 0 rng2
                (blanked_refl n s Hsq)) as [rng3 Heq].
    rewrite Nat.sub_0_r in Heq. rewrite Heq. by intros [= <- <-]. }
  assert (Some (createEasyPuzzle s t n rng1) = Some (g, rng') →
          empties n g = min (n * n - t) (n * n)) as Heasy.
  { unfold createEasyPuzzle. pose proof (Hcount rng1 (n * n)) as Hk.
    pose proof (getBalancedRemovalOrder_length n rng1 Hw) as Hlen.
    destruct (getBalancedRemovalOrder n rng1) as [positions rng2].
    cbn [fst] in Hk, Hlen. rewrite take_ge in Hk by lia.
    intros [= <- <-]. rewrite Hk. lia. }
  destruct d; done.
Qed.

(** Permuting rows and columns moves the empty cells around without
    changing how many there are. *)
Lemma length_filter_fmap {A B} (f : A → B) (P : B → Prop) `{!∀ x, Decision (P x)}
    (l : list A) :
  length (filter P (f <$> l)) = length (filter (λ x, P (f x)) l).
Proof.
  induction l as [|x l IH]; [done|]. rewrite fmap_cons, !filter_cons.
  destruct (decide (P (f x))); simpl; by rewrite IH.
Qed.

Lemma length_filter_ext {A} (P Q : A → Prop) `{!∀ x, Decision (P x)}
    `{!∀ x, Decision (Q x)} (l : list A) :
  (∀ x, x ∈ l → (P x ↔ Q x)) → length (filter P l) = length (filter Q l).
Proof.
  induction l as [|x l IH]; intros Hext; [done|]. rewrite !filter_cons.
  pose proof (Hext x ltac:(left)) as Hx.
  assert (length (filter P l) = length (filter Q l)) as Hrest
    by (apply IH; intros y Hy; apply Hext; by right).
  destruct (decide (P x)), (decide (Q x)); simpl; try tauto; by rewrite Hrest.
Qed.

Lemma applyPermutation_empties n (g : Grid) p q :
  square n g → p ≡ₚ seq 0 n → q ≡ₚ seq 0 n →
  empties n (applyPermutation g p q) = empties n g.
Proof.
  intros Hsq Hp Hq.
  destruct (Permutations.applyPermutation_spec n g p q Hsq Hp Hq) as [_ Hcell].
  set (f := λ rc : nat * nat, (default 0 (p !! rc.1), default 0 (q !! rc.2))).
  assert (∀ r c, r < n → c < n → ∃ pr pc,
    p !! r = Some pr ∧ q !! c = Some pc ∧ f (r, c) = (pr, pc)) as Hf.
  { intros r c Hr Hc.
    destruct (Permutations.perm_lookup_total n p Hp r Hr) as [pr Hpr].
    destruct (Permutations.perm_lookup_total n q Hq c Hc) as [pc Hpc].
    exists pr, pc. unfold f. simpl. by rewrite Hpr, Hpc. }
  assert (positions n ≡ₚ f <$> positions n) as Hperm.
  { symmetry. apply NoDup_Permutation.
    - apply NoDup_fmap_2_strong; [|apply NoDup_positions].
      intros [r1 c1] [r2 c2] H1 H2 Heq.
      apply elem_of_positions in H1 as [Hr1 Hc1].
      apply elem_of_positions in H2 as [Hr2 Hc2].
      destruct (Hf r1 c1 Hr1 Hc1) as (pr1 & pc1 & Hpr1 & Hpc1 & Hf1).
      destruct (Hf r2 c2 Hr2 Hc2) as (pr2 & pc2 & Hpr2 & Hpc2 & Hf2).
      rewrite Hf1, Hf2 in Heq. injection Heq as -> ->.
      f_equal; eauto using Permutations.perm_injective.
    - apply NoDup_positions.
    - intros [r c]. rewrite list_elem_of_fmap, elem_of_positions. split.
      + intros ([r0 c0] & Heq & Hin). apply elem_of_positions in Hin as [Hr0 Hc0].
        destruct (Hf r0 c0 Hr0 Hc0) as (pr & pc & Hpr & Hpc & Hf0).
        rewrite Hf0 in Heq. injection Heq as -> ->.
        eauto using Permutations.perm_lookup_lt.
      + intros [Hr Hc].
        destruct (Permutations.perm_surjective n p Hp r Hr) as [r0 Hr0].
        destruct (Permutations.perm_surjective n q Hq c Hc) as [c0 Hc0].
        exists (r0, c0). split.
        * unfold f. simpl. by rewrite Hr0, Hc0.
        * apply elem_of_positions. split.
          -- rewrite <- (Permutations.perm_length n p Hp). by eapply lookup_lt_Some.
          -- rewrite <- (Permutations.perm_length n q Hq). by eapply lookup_lt_Some. }
  unfold empties. rewrite Hperm at 1. rewrite length_filter_fmap.
  apply length_filter_ext. intros [r c] Hin.
  apply elem_of_positions in Hin as [Hr Hc].
  destruct (Hf r c Hr Hc) as (pr & pc & Hpr & Hpc & ->). simpl.
  by rewrite (Hcell r c pr pc Hpr Hpc).
Qed.

Lemma calculateTargetClues_range n d rng :
  let t := (calculateTargetClues n d rng).1 in
  t ≤ n * n ∧
  (n = 9 → (clueRanges d).1 ≤ t ≤ (clueRanges d).2) ∧
  (n ≠ 9 → t = n * n * clueRatios d / 100).
Proof.
  unfold calculateTargetClues. destruct (n =? 9) eqn:Hn.
  - apply Nat.eqb_eq in Hn as ->.
    destruct (clueRanges d) as [lo hi] eqn:Hrange.
    pose proof (random_below_lt (hi - lo + 1) rng ltac:(lia)) as Hk.
    destruct (random_below (hi - lo + 1) rng) as [k rng1]. simpl in *.
    assert (lo ≤ hi ∧ hi ≤ 81) as [Hlh Hhi] by (destruct d; injection Hrange as <- <-; lia).
    split; [lia|]. split; [lia|done].
  - apply Nat.eqb_neq in Hn. cbn [fst]. split; [|split; [done|done]].
    apply Nat.Div0.div_le_upper_bound.
    assert (clueRatios d ≤ 100) by (destruct d; simpl; lia). nia.
Qed.

(** X10.  The number of given cells of a generated puzzle.  For a 9×9 puzzle
    it lies within the clue range of the requested tier (50-60, 36-46, 32-35,
    28-31, 22-27), whatever the oracle draws.  For any other size it is the
    tier's share of the cells, rounded down; the Hard and Expert policy
    however stops after 200 removals, so it leaves at least all but 200
    cells. *)
Theorem generatePuzzle_givens_count options rng p :
  generatePuzzle options rng = Returned p →
  let n := size p in
  let d := difficulty p in
  (n = 9 →
   (clueRanges d).1 ≤ givens n (initialState p) ≤ (clueRanges d).2) ∧
  (n ≠ 9 →
   givens n (initialState p)
   = match d with
     | EXPERT | HARD => max (n * n * clueRatios d / 100) (n * n - maxAttempts)
     | _ => n * n * clueRatios d / 100
     end).
Proof.
  intros Hrun. unfold generatePuzzle in Hrun.
  destruct (sqrt_is_whole (opt_size options)) eqn:Hw; [|done]. cbn [negb] in Hrun.
  set (n := opt_size options) in *.
  pose proof (generateBandWisePermutation_perm n rng Hw) as Hrow.
  pose proof (generateBandWisePermutation_keeps_bands n rng) as Hrowb.
  destruct (generateBandWisePermutation n rng) as [rowPerm rng1].
  pose proof (generateBandWisePermutation_perm n rng1 Hw) as Hcol.
  pose proof (generateBandWisePermutation_keeps_bands n rng1) as Hcolb.
  destruct (generateBandWisePermutation n rng1) as [colPerm rng2].
  cbn [fst] in Hrow, Hcol, Hrowb, Hcolb.
  destruct (generateCompleteSolution n rng2) as [[s0 rng3]| |] eqn:Hgen; [|done|done].
  apply generateCompleteSolution_solved in Hgen; [|done].
  pose proof (applyPermutation_solved n s0 rowPerm colPerm Hgen Hrow Hcol Hrowb Hcolb)
    as Hs1.
  destruct (createPuzzleFromSolution _ _ n rng3) as [[g1 rng4]|] eqn:Hcreate; [|done].
  pose proof (createPuzzleFromSolution_empties n _ _ _ _ _ Hw Hs1 Hcreate) as Hcount.
  apply (createPuzzleFromSolution_blanked n) in Hcreate as [Hsq1 _]; [|by destruct Hs1].
  destruct (analyzeSolvingTechniques _ _) as [ts|]; [|done].
  injection Hrun as <-. cbn [size difficulty initialState]. fold n.
  pose proof (Permutations.invertPermutation_perm n rowPerm Hrow) as Hirow.
  pose proof (Permutations.invertPermutation_perm n colPerm Hcol) as Hicol.
  unfold givens. rewrite (applyPermutation_empties n g1 _ _ Hsq1 Hirow Hicol), Hcount.
  destruct (calculateTargetClues_range n (opt_difficulty options) rng3)
    as (Hle & H9 & Hother).
  cbv zeta in *. set (t := (calculateTargetClues n (opt_difficulty options) rng3).1) in *.
  unfold maxAttempts. split.
  - intros Hn. specialize (H9 Hn).
    destruct (opt_difficulty options); cbn [clueRanges fst snd] in *; lia.
  - intros Hn. rewrite <- (Hother Hn).
    destruct (opt_difficulty options); lia.
Qed.

(** ** The techniques and the score of a generated puzzle *)

(** The sum of the scores of a list of techniques. *)
Definition total_score (ts : list SolvingTechnique) : Q :=
  foldr (λ t a, techniqueScores t + a)%Q 0%Q ts.

Lemma techniqueScores_nonneg t : (0 <= techniqueScores t)%Q.
Proof. destruct t; simpl; Lqa.lra. Qed.

Lemma foldl_score ts acc :
  (foldl (λ score t, score + techniqueScores t) acc ts == acc + total_score ts)%Q.
Proof.
  unfold total_score. revert acc. induction ts as [|t ts IH]; intros acc; simpl.
  - Lqa.lra.
  - rewrite IH. Lqa.lra.
Qed.

Lemma total_score_nonneg ts : (0 <= total_score ts)%Q.
Proof.
  unfold total_score. induction ts as [|t ts IH]; simpl; [Lqa.lra|].
  pose proof (techniqueScores_nonneg t). Lqa.lra.
Qed.

Lemma total_score_submseteq ts1 ts2 :
  ts1 ⊆+ ts2 → (total_score ts1 <= total_score ts2)%Q.
Proof.
  induction 1 as [|t l1 l2 _ IH|t1 t2 l|t l1 l2 _ IH|l1 l2 l3 _ IH1 _ IH2];
    unfold total_score in *; simpl.
  - Lqa.lra.
  - Lqa.lra.
  - Lqa.lra.
  - pose proof (techniqueScores_nonneg t). Lqa.lra.
  - Lqa.lra.
Qed.

Lemma note_technique_NoDup t ts : NoDup ts → NoDup (note_technique t ts).
Proof.
  intros Hnd. unfold note_technique. case_bool_decide as Hin; [done|].
  apply NoDup_app. split; [done|]. split; [|apply NoDup_singleton].
  intros x Hx Hx'. apply list_elem_of_singleton in Hx' as ->. done.
Qed.

Lemma elem_of_note_technique t ts x : x ∈ note_technique t ts ↔ x = t ∨ x ∈ ts.
Proof.
  unfold note_technique. case_bool_decide as Hin.
  - split; [by right|]. intros [->|]; done.
  - rewrite elem_of_app, list_elem_of_singleton. tauto.
Qed.

(** The analysis only ever names naked singles, hidden singles and, once
    and last, forcing chains. *)
Lemma analysis_loop_techniques fuel :
  ∀ g ts ts', analysis_loop fuel g ts = Some ts' →
  NoDup ts → (∀ t, t ∈ ts → t = NAKED_SINGLES ∨ t = HIDDEN_SINGLES) →
  NoDup ts' ∧ ∀ t, t ∈ ts' → t ∈ [NAKED_SINGLES; HIDDEN_SINGLES; FORCING_CHAINS].
Proof.
  induction fuel as [|fuel IH]; intros g ts ts'; [done|].
  cbn [analysis_loop]. intros Hrun Hnd Hsub.
  assert (∀ t, t ∈ ts → t ∈ [NAKED_SINGLES; HIDDEN_SINGLES; FORCING_CHAINS]) as Hsub'.
  { intros t Hin. destruct (Hsub t Hin) as [-> | ->];
      [left|right; left]. }
  destruct (isGridComplete g).
  { injection Hrun as <-. done. }
  destruct (applyNakedSingles g) as [g1 [|]].
  { apply IH in Hrun; [done|by apply note_technique_NoDup|].
    intros t Hin. apply elem_of_note_technique in Hin as [->|Hin]; auto. }
  destruct (applyHiddenSingles g1) as [g2 [|]].
  { apply IH in Hrun; [done|by apply note_technique_NoDup|].
    intros t Hin. apply elem_of_note_technique in Hin as [->|Hin]; auto. }
  simpl in Hrun. injection Hrun as <-. split.
  - apply NoDup_app. split; [done|]. split; [|apply NoDup_singleton].
    intros x Hx Hx'. apply list_elem_of_singleton in Hx' as ->.
    destruct (Hsub _ Hx); discriminate.
  - intros t Hin. apply elem_of_app in Hin as [Hin|Hin]; [auto|].
    apply list_elem_of_singleton in Hin as ->. right. right. left.
Qed.

(** X11.  Whatever tier is requested, the technique analysis of the
    generator names only naked singles, hidden singles and forcing chains,
    each at most once.  The difficulty score of a generated puzzle is
    therefore at most 5.3, far from the cap of 10, and the estimated solve
    time lies between 300 and 618 seconds. *)
Theorem generatePuzzle_score_bounded options rng p :
  generatePuzzle options rng = Returned p →
  NoDup (techniques (metadata p)) ∧
  (∀ t, t ∈ techniques (metadata p) →
        t ∈ [NAKED_SINGLES; HIDDEN_SINGLES; FORCING_CHAINS]) ∧
  (0 <= difficultyScore p <= 53 # 10)%Q ∧
  (300 ≤ estimatedSolveTime (metadata p) ≤ 618)%Z.
Proof.
  intros Hrun. unfold generatePuzzle in Hrun.
  destruct (negb _); [done|].
  destruct (generateBandWisePermutation _ rng) as [rowPerm rng1].
  destruct (generateBandWisePermutation _ rng1) as [colPerm rng2].
  destruct (generateCompleteSolution _ rng2) as [[s0 rng3]| |]; [|done|done].
  destruct (createPuzzleFromSolution _ _ _ rng3) as [[g1 rng4]|]; [|done].
  destruct (analyzeSolvingTechniques _ _) as [ts|] eqn:Hts; [|done].
  injection Hrun as <-. cbn [techniques metadata difficultyScore estimatedSolveTime].
  unfold analyzeSolvingTechniques in Hts.
  apply analysis_loop_techniques in Hts as [Hnd Hsub];
    [|apply NoDup_nil_2|intros t Hin; by apply elem_of_nil in Hin].
  split; [done|]. split; [done|].
  assert (0 <= calculateDifficultyFromTechniques ts <= 53 # 10)%Q as Hscore.
  { unfold calculateDifficultyFromTechniques. cbv zeta.
    pose proof (foldl_score ts 0) as Hsum.
    pose proof (total_score_nonneg ts) as Hpos.
    pose proof (total_score_submseteq ts [NAKED_SINGLES; HIDDEN_SINGLES; FORCING_CHAINS]
                  (NoDup_submseteq _ _ Hnd Hsub)) as Hle.
    unfold total_score in Hle at 2. simpl in Hle.
    set (score := foldl _ _ ts) in *.
    split.
    - apply Q.min_glb; Lqa.lra.
    - pose proof (Q.le_min_l score 10). Lqa.lra. }
  split; [done|].
  unfold estimateSolveTime, round_half_up. cbv zeta.
  set (score := calculateDifficultyFromTechniques ts) in *.
  assert (300 * (1 + score / 5) + (1 # 2) == 300 + 60 * score + (1 # 2))%Q as ->
    by field.
  destruct Hscore as [H0 H1]. split.
  - apply (Z.le_trans _ (Qfloor 300)); [done|]. apply Qfloor_resp_le. Lqa.lra.
  - apply (Z.le_trans _ (Qfloor (1237 # 2))); [|done]. apply Qfloor_resp_le. Lqa.lra.
Qed.

Lemma calculateDifficultyFromTechniques_range ts :
  NoDup ts → (∀ t, t ∈ ts → t ∈ [NAKED_SINGLES; HIDDEN_SINGLES; FORCING_CHAINS]) →
  (0 <= calculateDifficultyFromTechniques ts <= 53 # 10)%Q.
Proof.
  intros Hnd Hsub. unfold calculateDifficultyFromTechniques. cbv zeta.
  pose proof (foldl_score ts 0) as Hsum.
  pose proof (total_score_nonneg ts) as Hpos.
  pose proof (total_score_submseteq ts [NAKED_SINGLES; HIDDEN_SINGLES; FORCING_CHAINS]
                (NoDup_submseteq _ _ Hnd Hsub)) as Hle.
  unfold total_score in Hle at 2. simpl in Hle.
  set (score := foldl _ _ ts) in *.
  split.
  - apply Q.min_glb; Lqa.lra.
  - pose proof (Q.le_min_l score 10). Lqa.lra.
Qed.

(** X12.  [calculateDifficulty] returns for every puzzle whose initial state
    is a square grid with a side that has a whole root, with a score between
    0 and 5.3; the score is 0 when the initial state has no empty cell; and
    for a puzzle that [generatePuzzle] returned it recomputes the stored
    [difficultyScore]. *)
Theorem calculateDifficulty_recomputes puzzle :
  (sqrt_is_whole (length (initialState puzzle)) = true →
   square (length (initialState puzzle)) (initialState puzzle) →
   ∃ score, calculateDifficulty puzzle = Some score ∧ (0 <= score <= 53 # 10)%Q ∧
     (empties (length (initialState puzzle)) (initialState puzzle) = 0 →
      score = 0%Q)) ∧
  (∀ options rng, generatePuzzle options rng = Returned puzzle →
     calculateDifficulty puzzle = Some (difficultyScore puzzle)).
Proof.
  split.
  - intros _ Hsq. unfold calculateDifficulty, analyzeSolvingTechniques. cbv zeta.
    set (g := initialState puzzle) in *. set (n := length g) in *.
    destruct (analysis_loop_total n (S (n * n)) g [] Hsq) as [ts Hts].
    { pose proof (empties_le n g). lia. }
    rewrite Hts. eexists. split; [reflexivity|].
    pose proof Hts as Hrun.
    apply analysis_loop_techniques in Hrun as [Hnd Hsub];
      [|apply NoDup_nil_2|intros t Hin; by apply elem_of_nil in Hin].
    split; [by apply calculateDifficultyFromTechniques_range|].
    intros Hfull. cbn [analysis_loop] in Hts.
    assert (Generator.isGridComplete g = true) as Hcomplete.
    { apply forallb_forall. intros rw Hrw. apply forallb_forall. intros v Hv.
      apply negb_true_iff, Z.eqb_neq. intros ->.
      apply list_elem_of_In, list_elem_of_lookup in Hrw as [r Hr].
      apply list_elem_of_In, list_elem_of_lookup in Hv as [c Hc].
      destruct Hsq as [Hlen Hrows]. fold n in Hlen.
      assert (r < n) as Hrn by (apply lookup_lt_Some in Hr; lia).
      assert (c < n) as Hcn.
      { apply lookup_lt_Some in Hc. by rewrite (Hrows r rw Hr) in Hc. }
      apply (empties_zero n g r c Hfull Hrn Hcn).
      unfold cell. rewrite Hr. simpl. done. }
    rewrite Hcomplete in Hts. by injection Hts as <-.
  - intros options rng Hrun. unfold generatePuzzle in Hrun.
    destruct (negb _); [done|].
    destruct (generateBandWisePermutation _ rng) as [rowPerm rng1].
    destruct (generateBandWisePermutation _ rng1) as [colPerm rng2].
    destruct (generateCompleteSolution _ rng2) as [[s0 rng3]| |]; [|done|done].
    destruct (createPuzzleFromSolution _ _ _ rng3) as [[g1 rng4]|]; [|done].
    destruct (analyzeSolvingTechniques _ _) as [ts|] eqn:Hts; [|done].
    injection Hrun as <-. unfold calculateDifficulty.
    cbn [initialState solution difficultyScore]. by rewrite Hts.
Qed.

(** ** A solution grid of every size *)

Lemma mod_shift_inj n a x y :
  x < n → y < n → (a + x) `mod` n = (a + y) `mod` n → x = y.
Proof.
  intros Hx Hy Heq.
  pose proof (Nat.div_mod_eq (a + x) n) as H1.
  pose proof (Nat.div_mod_eq (a + y) n) as H2.
  rewrite Heq in H1.
  set (q1 := (a + x) / n) in *. set (q2 := (a + y) / n) in *.
  set (m := (a + y) `mod` n) in *. clearbody q1 q2 m.
  destruct (lt_eq_lt_dec q1 q2) as [[Hlt|Heq']|Hgt].
  - assert (n * q1 + n ≤ n * q2) by nia. lia.
  - subst. lia.
  - assert (n * q2 + n ≤ n * q1) by nia. lia.
Qed.

Lemma digits_inj b x y x' y' :
  y < b → y' < b → b * x + y = b * x' + y' → x = x' ∧ y = y'.
Proof.
  intros Hy Hy' Heq. destruct (lt_eq_lt_dec x x') as [[Hlt|Hxx]|Hgt].
  - assert (b * x + b ≤ b * x') by nia. lia.
  - subst. lia.
  - assert (b * x' + b ≤ b * x) by nia. lia.
Qed.

Lemma cell_pattern_solution n r c :
  r < n → c < n →
  cell (pattern_solution n) r c
  = Some (Z.of_nat ((Nat.sqrt n * (r `mod` Nat.sqrt n) + r / Nat.sqrt n + c) `mod` n + 1)).
Proof.
  intros Hr Hc. unfold cell, pattern_solution. cbv zeta.
  rewrite list_lookup_fmap, lookup_seq_lt by done. simpl.
  rewrite list_lookup_fmap, lookup_seq_lt by done. done.
Qed.

(** The pattern is complete and legal for every size with a whole root. *)
Lemma pattern_solution_solved n : sqrt_is_whole n = true → solved n (pattern_solution n).
Proof.
  intros Hw. pose proof (whole_root n Hw) as Hsq. set (b := Nat.sqrt n) in *.
  split; [|split].
  - split.
    + unfold pattern_solution. by rewrite length_fmap, length_seq.
    + intros r rw Hrw. unfold pattern_solution in Hrw. cbv zeta in Hrw.
      apply list_lookup_fmap_Some in Hrw as (r0 & -> & _).
      by rewrite length_fmap, length_seq.
  - intros r c Hr Hc. eexists. split; [by apply cell_pattern_solution|].
    assert (n ≠ 0) as Hn by lia.
    pose proof (Nat.mod_upper_bound (b * (r `mod` b) + r / b + c) n Hn).
    fold b. lia.
  - intros r c r' c' v Hr Hc Hr' Hc' Hne Hunit Hv Hv'. exfalso. apply Hne.
    rewrite cell_pattern_solution in Hv, Hv' by done. fold b in Hv, Hv'.
    rewrite <- Hv' in Hv. injection Hv as Hv. clear Hv'.
    assert ((b * (r `mod` b) + r / b + c) `mod` n
            = (b * (r' `mod` b) + r' / b + c') `mod` n) as Heq by lia.
    clear Hv. unfold same_unit, same_box in Hunit. fold b in Hunit. clearbody b.
    assert (0 < b) as Hb by nia.
    pose proof (Nat.div_mod_eq r b) as Hdr. pose proof (Nat.div_mod_eq r' b) as Hdr'.
    pose proof (Nat.div_mod_eq c b) as Hdc. pose proof (Nat.div_mod_eq c' b) as Hdc'.
    pose proof (Nat.mod_upper_bound r b ltac:(lia)) as Hmr.
    pose proof (Nat.mod_upper_bound r' b ltac:(lia)) as Hmr'.
    pose proof (Nat.mod_upper_bound c b ltac:(lia)) as Hmc.
    pose proof (Nat.mod_upper_bound c' b ltac:(lia)) as Hmc'.
    assert (r / b < b) as Hqr by (apply Nat.Div0.div_lt_upper_bound; lia).
    assert (r' / b < b) as Hqr' by (apply Nat.Div0.div_lt_upper_bound; lia).
    assert (c / b < b) as Hqc by (apply Nat.Div0.div_lt_upper_bound; lia).
    assert (c' / b < b) as Hqc' by (apply Nat.Div0.div_lt_upper_bound; lia).
    destruct Hunit as [->|[->|[_ [Hbr Hbc]]]].
    + apply mod_shift_inj in Heq; [|done|done]. by subst.
    + rewrite (Nat.add_comm _ c), (Nat.add_comm (b * (r' `mod` b) + r' / b) c) in Heq.
      apply mod_shift_inj in Heq; [|nia|nia].
      destruct (digits_inj b _ _ _ _ Hqr Hqr' Heq) as [Hm Hq].
      f_equal. lia.
    + replace (b * (r `mod` b) + r / b + c)
        with (r / b + b * (c / b) + (b * (r `mod` b) + c `mod` b)) in Heq by lia.
      replace (b * (r' `mod` b) + r' / b + c')
        with (r / b + b * (c / b) + (b * (r' `mod` b) + c' `mod` b)) in Heq
        by (rewrite <- Hbr, <- Hbc; lia).
      apply mod_shift_inj in Heq; [|nia|nia].
      destruct (digits_inj b _ _ _ _ Hmc Hmc' Heq) as [Hm Hm'].
      f_equal; lia.
Qed.

(** X13.  For every size with a whole root (1, 4, 9, 16, 25, ...), whatever
    the oracle draws: [generateCompleteSolution] returns a complete, legal
    grid, so its error is never raised; and [generatePuzzle] returns a puzzle
    for every variant, tier and constraint list. *)
Theorem generatePuzzle_returns_for_every_square size :
  sqrt_is_whole size = true →
  (∀ rng, ∃ s rng',
     generateCompleteSolution size rng = Returned (s, rng') ∧ solved size s) ∧
  (∀ variant d cs rng, ∃ p,
     generatePuzzle (mkOptions variant d size cs) rng = Returned p).
Proof.
  intros Hw. pose proof (pattern_solution_solved size Hw) as Hs. split.
  - intros rng. unfold generateCompleteSolution.
    destruct (solvePuzzle_complete (search_fuel size) size (pattern_solution size)
                (replicate size (replicate size 0%Z)) rng Hw Hs) as (g & rng' & Hsolve).
    + destruct (empty_grid_partial size) as (Hsq & _ & Hzero). split; [done|].
      intros r c Hr Hc. right.
      destruct (square_cell_is_Some size _ r c Hsq Hr Hc) as [v Hv]. rewrite Hv.
      f_equal. unfold cell in Hv.
      destruct (replicate size (replicate size 0%Z) !! r) as [rw|] eqn:Hrw;
        simpl in Hv; [|done].
      apply lookup_replicate_1 in Hrw as [-> _].
      by apply lookup_replicate_1 in Hv as [-> _].
    + unfold search_fuel.
      pose proof (empties_le size (replicate size (replicate size 0%Z))). lia.
    + rewrite Hsolve. exists g, rng'. split; [done|].
      eapply solvePuzzle_sound; [done| |done]. apply empty_grid_partial.
  - intros variant d cs rng. apply generatePuzzle_returns; [done|]. simpl. eauto.
Qed.

End GeneratorLaws.

(** * Further properties of the solver *)

Module SolverLaws.
Import Solver GeneratorFacts GeneratorLaws.

(** ** Accepted moves, for every size *)

(** On a size with a whole root the solver accepts the moves the generator
    accepts. *)
Lemma solver_isValidMove_whole size (g : Grid) row col num :
  sqrt_is_whole size = true →
  isValidMove g row col num size = Generator.isValidMove g row col num size.
Proof. intros Hw. unfold isValidMove. by rewrite Hw. Qed.

Lemma solver_isValidMove_iff size (g : Grid) row col num :
  row < size → col < size →
  isValidMove g row col num size = true ↔
  ∀ r' c', r' < size → c' < size → same_unit size row col r' c' →
    cell g r' c' ≠ Some num.
Proof.
  intros Hrow Hcol. destruct (sqrt_is_whole size) eqn:Hw.
  { rewrite solver_isValidMove_whole by done. split.
    - by apply isValidMove_true.
    - by apply isValidMove_intro. }
  unfold isValidMove, same_unit, holds, read. rewrite Hw. simpl.
  rewrite andb_true_r, andb_true_iff, !forallb_forall. split.
  - intros [Hr Hc] r' c' Hr' Hc' [->|[->|[? _]]] Hcell; [| |done].
    + specialize (Hr c' ltac:(apply in_seq; lia)).
      by rewrite bool_decide_eq_true_2 in Hr.
    + specialize (Hc r' ltac:(apply in_seq; lia)).
      by rewrite bool_decide_eq_true_2 in Hc.
  - intros Hfree. split.
    + intros c' Hc'. apply in_seq in Hc'.
      rewrite bool_decide_eq_false_2; [done|]. apply Hfree; [done|lia|by left].
    + intros r' Hr'. apply in_seq in Hr'.
      rewrite bool_decide_eq_false_2; [done|].
      apply Hfree; [lia|done|right; by left].
Qed.

(** ** Candidates *)

Lemma StronglySorted_filter {A} (R : relation A) (P : A → Prop)
    `{!∀ x, Decision (P x)} (l : list A) :
  Sorted.StronglySorted R l → Sorted.StronglySorted R (filter P l).
Proof.
  induction 1 as [|x l Hl IH Hx]; [constructor|].
  rewrite filter_cons. destruct (decide (P x)); [|done].
  constructor; [done|]. apply Forall_forall. intros y Hy.
  apply list_elem_of_filter in Hy as [_ Hy].
  rewrite Forall_forall in Hx. by apply Hx.
Qed.

Lemma StronglySorted_numbers a n : Sorted.StronglySorted Z.lt (Z.of_nat <$> seq a n).
Proof.
  revert a. induction n as [|n IH]; intros a; simpl; [constructor|].
  constructor; [apply IH|]. apply Forall_forall. intros y Hy.
  apply list_elem_of_fmap in Hy as (k & -> & Hk). apply elem_of_seq in Hk. lia.
Qed.

(** The candidates of an empty cell are the numbers in range that
    [isValidMove] accepts. *)
Lemma elem_of_getCandidates (g : Grid) row col v :
  cell g row col = Some 0%Z →
  v ∈ getCandidates g row col ↔
  (1 ≤ v ≤ Z.of_nat (length g))%Z ∧ isValidMove g row col v (length g) = true.
Proof.
  intros Hzero. unfold getCandidates, holds, read. simpl.
  rewrite bool_decide_eq_true_2 by done.
  rewrite list_elem_of_filter, list_elem_of_fmap. split.
  - intros [Hvalid (k & -> & Hk)]. apply elem_of_seq in Hk. split; [lia|done].
  - intros [Hv Hvalid]. split; [done|]. exists (Z.to_nat v).
    split; [lia|]. apply elem_of_seq. lia.
Qed.

(** X14.  [getCandidates] on a cell of a square grid: a filled cell has no
    candidates; for an empty cell the candidates are exactly the numbers
    1..n that occur nowhere in the row, the column or (when n has a whole
    root) the box of the cell, listed in increasing order. *)
Theorem getCandidates_spec (g : Grid) row col :
  let n := length g in
  square n g → row < n → col < n →
  (cell g row col ≠ Some 0%Z → getCandidates g row col = []) ∧
  (cell g row col = Some 0%Z →
   ∀ v, v ∈ getCandidates g row col ↔
        (1 ≤ v ≤ Z.of_nat n)%Z ∧
        ∀ r' c', r' < n → c' < n → same_unit n row col r' c' →
          cell g r' c' ≠ Some v) ∧
  Sorted.StronglySorted Z.lt (getCandidates g row col).
Proof.
  intros n Hsq Hrow Hcol. split; [|split].
  - intros Hfilled. unfold getCandidates, holds, read. simpl.
    by rewrite bool_decide_eq_false_2.
  - intros Hzero v. rewrite (elem_of_getCandidates g row col v Hzero). fold n.
    by rewrite (solver_isValidMove_iff n g row col v Hrow Hcol).
  - unfold getCandidates. destruct (holds g row col 0); [|constructor].
    apply StronglySorted_filter, StronglySorted_numbers.
Qed.

(** ** Validation *)

Lemma bind_nil_iff {A B} (f : A → list B) (l : list A) :
  l ≫= f = [] ↔ ∀ x, x ∈ l → f x = [].
Proof.
  split; [|apply SolverFacts.bind_nil_pointwise].
  induction l as [|x l IH]; intros Hnil y Hy; [by apply elem_of_nil in Hy|].
  rewrite bind_cons in Hnil. apply app_eq_nil in Hnil as [Hx Hl].
  apply elem_of_cons in Hy as [->|Hy]; [done|]. by apply IH.
Qed.

(** [findConflicts] reports nothing for a value exactly when the value is in
    range and no other cell of the row, the column or the box holds it. *)
Lemma findConflicts_nil_iff n (g : Grid) row col value :
  row < n → col < n →
  findConflicts g row col value n = [] ↔
  (1 ≤ value ≤ Z.of_nat n)%Z ∧
  ∀ r c, r < n → c < n → (row, col) ≠ (r, c) → same_unit n row col r c →
    cell g r c ≠ Some value.
Proof.
  intros Hrow Hcol. unfold findConflicts.
  destruct ((value <? 1)%Z || (Z.of_nat n <? value)%Z) eqn:Hout.
  { split; [done|]. intros [Hrange _].
    apply orb_true_iff in Hout as [H|H]; apply Z.ltb_lt in H; lia. }
  apply orb_false_iff in Hout as [H1 H2]. apply Z.ltb_ge in H1, H2.
  cbv zeta. unfold holds, read. simpl.
  rewrite !app_nil, !bind_nil_iff.
  assert ((if sqrt_is_whole n
           then seq (row / Nat.sqrt n * Nat.sqrt n) (Nat.sqrt n) ≫= λ r,
                seq (col / Nat.sqrt n * Nat.sqrt n) (Nat.sqrt n) ≫= λ c,
                if (negb (r =? row) || negb (c =? col))
                   && bool_decide (cell g r c = Some value)
                then [mkError duplicate_in_box (mkPosition row col) value
                              (Some (mkPosition r c))]
                else []
           else []) = [] ↔
          (sqrt_is_whole n = true →
           ∀ r c, r < n → c < n → (row, col) ≠ (r, c) → same_box n row col r c →
             cell g r c ≠ Some value)) as ->.
  { destruct (sqrt_is_whole n) eqn:Hw; [|split; [done|done]].
    pose proof (root_pos n row Hw Hrow) as Hb.
    rewrite bind_nil_iff. split.
    - intros Hbox _ r c Hr Hc Hne [Hbr Hbc] Hcell.
      apply box_block in Hbr, Hbc; [|done|done].
      specialize (Hbox r ltac:(apply elem_of_seq; lia)).
      rewrite bind_nil_iff in Hbox.
      specialize (Hbox c ltac:(apply elem_of_seq; lia)).
      rewrite bool_decide_eq_true_2 in Hbox by done.
      destruct (r =? row) eqn:Er, (c =? col) eqn:Ec; simpl in Hbox; try done.
      apply Nat.eqb_eq in Er, Ec. congruence.
    - intros Hfree r Hr. apply elem_of_seq in Hr. apply bind_nil_iff.
      intros c Hc. apply elem_of_seq in Hc.
      destruct (negb (r =? row) || negb (c =? col)) eqn:Hdiff; [simpl|done].
      assert (r / Nat.sqrt n = row / Nat.sqrt n) as Hbr
        by (apply box_block; [done|lia]).
      assert (c / Nat.sqrt n = col / Nat.sqrt n) as Hbc
        by (apply box_block; [done|lia]).
      rewrite bool_decide_eq_false_2; [done|]. apply Hfree; [done| | | |done].
      + by apply (box_inside n row).
      + by apply (box_inside n col).
      + intros [= -> ->]. by rewrite !Nat.eqb_refl in Hdiff. }
  split.
  - intros (Hr & Hc & Hbox). split; [lia|].
    intros r c Hr' Hc' Hne [->|[->|[Hw Hsame]]] Hcell.
    + specialize (Hr c ltac:(apply elem_of_seq; lia)).
      rewrite bool_decide_eq_true_2 in Hr by done.
      destruct (c =? col) eqn:Ec; [|done]. apply Nat.eqb_eq in Ec. congruence.
    + specialize (Hc r ltac:(apply elem_of_seq; lia)).
      rewrite bool_decide_eq_true_2 in Hc by done.
      destruct (r =? row) eqn:Er; [|done]. apply Nat.eqb_eq in Er. congruence.
    + by apply (Hbox Hw r c).
  - intros [_ Hfree]. split; [|split].
    + intros c Hc. apply elem_of_seq in Hc.
      destruct (c =? col) eqn:Ec; [done|]. apply Nat.eqb_neq in Ec. simpl.
      rewrite bool_decide_eq_false_2; [done|].
      apply Hfree; [done|lia|congruence|by left].
    + intros r Hr. apply elem_of_seq in Hr.
      destruct (r =? row) eqn:Er; [done|]. apply Nat.eqb_neq in Er. simpl.
      rewrite bool_decide_eq_false_2; [done|].
      apply Hfree; [lia|done|congruence|right; by left].
    + intros Hw r c Hr Hc Hne Hsame. apply Hfree; try done. right. right. done.
Qed.

(** What [findConflicts] reports for the cell at a position: nothing for an
    empty cell. *)
Definition cell_conflicts (g : Grid) (n : nat) (p : nat * nat) : list ValidationError :=
  match cell g p.1 p.2 with
  | Some value => if (value =? 0)%Z then [] else findConflicts g p.1 p.2 value n
  | None => []
  end.

(** The two lists [validatePuzzle] builds, in closed form: the errors of all
    cells in reading order, and the cells that have an error. *)
Lemma validatePuzzle_lists (g : Grid) :
  let n := length g in
  errors (validatePuzzle g) = positions n ≫= cell_conflicts g n ∧
  conflictingCells (validatePuzzle g)
  = (λ p, mkPosition p.1 p.2) <$> filter (λ p, cell_conflicts g n p ≠ []) (positions n).
Proof.
  intros n.
  pose (body := λ (row : nat) (st : list ValidationError * list Position),
    let '(errors, conflictingCells) := st in λ col : nat,
    match read g row col with
    | Some value =>
      if negb (value =? 0)%Z then
        let conflicts := findConflicts g row col value n in
        (errors ++ conflicts,
         if 0 <? length conflicts
         then conflictingCells ++ [mkPosition row col]
         else conflictingCells)
      else (errors, conflictingCells)
    | None => (errors, conflictingCells)
    end).
  assert (validatePuzzle g
    = let '(errors, conflictingCells) :=
        for_upto n (λ st row, for_upto n (body row) st) ([], []) in
      mkValidation (length errors =? 0) errors (isGridComplete g) conflictingCells)
    as -> by reflexivity.
  assert (∀ row errs cells c,
    body row (errs, cells) c
    = (errs ++ cell_conflicts g n (row, c),
       cells ++ if decide (cell_conflicts g n (row, c) ≠ [])
                then [mkPosition row c] else [])) as Hstep.
  { intros row errs cells c. unfold body, cell_conflicts, read.
    cbn [fst snd contents value_store].
    destruct (cell g row c) as [value|]; [|by rewrite !app_nil_r].
    destruct (value =? 0)%Z; cbn [negb]; [by rewrite !app_nil_r|].
    cbv zeta. destruct (findConflicts g row c value n) as [|e es].
    - by rewrite !app_nil_r.
    - by rewrite decide_True. }
  assert (∀ cols row (st : list ValidationError * list Position),
    foldl (body row) st cols
    = (st.1 ++ ((λ c, (row, c)) <$> cols) ≫= cell_conflicts g n,
       st.2 ++ ((λ p, mkPosition p.1 p.2) <$>
                filter (λ p, cell_conflicts g n p ≠ []) ((λ c, (row, c)) <$> cols))))
    as Hcols.
  { induction cols as [|c cols IH]; intros row [errs cells].
    - simpl. by rewrite !app_nil_r.
    - cbn [foldl]. rewrite Hstep, IH. cbn [fst snd].
      rewrite fmap_cons, bind_cons, filter_cons.
      destruct (decide (cell_conflicts g n (row, c) ≠ [])).
      + rewrite fmap_cons. by rewrite <- !(assoc_L (++)).
      + by rewrite app_nil_r, <- !(assoc_L (++)). }
  assert (∀ rows (st : list ValidationError * list Position),
    foldl (λ st row, for_upto n (body row) st) st rows
    = (st.1 ++ (rows ≫= λ r, (λ c, (r, c)) <$> seq 0 n) ≫= cell_conflicts g n,
       st.2 ++ ((λ p, mkPosition p.1 p.2) <$>
                filter (λ p, cell_conflicts g n p ≠ [])
                       (rows ≫= λ r, (λ c, (r, c)) <$> seq 0 n)))) as Hrows.
  { induction rows as [|r rows IH]; intros [errs cells].
    - simpl. by rewrite !app_nil_r.
    - cbn [foldl]. rewrite IH. unfold for_upto. rewrite Hcols. cbn [fst snd].
      rewrite !bind_cons, bind_app, filter_app, fmap_app.
      by rewrite <- !(assoc_L (++)). }
  assert (positions n = seq 0 n ≫= λ r, (λ c, (r, c)) <$> seq 0 n) as Hpos.
  { unfold positions. apply list_bind_ext; [|done]. intros r.
    generalize (seq 0 n). intros l.
    induction l as [|c l IH]; [done|]. rewrite bind_cons, fmap_cons, IH. done. }
  assert (for_upto n (λ st row, for_upto n (body row) st) ([], [])
    = (positions n ≫= cell_conflicts g n,
       (λ p, mkPosition p.1 p.2) <$>
         filter (λ p, cell_conflicts g n p ≠ []) (positions n))) as ->.
  { unfold for_upto at 1. rewrite Hrows, <- Hpos. done. }
  done.
Qed.

Lemma isGridComplete_iff (g : Grid) :
  isGridComplete g = true ↔ ∀ r c, cell g r c ≠ Some 0%Z.
Proof.
  unfold isGridComplete. simpl. rewrite forallb_forall. split.
  - intros Hall r c Hcell. unfold cell in Hcell.
    destruct (g !! r) as [rw|] eqn:Hr; simpl in Hcell; [|done].
    specialize (Hall rw). rewrite forallb_forall in Hall.
    specialize (Hall ltac:(by eapply list_elem_of_In, list_elem_of_lookup_2) 0%Z
                     ltac:(by eapply list_elem_of_In, list_elem_of_lookup_2)).
    done.
  - intros Hnone rw Hrw. apply list_elem_of_In, list_elem_of_lookup_1 in Hrw as [r Hr].
    apply forallb_forall. intros v Hv.
    apply list_elem_of_In, list_elem_of_lookup_1 in Hv as [c Hc].
    apply negb_true_iff, Z.eqb_neq. intros ->.
    apply (Hnone r c). unfold cell. by rewrite Hr.
Qed.

Lemma isGridComplete_empties n (g : Grid) :
  square n g → isGridComplete g = true ↔ empties n g = 0.
Proof.
  intros Hsq. rewrite isGridComplete_iff. split.
  - intros Hnone. unfold empties. rewrite filter_none; [done|].
    intros [r c] _. apply Hnone.
  - intros Hfull r c Hcell.
    destruct (cell_is_Some_lt n g r c Hsq ltac:(rewrite Hcell; eauto)) as [Hr Hc].
    by apply (empties_zero n g r c).
Qed.

Lemma validatePuzzle_flags (g : Grid) :
  isValid (validatePuzzle g) = (length (errors (validatePuzzle g)) =? 0) ∧
  isComplete (validatePuzzle g) = isGridComplete g.
Proof. unfold validatePuzzle. by destruct (for_upto _ _ _) as [e c]. Qed.

(** X15.  The verdict of [validatePuzzle] on a square grid.  The grid is
    reported valid exactly when every filled cell holds a value in 1..n and
    no value occurs twice in a row, a column or a box; it is reported
    complete exactly when no cell is empty; the conflicting cells are, in
    reading order and without repetition, the filled cells that have an
    error, so there are none exactly when the grid is valid. *)
Theorem validatePuzzle_verdict (g : Grid) :
  let n := length g in
  square n g →
  (isValid (validatePuzzle g) = true ↔ partial n g) ∧
  (isComplete (validatePuzzle g) = true ↔ empties n g = 0) ∧
  (conflictingCells (validatePuzzle g)
   = (λ p, mkPosition p.1 p.2) <$>
       filter (λ p, cell_conflicts g n p ≠ []) (positions n)) ∧
  (∀ r c, r < n → c < n →
     cell_conflicts g n (r, c) ≠ [] ↔
     ∃ v, cell g r c = Some v ∧ v ≠ 0%Z ∧
       ¬ ((1 ≤ v ≤ Z.of_nat n)%Z ∧
          ∀ r' c', r' < n → c' < n → (r, c) ≠ (r', c') → same_unit n r c r' c' →
            cell g r' c' ≠ Some v)) ∧
  (isValid (validatePuzzle g) = true ↔ conflictingCells (validatePuzzle g) = []).
Proof.
  intros n Hsq. destruct (validatePuzzle_lists g) as [Herr Hcells]. fold n in Herr, Hcells.
  assert (isValid (validatePuzzle g) = true ↔
          ∀ p, p ∈ positions n → cell_conflicts g n p = []) as Hvalid.
  { rewrite (proj1 (validatePuzzle_flags g)).
    rewrite Nat.eqb_eq, length_zero_iff_nil, Herr. apply bind_nil_iff. }
  assert (∀ r c, r < n → c < n →
     cell_conflicts g n (r, c) = [] ↔
     ∀ v, cell g r c = Some v → v ≠ 0%Z →
       (1 ≤ v ≤ Z.of_nat n)%Z ∧
       ∀ r' c', r' < n → c' < n → (r, c) ≠ (r', c') → same_unit n r c r' c' →
         cell g r' c' ≠ Some v) as Hcell.
  { intros r c Hr Hc. unfold cell_conflicts. simpl.
    destruct (cell g r c) as [v|]; [|split; [done|done]].
    destruct (v =? 0)%Z eqn:Hv.
    - apply Z.eqb_eq in Hv as ->. split; [|done]. by intros _ v [= <-].
    - apply Z.eqb_neq in Hv. rewrite findConflicts_nil_iff by done. split.
      + by intros H v' [= <-] _.
      + intros H. by apply H. }
  split; [|split; [|split; [|split]]].
  - rewrite Hvalid. split.
    + intros Hnone. split; [done|]. split.
      * intros r c r' c' v Hr Hc Hr' Hc' Hne Hunit Hv Hv'.
        destruct (decide (v = 0%Z)) as [|Hv0]; [done|]. exfalso.
        pose proof (Hnone (r, c) ltac:(by apply elem_of_positions)) as Hok.
        destruct (proj1 (Hcell r c Hr Hc) Hok v Hv Hv0) as [_ Hfree].
        by apply (Hfree r' c').
      * intros r c v Hv.
        destruct (cell_is_Some_lt n g r c Hsq ltac:(rewrite Hv; eauto)) as [Hr Hc].
        destruct (decide (v = 0%Z)) as [->|Hv0]; [lia|].
        pose proof (Hnone (r, c) ltac:(by apply elem_of_positions)) as Hok.
        destruct (proj1 (Hcell r c Hr Hc) Hok v Hv Hv0). lia.
    + intros (_ & Hfree & Hrange) [r c] Hin.
      apply elem_of_positions in Hin as [Hr Hc]. apply Hcell; [done|done|].
      intros v Hv Hv0. split; [pose proof (Hrange r c v Hv); lia|].
      intros r' c' Hr' Hc' Hne Hunit Hv'.
      by pose proof (Hfree r c r' c' v Hr Hc Hr' Hc' Hne Hunit Hv Hv').
  - rewrite (proj2 (validatePuzzle_flags g)). by apply isGridComplete_empties.
  - done.
  - intros r c Hr Hc. split.
    + intros Hconf. unfold cell_conflicts in Hconf. simpl in Hconf.
      destruct (cell g r c) as [v|] eqn:Hv; [|done].
      destruct (v =? 0)%Z eqn:Hv0; [done|]. apply Z.eqb_neq in Hv0.
      exists v. split; [done|]. split; [done|].
      intros Hok. apply Hconf. by apply findConflicts_nil_iff.
    + intros (v & Hv & Hv0 & Hbad) Hnil. apply Hbad.
      by apply (proj1 (Hcell r c Hr Hc) Hnil).
  - rewrite Hvalid, Hcells. split.
    + intros Hnone. rewrite filter_none; [done|]. intros p Hp Hbad. by apply Hbad, Hnone.
    + intros Hnil p Hp. apply fmap_nil_inv in Hnil.
      destruct (decide (cell_conflicts g n p = [])) as [|Hbad]; [done|].
      exfalso. eapply filter_nil_not_elem_of; [exact Hnil| |exact Hp]. done.
Qed.

(** ** Backtracking *)

Lemma solver_partial_fill size (g : Grid) row col num :
  partial size g →
  row < size → col < size → cell g row col = Some 0%Z →
  (1 ≤ num ≤ Z.of_nat size)%Z → isValidMove g row col num size = true →
  partial size (set_cell g row col num).
Proof.
  intros (Hsq & Hfree & Hrange) Hrow Hcol Hzero Hnum Hvalid.
  pose proof (proj1 (solver_isValidMove_iff size g row col num Hrow Hcol) Hvalid)
    as Habsent.
  assert (is_Some (cell g row col)) as Hsome by (rewrite Hzero; eauto).
  split; [by apply set_cell_square|]. split.
  - intros r c r' c' v Hr Hc Hr' Hc' Hne Hunit Hv Hv'.
    destruct (decide ((row, col) = (r, c))) as [[= <- <-]|Hne1];
      destruct (decide ((row, col) = (r', c'))) as [[= <- <-]|Hne2].
    + done.
    + rewrite cell_set_cell_eq in Hv by done.
      rewrite cell_set_cell_ne in Hv' by done.
      exfalso. apply (Habsent r' c'); [done|done|done|congruence].
    + rewrite cell_set_cell_eq in Hv' by done.
      rewrite cell_set_cell_ne in Hv by done.
      exfalso. apply (Habsent r c); [done|done| |congruence].
      by apply same_unit_sym.
    + rewrite cell_set_cell_ne in Hv, Hv' by done. eauto.
  - intros r c v. destruct (decide ((row, col) = (r, c))) as [[= <- <-]|Hne].
    + rewrite cell_set_cell_eq by done. intros [= <-]. lia.
    + rewrite cell_set_cell_ne by done. apply Hrange.
Qed.

Lemma solver_completion_move_valid size (s g : Grid) row col v :
  completion size g s →
  row < size → col < size → cell g row col = Some 0%Z →
  cell s row col = Some v →
  isValidMove g row col v size = true.
Proof.
  intros [(Hsqs & Hfilled & Hfree) [_ Hcells]] Hr Hc Hzero Hv.
  destruct (Hfilled row col Hr Hc) as (v' & Hv' & Hvrange).
  assert (v' = v) as -> by congruence.
  apply solver_isValidMove_iff; [done|done|].
  intros r' c' Hr' Hc' Hunit Hcell.
  destruct (Hcells r' c' Hr' Hc') as [Hsame|Hblankcell].
  - destruct (decide ((row, col) = (r', c'))) as [[= <- <-]|Hne].
    + rewrite Hzero in Hcell. injection Hcell as <-. lia.
    + rewrite Hsame in Hcell.
      pose proof (Hfree row col r' c' v Hr Hc Hr' Hc' Hne Hunit Hv Hcell). lia.
  - rewrite Hblankcell in Hcell. injection Hcell as <-. lia.
Qed.

Section try_values.
Context (rec : Grid → option (Grid * bool)).
Context (row col size : nat) (g : Grid).
Context (Hzero : cell g row col = Some 0%Z).
Context (Hrestore : ∀ num g',
  rec (set_cell g row col num) = Some (g', false) → g' = set_cell g row col num).

Lemma try_values_spec nums g' b :
  try_values rec row col size nums g = Some (g', b) →
  if b then
    ∃ num, num ∈ nums ∧ isValidMove g row col num size = true ∧
      rec (set_cell g row col num) = Some (g', true)
  else g' = g.
Proof using Hzero Hrestore.
  induction nums as [|num nums IH]; simpl.
  - by intros [= <- <-].
  - destruct (isValidMove g row col num size) eqn:Hvalid.
    + destruct (rec (set_cell g row col num)) as [[g1 [|]]|] eqn:Hrec; [| |done].
      * intros [= <- <-]. exists num. split; [left|done].
      * apply Hrestore in Hrec as ->. rewrite set_cell_undo by done.
        intros H. apply IH in H. destruct b; [|done].
        destruct H as (num' & Hin & H). exists num'. split; [by right|done].
    + intros H. apply IH in H. destruct b; [|done].
      destruct H as (num' & Hin & H). exists num'. split; [by right|done].
Qed.

Lemma try_values_complete nums num :
  (∀ num, num ∈ nums → is_Some (rec (set_cell g row col num))) →
  num ∈ nums → isValidMove g row col num size = true →
  (∃ g', rec (set_cell g row col num) = Some (g', true)) →
  ∃ g', try_values rec row col size nums g = Some (g', true).
Proof using Hzero Hrestore.
  intros Htotal Hin Hvalid Hgood. revert Htotal.
  induction nums as [|num' nums IH]; intros Htotal; simpl.
  - by apply elem_of_nil in Hin.
  - destruct (decide (num' = num)) as [->|Hne].
    + rewrite Hvalid. destruct Hgood as (g' & ->). eauto.
    + apply elem_of_cons in Hin as [->|Hin]; [done|].
      assert (∃ g', try_values rec row col size nums g = Some (g', true)) as IH'.
      { apply IH; [done|]. intros n Hn. apply Htotal. by right. }
      destruct (isValidMove g row col num' size); [|done].
      destruct (Htotal num' ltac:(left)) as [[g1 [|]] Hrec]; rewrite Hrec.
      * eauto.
      * apply Hrestore in Hrec as ->. rewrite set_cell_undo by done. done.
Qed.

Lemma try_values_nothing nums :
  (∀ num, num ∈ nums →
     rec (set_cell g row col num) = Some (set_cell g row col num, false)) →
  try_values rec row col size nums g = Some (g, false).
Proof using Hzero.
  induction nums as [|num nums IH]; intros Hrec; simpl; [done|].
  assert (try_values rec row col size nums g = Some (g, false)) as IH'
    by (apply IH; intros n Hn; apply Hrec; by right).
  destruct (isValidMove g row col num size); [|done].
  rewrite (Hrec num) by left. by rewrite set_cell_undo.
Qed.
End try_values.

Lemma solveWithBacktracking_restores fuel :
  ∀ (g : Grid) size depth g',
  solveWithBacktracking fuel g size depth = Some (g', false) → g' = g.
Proof.
  induction fuel as [|fuel IH]; intros g size depth g'; simpl; [done|].
  destruct (81 <? depth); [by intros [= <-]|].
  destruct (findEmptyCell g size) as [[row col]|] eqn:Hfind; [|done].
  apply SolverFacts.solver_findEmptyCell_Some in Hfind as (_ & _ & Hzero).
  intros H. apply (try_values_spec _ _ _ _ _ Hzero) in H; [done|].
  intros num g0. apply IH.
Qed.

Lemma numbers_range size num :
  num ∈ (Z.of_nat <$> seq 1 size) ↔ (1 ≤ num ≤ Z.of_nat size)%Z.
Proof.
  rewrite list_elem_of_fmap. split.
  - intros (k & -> & Hk). apply elem_of_seq in Hk. lia.
  - intros Hnum. exists (Z.to_nat num). split; [lia|]. apply elem_of_seq. lia.
Qed.

Lemma solveWithBacktracking_sound fuel :
  ∀ (g : Grid) size depth g',
  partial size g →
  solveWithBacktracking fuel g size depth = Some (g', true) → completion size g g'.
Proof.
  induction fuel as [|fuel IH]; intros g size depth g' Hpart; simpl; [done|].
  destruct (81 <? depth); [done|].
  pose proof Hpart as (Hsq & _ & _).
  destruct (findEmptyCell g size) as [[row col]|] eqn:Hfind.
  - apply SolverFacts.solver_findEmptyCell_Some in Hfind as (Hr & Hc & Hzero).
    intros H. apply (try_values_spec _ _ _ _ _ Hzero) in H.
    + destruct H as (num & Hin & Hvalid & Hrec). apply numbers_range in Hin.
      apply IH in Hrec; [|by apply solver_partial_fill].
      apply (completion_of_fill size g g' row col num); try done. lia.
    + intros num g0. apply solveWithBacktracking_restores.
  - intros [= <-]. apply SolverFacts.solver_findEmptyCell_None in Hfind.
    split; [by apply partial_full|by apply blanked_refl].
Qed.

Lemma solveWithBacktracking_complete fuel :
  ∀ (g s : Grid) size depth,
  completion size g s → empties size g + depth ≤ 81 → 83 ≤ fuel + depth → 1 ≤ fuel →
  ∃ g', solveWithBacktracking fuel g size depth = Some (g', true).
Proof.
  induction fuel as [|fuel IH]; intros g s size depth Hcomp Hdeep Hfuel Hpos; [lia|].
  simpl. replace (81 <? depth) with false by (symmetry; apply Nat.ltb_ge; lia).
  destruct (findEmptyCell g size) as [[row col]|] eqn:Hfind; [|eauto].
  apply SolverFacts.solver_findEmptyCell_Some in Hfind as (Hr & Hc & Hzero).
  pose proof Hcomp as [(_ & Hfilled & _) _].
  destruct (Hfilled row col Hr Hc) as (v & Hv & Hvrange).
  assert (empties size (set_cell g row col v) + (depth + 1) ≤ 81) as Hdeep'.
  { rewrite (empties_fill size g row col v) in Hdeep by (done || lia). lia. }
  apply (try_values_complete _ _ _ _ _ Hzero) with (num := v).
  - intros num g0. apply solveWithBacktracking_restores.
  - intros num Hin. apply SolverFrame.solveWithBacktracking_total; lia.
  - by apply numbers_range.
  - by apply (solver_completion_move_valid size s).
  - apply (IH _ s); [by apply completion_fill|done|lia|lia].
Qed.

Lemma solveWithBacktracking_depth_limit fuel :
  ∀ (g : Grid) size depth,
  81 < empties size g + depth → 83 ≤ fuel + depth → 1 ≤ fuel →
  solveWithBacktracking fuel g size depth = Some (g, false).
Proof.
  induction fuel as [|fuel IH]; intros g size depth Hdeep Hfuel Hpos; [lia|].
  simpl. destruct (81 <? depth) eqn:Hdepth; [done|]. apply Nat.ltb_ge in Hdepth.
  destruct (findEmptyCell g size) as [[row col]|] eqn:Hfind.
  - apply SolverFacts.solver_findEmptyCell_Some in Hfind as (Hr & Hc & Hzero).
    apply try_values_nothing; [done|]. intros num Hin. apply numbers_range in Hin.
    apply IH; [|lia|lia].
    rewrite (empties_fill size g row col num) in Hdeep by (done || lia). lia.
  - apply SolverFacts.solver_findEmptyCell_None in Hfind. lia.
Qed.

(** X16.  [solveWithBacktracking] on a grid in a legal state, for any size
    (boxes are checked only when the size has a whole root).  It returns;
    when it reports success the grid it leaves is complete, legal and agrees
    with the given cells, and when it reports failure the grid is as it was.
    With at most 81 empty cells it succeeds exactly when a completion
    exists; with more than 81 it always fails, because the recursion gives
    up below depth 82. *)
Theorem solveWithBacktracking_decides size (g : Grid) :
  partial size g →
  ∃ g' b, solveWithBacktracking depth_fuel g size 0 = Some (g', b) ∧
    (if b then completion size g g' else g' = g) ∧
    (empties size g ≤ 81 → (b = true ↔ ∃ s, completion size g s)) ∧
    (81 < empties size g → b = false).
Proof.
  intros Hpart.
  destruct (SolverFrame.solveWithBacktracking_total depth_fuel g size 0)
    as [[g' b] Hrun]; [unfold depth_fuel; lia|unfold depth_fuel; lia|].
  exists g', b. split; [done|].
  assert (if b then completion size g g' else g' = g) as Hres.
  { destruct b; [by eapply solveWithBacktracking_sound|
                 by eapply solveWithBacktracking_restores]. }
  split; [done|]. split.
  - intros Hfew. split.
    + intros ->. by exists g'.
    + intros [s Hs].
      destruct (solveWithBacktracking_complete depth_fuel g s size 0 Hs)
        as [g1 Hyes]; [lia|unfold depth_fuel; lia|unfold depth_fuel; lia|].
      congruence.
  - intros Hmany.
    rewrite (solveWithBacktracking_depth_limit depth_fuel g size 0) in Hrun;
      [|lia|unfold depth_fuel; lia|unfold depth_fuel; lia].
    congruence.
Qed.

(** ** The uniqueness check within its budgets *)

(** No reading from now on lies beyond the budget. *)
Definition in_budget (clock : Clock) (startTime timeout : Z) : Prop :=
  ∀ k, ticks clock ≤ k → (readings clock k - startTime ≤ timeout)%Z.

(** The same clock, read some more times. *)
Definition later (clock clock' : Clock) : Prop :=
  readings clock' = readings clock ∧ ticks clock ≤ ticks clock'.

Lemma later_refl clock : later clock clock.
Proof. by split. Qed.

Lemma later_trans c1 c2 c3 : later c1 c2 → later c2 c3 → later c1 c3.
Proof. intros [H1 H2] [H3 H4]. split; [congruence|lia]. Qed.

Lemma later_now clock : later clock (now clock).2.
Proof. split; [done|simpl; lia]. Qed.

Lemma in_budget_later clock clock' startTime timeout :
  later clock clock' → in_budget clock startTime timeout →
  in_budget clock' startTime timeout.
Proof. intros [Hr Ht] Hb k Hk. rewrite Hr. apply Hb. lia. Qed.

Lemma in_budget_now clock startTime timeout :
  in_budget clock startTime timeout →
  (timeout <? (now clock).1 - startTime)%Z = false.
Proof. intros Hb. apply Z.ltb_ge. simpl. by apply Hb. Qed.

Section enumerate_values_exact.
Context (rec : Grid → list Grid → Clock → option (Grid * list Grid * Clock)).
Context (row col size maxSolutions : nat) (startTime timeout : Z) (g : Grid).
Context (Hsq : square size g).
Context (Hrow : row < size) (Hcol : col < size).
Context (Hzero : cell g row col = Some 0%Z).
Context (Hrec : ∀ num sols clock, (1 ≤ num ≤ Z.of_nat size)%Z →
  isValidMove g row col num size = true →
  in_budget clock startTime timeout →
  ∃ sols' clock',
    rec (set_cell g row col num) sols clock
      = Some (set_cell g row col num, sols', clock') ∧
    records maxSolutions (completion size (set_cell g row col num)) sols sols' ∧
    later clock clock').

Lemma enumerate_values_exact nums :
  NoDup nums → (∀ num, num ∈ nums → (1 ≤ num ≤ Z.of_nat size)%Z) →
  ∀ sols clock, in_budget clock startTime timeout →
  ∃ sols' clock',
    enumerate_values rec row col size maxSolutions startTime timeout nums g sols clock
      = Some (g, sols', clock') ∧
    records maxSolutions
      (λ s, completion size g s ∧ ∃ v, v ∈ nums ∧ cell s row col = Some v)
      sols sols' ∧
    later clock clock'.
Proof using Hsq Hrow Hcol Hzero Hrec.
  induction nums as [|num nums IH]; intros Hnd Hrange sols clock Hbudget; simpl.
  { exists sols, clock. split; [done|]. split; [|apply later_refl].
    exists []. rewrite app_nil_r.
    split; [done|]. split; [apply NoDup_nil_2|]. split.
    - intros s Hin. by apply elem_of_nil in Hin.
    - intros _ s (_ & v & Hin & _). by apply elem_of_nil in Hin. }
  apply NoDup_cons in Hnd as [Hfresh Hnd].
  assert (∀ n, n ∈ nums → (1 ≤ n ≤ Z.of_nat size)%Z) as Hrange'
    by (intros n Hn; apply Hrange; by right).
  assert (1 ≤ num ≤ Z.of_nat size)%Z as Hnum by (apply Hrange; left).
  specialize (IH Hnd Hrange').
  destruct (isValidMove g row col num size) eqn:Hvalid.
  - destruct (Hrec num sols clock Hnum Hvalid Hbudget)
      as (sols1 & clock1 & -> & (new1 & -> & Hnd1 & Hgood1 & Hall1) & Hlater1).
    change (store (set_cell g row col num) row col 0)
      with (set_cell (set_cell g row col num) row col 0).
    rewrite set_cell_undo by done.
    assert (∀ s, s ∈ new1 → completion size g s ∧ cell s row col = Some num) as Hgood1'.
    { intros s Hin. apply (completion_of_fill size g s row col num); try done; [lia|].
      by apply Hgood1. }
    destruct (maxSolutions <=? length (sols ++ new1)) eqn:Hcap.
    + apply Nat.leb_le in Hcap. exists (sols ++ new1), clock1.
      split; [done|]. split; [|done].
      exists new1. split; [done|]. split; [done|]. split.
      * intros s Hin. destruct (Hgood1' s Hin) as [Hc Hv].
        split; [done|]. exists num. split; [left|done].
      * intros Hlt. lia.
    + apply Nat.leb_gt in Hcap.
      pose proof (in_budget_later _ _ _ _ Hlater1 Hbudget) as Hbudget1.
      pose proof (in_budget_now clock1 startTime timeout Hbudget1) as Hnow.
      simpl in Hnow. rewrite Hnow.
      change (mkClock (readings clock1) (S (ticks clock1))) with (now clock1).2.
      destruct (IH (sols ++ new1) (now clock1).2)
        as (sols' & clock' & -> & (new2 & -> & Hnd2 & Hgood2 & Hall2) & Hlater2).
      { eapply in_budget_later; [apply later_now|done]. }
      exists ((sols ++ new1) ++ new2), clock'. split; [done|]. split.
      2: { eapply later_trans; [exact Hlater1|].
           eapply later_trans; [apply later_now|done]. }
      exists (new1 ++ new2). split; [by rewrite (assoc_L (++))|]. split; [|split].
      * apply NoDup_app. split; [done|]. split; [|done].
        intros s Hin1 Hin2. destruct (Hgood1' s Hin1) as [_ Hv1].
        destruct (Hgood2 s Hin2) as (_ & v & Hv & Hv2).
        assert (v = num) as -> by congruence. done.
      * intros s Hin. apply elem_of_app in Hin as [Hin|Hin].
        -- destruct (Hgood1' s Hin) as [Hc Hv].
           split; [done|]. exists num. split; [left|done].
        -- destruct (Hgood2 s Hin) as (Hc & v & Hv & Hv2).
           split; [done|]. exists v. split; [by right|done].
      * intros Hlt s (Hc & v & Hv & Hcell). apply elem_of_app.
        apply elem_of_cons in Hv as [->|Hv].
        -- left. apply Hall1; [rewrite length_app in *; lia|].
           by apply completion_fill.
        -- right. apply Hall2; [done|]. split; [done|]. by exists v.
  - destruct (IH sols clock Hbudget)
      as (sols' & clock' & -> & (new & -> & Hnd2 & Hgood2 & Hall2) & Hlater).
    exists (sols ++ new), clock'. split; [done|]. split; [|done].
    exists new. split; [done|]. split; [done|]. split.
    + intros s Hin. destruct (Hgood2 s Hin) as (Hc & v & Hv & Hv2).
      split; [done|]. exists v. split; [by right|done].
    + intros Hlt s (Hc & v & Hv & Hcell).
      apply elem_of_cons in Hv as [->|Hv].
      * rewrite (solver_completion_move_valid size s g row col num) in Hvalid; done.
      * apply Hall2; [done|]. split; [done|]. by exists v.
Qed.
End enumerate_values_exact.

Lemma findAllSolutionsWithTimeout_exact size maxSolutions startTime timeout fuel :
  ∀ (g : Grid) sols depth clock,
  partial size g → empties size g + depth ≤ 81 → 83 ≤ fuel + depth → 1 ≤ fuel →
  in_budget clock startTime timeout →
  ∃ sols' clock',
    findAllSolutionsWithTimeout fuel g size sols maxSolutions startTime timeout
                                depth clock = Some (g, sols', clock') ∧
    records maxSolutions (completion size g) sols sols' ∧
    later clock clock'.
Proof.
  induction fuel as [|fuel IH];
    intros g sols depth clock Hpart Hdeep Hfuel Hpos Hbudget; [lia|].
  simpl. destruct (maxSolutions <=? length sols) eqn:Hcap; simpl.
  { apply Nat.leb_le in Hcap. exists sols, clock. split; [done|].
    split; [|apply later_refl]. exists [].
    rewrite app_nil_r. split; [done|]. split; [apply NoDup_nil_2|]. split.
    - intros s Hin. by apply elem_of_nil in Hin.
    - intros Hlt. lia. }
  replace (81 <? depth) with false by (symmetry; apply Nat.ltb_ge; lia).
  pose proof (in_budget_now clock startTime timeout Hbudget) as Hnow.
  simpl in Hnow. rewrite Hnow.
  set (clock1 := mkClock (readings clock) (S (ticks clock))).
  assert (later clock clock1) as Hlater1 by (split; [done|simpl; lia]).
  pose proof (in_budget_later _ _ _ _ Hlater1 Hbudget) as Hbudget1.
  pose proof Hpart as (Hsq & _ & _).
  destruct (findEmptyCell g size) as [[row col]|] eqn:Hfind.
  - apply SolverFacts.solver_findEmptyCell_Some in Hfind as (Hr & Hc & Hzero).
    destruct (enumerate_values_exact
      (λ g s c, findAllSolutionsWithTimeout fuel g size s maxSolutions
                  startTime timeout (depth + 1) c)
      row col size maxSolutions startTime timeout g Hsq Hr Hc Hzero) with
      (nums := Z.of_nat <$> seq 1 size) (sols := sols) (clock := clock1)
      as (sols' & clock' & Hrun & (new & -> & Hnd & Hgood & Hall) & Hlater).
    + intros num sols0 clock0 Hnum Hvalid Hb0. apply IH; [|  |lia|lia|done].
      * by apply solver_partial_fill.
      * rewrite (empties_fill size g row col num) in Hdeep by (done || lia). lia.
    + apply (NoDup_fmap_2 _), NoDup_seq.
    + intros num Hin. by apply numbers_range.
    + done.
    + exists (sols ++ new), clock'. split; [done|].
      split; [|by eapply later_trans].
      exists new. split; [done|]. split; [done|]. split.
      * intros s Hin. by apply Hgood.
      * intros Hlt s Hs. apply Hall; [done|]. split; [done|].
        destruct Hs as [(_ & Hfilled & _) _].
        destruct (Hfilled row col Hr Hc) as (v & Hv & Hvr).
        exists v. split; [|done]. by apply numbers_range.
  - apply SolverFacts.solver_findEmptyCell_None in Hfind.
    exists (sols ++ [g]), clock1. split; [done|]. split; [|done].
    exists [g]. split; [done|].
    split; [apply NoDup_singleton|]. split.
    + intros s Hin. apply list_elem_of_singleton in Hin as ->.
      split; [by apply partial_full|by apply blanked_refl].
    + intros _ s Hs. apply list_elem_of_singleton. by apply (completion_full size).
Qed.

(** X17.  [hasUniqueSolution] within its budgets.  On a grid in a legal
    state with at most 81 empty cells, read against a clock that never leaves
    the 5000 ms budget, the answer is true exactly when the grid has one and
    only one completion. *)
Theorem hasUniqueSolution_exact (g : Grid) clock :
  partial (length g) g → empties (length g) g ≤ 81 →
  in_budget (now clock).2 (now clock).1 5000 →
  ∃ b clock', hasUniqueSolution g clock = Some (b, clock') ∧
    (b = true ↔
     ∃ s, completion (length g) g s ∧ ∀ s', completion (length g) g s' → s' = s).
Proof.
  intros Hpart Hfew Hbudget. set (n := length g) in *.
  unfold hasUniqueSolution. fold n.
  destruct (now clock) as [startTime clock1]. simpl in Hbudget.
  destruct (findAllSolutionsWithTimeout_exact n 2 startTime 5000 depth_fuel g [] 0
              clock1 Hpart) as (sols & clock' & -> & (new & Heq & Hnd & Hgood & Hall) & _);
    [lia|unfold depth_fuel; lia|unfold depth_fuel; lia|done|].
  simpl in Heq. subst sols.
  exists (length new =? 1), clock'. split; [done|].
  rewrite Nat.eqb_eq. split.
  - intros Hone. destruct new as [|s [|]]; simpl in Hone; try lia.
    exists s. split; [apply Hgood; left|].
    intros s' Hs'. apply list_elem_of_singleton. apply Hall; [simpl; lia|done].
  - intros (s & Hs & Huniq).
    destruct new as [|s1 [|s2 rest]]; simpl.
    + specialize (Hall ltac:(simpl; lia) s Hs). by apply elem_of_nil in Hall.
    + done.
    + apply NoDup_cons in Hnd as [Hne _]. exfalso. apply Hne.
      rewrite (Huniq s1) by (apply Hgood; left).
      rewrite (Huniq s2) by (apply Hgood; right; left). left.
Qed.

Lemma findAllSolutionsWithTimeout_full fuel (g : Grid) size sols maxSolutions
    startTime timeout depth clock :
  length sols < maxSolutions → depth ≤ 81 →
  (readings clock (ticks clock) - startTime ≤ timeout)%Z →
  empties size g = 0 →
  findAllSolutionsWithTimeout (S fuel) g size sols maxSolutions startTime timeout
                              depth clock
  = Some (g, sols ++ [g], mkClock (readings clock) (S (ticks clock))).
Proof.
  intros Hcap Hdepth Hbudget Hfull. cbn [findAllSolutionsWithTimeout].
  replace (maxSolutions <=? length sols) with false
    by (symmetry; apply Nat.leb_gt; lia).
  replace (81 <? depth) with false by (symmetry; apply Nat.ltb_ge; lia).
  unfold now. cbn [orb].
  replace (timeout <? _)%Z with false by (symmetry; by apply Z.ltb_ge).
  destruct (findEmptyCell g size) as [[row col]|] eqn:Hfind; [|done].
  apply SolverFacts.solver_findEmptyCell_Some in Hfind as (Hr & Hc & Hzero).
  by apply (empties_zero _ _ _ _ Hfull Hr Hc) in Hzero.
Qed.

(** X18.  A grid without an empty cell is reported to have a unique
    solution as soon as the first budget check passes, whether or not the
    grid is legal: the enumeration records a full grid as it finds it. *)
Theorem hasUniqueSolution_full_grid (g : Grid) clock :
  empties (length g) g = 0 →
  (readings clock (S (ticks clock)) - readings clock (ticks clock) ≤ 5000)%Z →
  hasUniqueSolution g clock
  = Some (true, mkClock (readings clock) (S (S (ticks clock)))).
Proof.
  intros Hfull Hbudget. unfold hasUniqueSolution, now, depth_fuel.
  rewrite findAllSolutionsWithTimeout_full; [done|simpl; lia|lia|done|done].
Qed.

(** ** The logical techniques make forced moves only *)

(** [g'] is a legal state reached from [g] by filling empty cells, and every
    completion of [g] is still a completion of [g']. *)
Definition refines (n : nat) (g g' : Grid) : Prop :=
  partial n g →
  partial n g' ∧ blanked n g' g ∧ ∀ s, completion n g s → completion n g' s.

Lemma blanked_trans n (g1 g2 g3 : Grid) :
  blanked n g3 g2 → blanked n g2 g1 → blanked n g3 g1.
Proof.
  intros [_ H32] [Hsq H21]. split; [done|]. intros r c Hr Hc.
  destruct (H21 r c Hr Hc) as [Heq|Hz]; [|by right].
  rewrite Heq. apply H32; done.
Qed.

Global Instance refines_preorder n : PreOrder (refines n).
Proof.
  split.
  - intros g Hpart. split; [done|]. split; [|done].
    apply blanked_refl. by destruct Hpart.
  - intros g1 g2 g3 H12 H23 Hpart.
    destruct (H12 Hpart) as (Hp2 & Hb2 & Hc2).
    destruct (H23 Hp2) as (Hp3 & Hb3 & Hc3).
    split; [done|]. split; [by eapply blanked_trans|]. auto.
Qed.

Lemma refines_fill n (g : Grid) r c v :
  r < n → c < n → cell g r c = Some 0%Z → (1 ≤ v ≤ Z.of_nat n)%Z →
  isValidMove g r c v n = true →
  (∀ s, completion n g s → cell s r c = Some v) →
  refines n g (set_cell g r c v).
Proof.
  intros Hr Hc Hzero Hv Hvalid Hforced Hpart. split; [by apply solver_partial_fill|].
  split.
  - destruct Hpart as (Hsq & _). split; [done|]. intros r' c' Hr' Hc'.
    destruct (decide ((r, c) = (r', c'))) as [[= <- <-]|Hne]; [by right|].
    left. by rewrite cell_set_cell_ne.
  - intros s Hs. apply completion_fill; [done|]. by apply Hforced.
Qed.

Lemma foldl_rel {A B} (R : relation A) `{!PreOrder R} (f : A → B → A)
    (l : list B) (a : A) :
  (∀ a b, b ∈ l → R a (f a b)) → R a (foldl f a l).
Proof.
  revert a. induction l as [|x l IH]; intros a Hf; simpl; [reflexivity|].
  etransitivity; [apply Hf; left|]. apply IH. intros a' b Hb. apply Hf. by right.
Qed.

Lemma solved_partial n (s : Grid) : solved n s → partial n s.
Proof.
  intros (Hsq & Hfilled & Hfree). split; [done|]. split; [done|].
  intros r c v Hv.
  destruct (cell_is_Some_lt n s r c Hsq ltac:(rewrite Hv; eauto)) as [Hr Hc].
  destruct (Hfilled r c Hr Hc) as (v' & Hv' & Hrange).
  assert (v' = v) as -> by congruence. lia.
Qed.

Lemma length_filter_le {A} (P Q : A → Prop) `{!∀ x, Decision (P x)}
    `{!∀ x, Decision (Q x)} (l : list A) :
  (∀ x, x ∈ l → P x → Q x) → length (filter P l) ≤ length (filter Q l).
Proof.
  induction l as [|x l IH]; intros Himp; [done|]. rewrite !filter_cons.
  assert (length (filter P l) ≤ length (filter Q l)) as Hrest
    by (apply IH; intros y Hy; apply Himp; by right).
  pose proof (Himp x ltac:(left)) as Hx.
  destruct (decide (P x)), (decide (Q x)); simpl; try tauto; lia.
Qed.

Lemma blanked_empties n (g g' : Grid) : blanked n g' g → empties n g' ≤ empties n g.
Proof.
  intros [_ Hcells]. unfold empties. apply length_filter_le.
  intros [r c] Hin Hz. apply elem_of_positions in Hin as [Hr Hc]. simpl in *.
  destruct (Hcells r c Hr Hc) as [Heq|?]; [congruence|done].
Qed.

(** One scan of a logical technique, from state [st] to state [st'] (grid,
    recorded steps, progress flag): the grid is refined, every recorded step
    accounts for one filled cell, and the flag is raised exactly when a cell
    was filled. *)
Definition advances (n : nat) (st st' : Grid * list SolverStep * bool) : Prop :=
  partial n st.1.1 →
  partial n st'.1.1 ∧ blanked n st'.1.1 st.1.1 ∧
  (∀ s, completion n st.1.1 s → completion n st'.1.1 s) ∧
  empties n st'.1.1 + length st'.1.2 = empties n st.1.1 + length st.1.2 ∧
  (st'.2 = false → st.2 = false ∧ st'.1 = st.1) ∧
  (st'.2 = true → st.2 = true ∨ empties n st'.1.1 < empties n st.1.1).

Global Instance advances_preorder n : PreOrder (advances n).
Proof.
  split.
  - intros [[g steps] progress] Hpart. simpl in *. split; [done|].
    split; [apply blanked_refl; by destruct Hpart|]. split; [done|].
    split; [done|]. split; [done|]. by left.
  - intros [[g1 s1] p1] [[g2 s2] p2] [[g3 s3] p3] H12 H23 Hpart. simpl in *.
    destruct (H12 Hpart) as (Hp2 & Hb2 & Hc2 & Hn2 & Hq2 & Ht2).
    destruct (H23 Hp2) as (Hp3 & Hb3 & Hc3 & Hn3 & Hq3 & Ht3). simpl in *.
    pose proof (blanked_empties n g1 g2 Hb2). pose proof (blanked_empties n g2 g3 Hb3).
    split; [done|]. split; [by eapply blanked_trans|]. split; [auto|].
    split; [lia|]. split.
    + intros Hp. destruct (Hq3 Hp) as [-> [= -> ->]]. by apply Hq2.
    + intros Hp. destruct (Ht3 Hp) as [->|Hlt]; [|right; lia].
      destruct (Ht2 eq_refl) as [->|Hlt]; [by left|right; lia].
Qed.

Lemma advances_fill n (g : Grid) steps progress step r c v :
  r < n → c < n → cell g r c = Some 0%Z → (1 ≤ v ≤ Z.of_nat n)%Z →
  isValidMove g r c v n = true →
  (∀ s, completion n g s → cell s r c = Some v) →
  advances n (g, steps, progress) (set_cell g r c v, steps ++ [step], true).
Proof.
  intros Hr Hc Hzero Hv Hvalid Hforced Hpart. simpl in *.
  destruct (refines_fill n g r c v Hr Hc Hzero Hv Hvalid Hforced Hpart)
    as (Hp & Hb & Hcompl).
  pose proof (empties_fill n g r c v Hr Hc Hzero ltac:(lia)) as Hcount.
  split; [done|]. split; [done|]. split; [done|].
  rewrite length_app. simpl. split; [lia|]. split; [done|]. intros _. right. lia.
Qed.

(** The flag of an inner scan, started afresh, joins the flag so far. *)
Lemma advances_join n (g g1 : Grid) steps steps1 progress p :
  advances n (g, steps, false) (g1, steps1, p) →
  advances n (g, steps, progress) (g1, steps1, p || progress).
Proof.
  intros Hadv Hpart. destruct (Hadv Hpart) as (Hp & Hb & Hc & Hn & Hq & Ht).
  simpl in *. split; [done|]. split; [done|]. split; [done|]. split; [done|].
  split.
  - intros Hflag. apply orb_false_iff in Hflag as [-> ->].
    destruct (Hq eq_refl) as [_ Heq]. done.
  - intros Hflag. destruct progress; [by left|]. rewrite orb_false_r in Hflag.
    destruct (Ht Hflag) as [?|?]; [done|by right].
Qed.

(** A cell with a single candidate holds that candidate in every
    completion. *)
Lemma applyNakedSingles_advances n (g : Grid) steps :
  advances n (g, steps, false) (applyNakedSingles g n steps).
Proof.
  unfold applyNakedSingles, for_upto.
  apply (foldl_rel (advances n)). intros st row Hrow. apply elem_of_seq in Hrow.
  apply (foldl_rel (advances n)).
  intros [[grid stp] progress] col Hcol. apply elem_of_seq in Hcol.
  unfold holds, read. simpl. case_bool_decide as Hzero; [|reflexivity].
  destruct (getCandidates grid row col) as [|value [|]] eqn:Hcand;
    simpl; [reflexivity| |reflexivity].
  intros Hpart. pose proof Hpart as ([Hlen _] & _). simpl in Hlen. revert Hpart.
  assert (value ∈ getCandidates grid row col) as Hin by (rewrite Hcand; left).
  apply elem_of_getCandidates in Hin as [Hrange Hvalid]; [|done].
  rewrite Hlen in Hrange, Hvalid.
  apply advances_fill; try done; [lia|lia|].
  intros s Hs. pose proof Hs as [(_ & Hfilled & _) _].
  destruct (Hfilled row col ltac:(lia) ltac:(lia)) as (v & Hv & Hvr).
  assert (v ∈ getCandidates grid row col) as Hv'.
  { apply elem_of_getCandidates; [done|]. rewrite Hlen. split; [done|].
    apply (solver_completion_move_valid n s); try done; lia. }
  rewrite Hcand in Hv'. apply list_elem_of_singleton in Hv' as ->. done.
Qed.

(** The cells of one row, one column or one box. *)
Definition house (n : nat) (unit : list (nat * nat)) : Prop :=
  NoDup unit ∧ length unit = n ∧
  (∀ p, p ∈ unit → p.1 < n ∧ p.2 < n) ∧
  (∀ p q, p ∈ unit → q ∈ unit → same_unit n p.1 p.2 q.1 q.2).

(** In a complete, legal grid every number occurs in every house. *)
Lemma house_holds_every_number n unit (s : Grid) num :
  house n unit → solved n s → (1 ≤ num ≤ Z.of_nat n)%Z →
  ∃ p, p ∈ unit ∧ cell s p.1 p.2 = Some num.
Proof.
  intros (Hnd & Hlen & Hin & Hsame) (_ & Hfilled & Hfree) Hnum.
  set (value := λ p : nat * nat, default 0%Z (cell s p.1 p.2)).
  assert (∀ p, p ∈ unit →
    cell s p.1 p.2 = Some (value p) ∧ (1 ≤ value p ≤ Z.of_nat n)%Z) as Hvalue.
  { intros p Hp. destruct (Hin p Hp) as [Hr Hc].
    destruct (Hfilled p.1 p.2 Hr Hc) as (v & Hv & Hvr).
    unfold value. rewrite Hv. done. }
  assert (value <$> unit ≡ₚ Z.of_nat <$> seq 1 n) as Hperm.
  { apply submseteq_length_Permutation.
    - apply NoDup_submseteq.
      + apply NoDup_fmap_2_strong; [|done]. intros p q Hp Hq Heq.
        destruct (Hvalue p Hp) as [Hvp Hrp]. destruct (Hvalue q Hq) as [Hvq _].
        destruct (decide (p = q)) as [|Hne]; [done|]. exfalso.
        destruct (Hin p Hp) as [Hr Hc]. destruct (Hin q Hq) as [Hr' Hc'].
        rewrite <- Heq in Hvq.
        pose proof (Hfree p.1 p.2 q.1 q.2 (value p) Hr Hc Hr' Hc'
          ltac:(intros ?; apply Hne; by destruct p, q; simplify_eq/=)
          (Hsame p q Hp Hq) Hvp Hvq).
        lia.
      + intros v Hv. apply list_elem_of_fmap in Hv as (p & -> & Hp).
        apply numbers_range. by apply Hvalue.
    - by rewrite !length_fmap, length_seq, Hlen. }
  assert (num ∈ value <$> unit) as Hnumin by (rewrite Hperm; by apply numbers_range).
  apply list_elem_of_fmap in Hnumin as (p & -> & Hp).
  exists p. split; [done|]. by apply Hvalue.
Qed.

(** A number with a single possible cell in a house sits in that cell in
    every completion. *)
Lemma fill_hidden_singles_advances n describe unit (g : Grid) steps :
  house n unit →
  advances n (g, steps, false) (fill_hidden_singles describe unit n g steps).
Proof.
  intros Hhouse. unfold fill_hidden_singles.
  apply (foldl_rel (advances n)).
  intros [[grid stp] progress] num Hnum. apply numbers_range in Hnum.
  destruct (filter _ unit) as [|[r c] [|]] eqn:Hposs; simpl;
    [reflexivity| |reflexivity].
  assert (∀ p, p ∈ unit →
    (cell grid p.1 p.2 = Some 0%Z ∧ isValidMove grid p.1 p.2 num n = true) →
    p = (r, c)) as Honly.
  { intros [r' c'] Hp [Hz Hv].
    assert ((r', c') ∈ [(r, c)]) as Hin.
    { rewrite <- Hposs. apply list_elem_of_filter. split; [|done].
      unfold holds, read. simpl. simpl in Hz, Hv.
      rewrite bool_decide_eq_true_2 by done. by rewrite Hv. }
    by apply list_elem_of_singleton in Hin. }
  assert ((r, c) ∈ filter (λ '(r, c), holds grid r c 0
            && isValidMove grid r c num n = true) unit) as Hrc
    by (rewrite Hposs; left).
  apply list_elem_of_filter in Hrc as [Hok Hin].
  apply andb_true_iff in Hok as [Hzero Hvalid].
  unfold holds, read in Hzero. simpl in Hzero. apply bool_decide_eq_true in Hzero.
  destruct Hhouse as (Hnd & Hlen & Hrange & Hsame).
  destruct (Hrange _ Hin) as [Hr Hc]. simpl in Hr, Hc.
  apply advances_fill; try done.
  intros s Hs. pose proof Hs as [Hsolved [_ Hcells]].
  destruct (house_holds_every_number n unit s num
              (conj Hnd (conj Hlen (conj Hrange Hsame))) Hsolved Hnum)
    as ([r0 c0] & Hin0 & Hnum0). simpl in Hnum0.
  destruct (Hrange _ Hin0) as [Hr0 Hc0]. simpl in Hr0, Hc0.
  destruct (Hcells r0 c0 Hr0 Hc0) as [Hgiven|Hempty].
  - exfalso. rewrite Hnum0 in Hgiven.
    pose proof (proj1 (solver_isValidMove_iff n grid r c num Hr Hc) Hvalid) as Hfree.
    apply (Hfree r0 c0 Hr0 Hc0); [|done].
    apply (Hsame (r, c) (r0, c0)); done.
  - assert ((r0, c0) = (r, c)) as [= -> ->]; [|done].
    apply Honly; [done|]. split; [done|]. simpl.
    by apply (solver_completion_move_valid n s).
Qed.

Lemma row_house n row : row < n → house n ((λ col, (row, col)) <$> seq 0 n).
Proof.
  intros Hrow. split; [|split; [|split]].
  - apply NoDup_fmap_2_strong; [|apply NoDup_seq]. by intros c1 c2 _ _ [= ->].
  - by rewrite length_fmap, length_seq.
  - intros p Hp. apply list_elem_of_fmap in Hp as (c & -> & Hc).
    apply elem_of_seq in Hc. simpl. lia.
  - intros p q Hp Hq. apply list_elem_of_fmap in Hp as (c1 & -> & _).
    apply list_elem_of_fmap in Hq as (c2 & -> & _). by left.
Qed.

Lemma column_house n col : col < n → house n ((λ row, (row, col)) <$> seq 0 n).
Proof.
  intros Hcol. split; [|split; [|split]].
  - apply NoDup_fmap_2_strong; [|apply NoDup_seq]. by intros r1 r2 _ _ [= ->].
  - by rewrite length_fmap, length_seq.
  - intros p Hp. apply list_elem_of_fmap in Hp as (r & -> & Hr).
    apply elem_of_seq in Hr. simpl. lia.
  - intros p q Hp Hq. apply list_elem_of_fmap in Hp as (r1 & -> & _).
    apply list_elem_of_fmap in Hq as (r2 & -> & _). right. by left.
Qed.

Lemma box_house n kr kc :
  sqrt_is_whole n = true → kr < Nat.sqrt n → kc < Nat.sqrt n →
  house n (r ← seq (kr * Nat.sqrt n) (Nat.sqrt n);
           c ← seq (kc * Nat.sqrt n) (Nat.sqrt n); [(r, c)]).
Proof.
  intros Hw Hkr Hkc. pose proof (whole_root n Hw) as Hsq.
  set (b := Nat.sqrt n) in *.
  assert (∀ p, p ∈ (r ← seq (kr * b) b; c ← seq (kc * b) b; [(r, c)]) ↔
    kr * b ≤ p.1 < kr * b + b ∧ kc * b ≤ p.2 < kc * b + b) as Hmem.
  { intros [r c]. rewrite list_elem_of_bind. simpl. split.
    - intros (r' & Hin & Hr'). apply list_elem_of_bind in Hin as (c' & Hin & Hc').
      apply list_elem_of_singleton in Hin as [= -> ->].
      apply elem_of_seq in Hr', Hc'. lia.
    - intros [Hr Hc]. exists r. split; [|apply elem_of_seq; lia].
      apply list_elem_of_bind. exists c. split; [by left|apply elem_of_seq; lia]. }
  split; [|split; [|split]].
  - apply NoDup_bind.
    + intros r1 r2 x _ _ H1 H2.
      apply list_elem_of_bind in H1 as (c1 & H1 & _).
      apply list_elem_of_bind in H2 as (c2 & H2 & _).
      apply list_elem_of_singleton in H1, H2. congruence.
    + intros r _. apply NoDup_bind.
      * intros c1 c2 x _ _ H1 H2.
        apply list_elem_of_singleton in H1, H2. congruence.
      * intros c _. apply NoDup_singleton.
      * apply NoDup_seq.
    + apply NoDup_seq.
  - rewrite (length_bind_const _ b).
    + by rewrite length_seq.
    + intros r. by rewrite length_bind_singleton, length_seq.
  - intros p Hp. apply Hmem in Hp. nia.
  - intros p q Hp Hq. apply Hmem in Hp as [Hp1 Hp2]. apply Hmem in Hq as [Hq1 Hq2].
    right. right. split; [done|]. assert (0 < b) by lia.
    apply box_block in Hp1, Hp2, Hq1, Hq2; try done.
    unfold same_box. fold b. split; congruence.
Qed.

Lemma elem_of_stride_whole n x :
  sqrt_is_whole n = true → x ∈ stride n (Nat.sqrt n) →
  ∃ k, x = k * Nat.sqrt n ∧ k < Nat.sqrt n.
Proof.
  intros Hw Hx. pose proof (whole_root n Hw) as Hsq. unfold stride in Hx.
  set (b := Nat.sqrt n) in *.
  apply list_elem_of_fmap in Hx as (k & -> & Hk). exists k. split; [done|].
  destruct b as [|b']; [by apply elem_of_nil in Hk|].
  assert ((n + S b' - 1) / S b' = S b') as Hdiv.
  { symmetry. apply (Nat.div_unique _ _ _ b'); lia. }
  rewrite Hdiv in Hk. apply elem_of_seq in Hk. lia.
Qed.

Lemma applyHiddenSingles_advances n (g : Grid) steps :
  advances n (g, steps, false) (applyHiddenSingles g n steps).
Proof.
  unfold applyHiddenSingles.
  set (st1 := for_upto n _ (g, steps, false)).
  set (st2 := for_upto n _ st1).
  assert (advances n (g, steps, false) st1) as H1.
  { unfold st1, for_upto. apply (foldl_rel (advances n)).
    intros [[grid stp] progress] row Hrow. apply elem_of_seq in Hrow.
    unfold findHiddenSinglesInRow.
    pose proof (fill_hidden_singles_advances n HiddenSingleInRowText _ grid stp
                  (row_house n row ltac:(lia))) as Hfill.
    destruct (fill_hidden_singles _ _ n grid stp) as [[grid1 stp1] p1].
    by apply advances_join. }
  assert (advances n st1 st2) as H2.
  { unfold st2, for_upto. apply (foldl_rel (advances n)).
    intros [[grid stp] progress] col Hcol. apply elem_of_seq in Hcol.
    unfold findHiddenSinglesInColumn.
    pose proof (fill_hidden_singles_advances n HiddenSingleInColumnText _ grid stp
                  (column_house n col ltac:(lia))) as Hfill.
    destruct (fill_hidden_singles _ _ n grid stp) as [[grid1 stp1] p1].
    by apply advances_join. }
  clearbody st1 st2.
  etransitivity; [exact H1|]. etransitivity; [exact H2|].
  destruct (sqrt_is_whole n) eqn:Hw; [|reflexivity].
  apply (foldl_rel (advances n)). intros st boxRow HboxRow.
  apply (elem_of_stride_whole n boxRow Hw) in HboxRow as (kr & -> & Hkr).
  apply (foldl_rel (advances n)).
  intros [[grid stp] progress] boxCol HboxCol.
  apply (elem_of_stride_whole n boxCol Hw) in HboxCol as (kc & -> & Hkc).
  unfold findHiddenSinglesInBox. simpl.
  intros Hpart. pose proof Hpart as ([Hlen _] & _). simpl in Hlen. revert Hpart.
  rewrite Hlen.
  pose proof (fill_hidden_singles_advances n HiddenSingleInBoxText _ grid stp
                (box_house n kr kc Hw Hkr Hkc)) as Hfill.
  destruct (fill_hidden_singles _ _ n grid stp) as [[grid1 stp1] p1].
  by apply advances_join.
Qed.

Lemma applyTechnique_advances n (g : Grid) technique :
  advances n (g, [], false)
    ((applyTechnique g technique n).1.1, (applyTechnique g technique n).2,
     (applyTechnique g technique n).1.2).
Proof.
  unfold applyTechnique. destruct technique; try reflexivity.
  - pose proof (applyNakedSingles_advances n g []) as H.
    by destruct (applyNakedSingles g n []) as [[g1 stp] applied].
  - pose proof (applyHiddenSingles_advances n g []) as H.
    by destruct (applyHiddenSingles g n []) as [[g1 stp] applied].
Qed.

Lemma applyTechnique_refines n (g : Grid) technique :
  refines n g (applyTechnique g technique n).1.1.
Proof.
  intros Hpart.
  destruct (applyTechnique_advances n g technique Hpart) as (Hp & Hb & Hc & _).
  done.
Qed.

(** X19.  One call of [applyTechnique] on a puzzle in a legal state.  The
    grid it leaves is a legal state that keeps every filled cell, and every
    completion of the puzzle is a completion of it: naked and hidden singles
    only make moves that are forced.  It records one step for each cell it
    fills, and it reports success exactly when it filled a cell; when it
    reports failure the grid is unchanged. *)
Theorem applyTechnique_forced n (g : Grid) technique :
  partial n g →
  let g' := (applyTechnique g technique n).1.1 in
  let applied := (applyTechnique g technique n).1.2 in
  let steps := (applyTechnique g technique n).2 in
  partial n g' ∧ blanked n g' g ∧
  (∀ s, completion n g s → completion n g' s) ∧
  empties n g' + length steps = empties n g ∧
  (applied = true ↔ empties n g' < empties n g) ∧
  (applied = false → g' = g ∧ steps = []).
Proof.
  intros Hpart g' applied steps.
  destruct (applyTechnique_advances n g technique Hpart)
    as (Hp & Hb & Hc & Hn & Hq & Ht). simpl in *.
  fold g' in Hp, Hb, Hc, Hn, Hq, Ht. fold applied in Hq, Ht. fold steps in Hn, Hq.
  split; [done|]. split; [done|]. split; [done|]. split; [lia|]. split; [split|].
  - intros Happlied. destruct (Ht Happlied) as [?|?]; done.
  - intros Hlt. destruct applied eqn:Happlied; [done|].
    destruct (Hq eq_refl) as [_ [= Heq _]]. rewrite Heq in Hlt. lia.
  - intros Happlied. destruct (Hq Happlied) as [_ [= ? ?]]. done.
Qed.

Lemma first_applicable_refines n techniques :
  ∀ g : Grid, refines n g (first_applicable techniques g n).1.
Proof.
  induction techniques as [|t ts IH]; intros g; simpl; [reflexivity|].
  pose proof (applyTechnique_refines n g t) as Ht.
  destruct (applyTechnique g t n) as [[g1 applied] stp]. simpl in Ht.
  destruct applied; [done|]. etransitivity; [exact Ht|apply IH].
Qed.

Lemma logical_loop_refines n budget :
  ∀ (g : Grid) steps used, refines n g (logical_loop budget g n steps used).1.1.
Proof.
  induction budget as [|budget IH]; intros g steps used; cbn [logical_loop].
  - reflexivity.
  - destruct (isGridComplete g); [reflexivity|].
    pose proof (first_applicable_refines n ladder g) as Hf.
    destruct (first_applicable ladder g n) as [g1 [[t stp]|]]; simpl in Hf.
    + etransitivity; [exact Hf|apply IH].
    + exact Hf.
Qed.

(** X20.  [solvePuzzle], from its working copy on, for a puzzle in a legal
    state whose [size] is the side of its grid.  It returns; the grid it
    leaves is a legal state that keeps every given cell; naked and hidden
    singles only make moves that every completion makes.  When it reports
    the puzzle solved, the grid is a completion of the puzzle.  Conversely,
    a puzzle that has a completion and at most 81 empty cells is reported
    solved whenever less than 9 seconds have passed on the clock when the
    logical phase ends. *)
Theorem solve_working_copy_correct size (g : Grid) clock :
  partial size g →
  ∃ g' outcome clock',
    solve_working_copy g size clock = Some (g', outcome, clock') ∧
    partial size g' ∧ blanked size g' g ∧
    (solved_flag outcome = true ↔ empties size g' = 0) ∧
    (solved_flag outcome = true → completion size g g') ∧
    ((∃ s, completion size g s) → empties size g ≤ 81 →
     (readings clock (S (ticks clock)) - readings clock (ticks clock) < 9000)%Z →
     solved_flag outcome = true) ∧
    (1 ≤ timeElapsed outcome)%Z.
Proof.
  intros Hpart. unfold solve_working_copy.
  pose proof (logical_loop_refines size maxIterations g [] [] Hpart)
    as (Hp1 & Hb1 & Hc1).
  destruct (logical_loop maxIterations g size [] []) as [[g1 steps] used].
  simpl in Hp1, Hb1, Hc1. unfold now. cbn [readings ticks].
  set (start := readings clock (ticks clock)).
  set (t := readings clock (S (ticks clock))).
  match goal with
  | |- context [match ?x with Some _ => _ | None => _ end = _] => set (fallback := x)
  end.
  assert (∃ (g' : Grid) steps' used' clock1,
    fallback = Some (g', steps', used', clock1) ∧
    partial size g' ∧ blanked size g' g ∧
    ((∃ s, completion size g s) → empties size g ≤ 81 →
     (t - start < 9000)%Z → isGridComplete g' = true))
    as (g' & steps' & used' & clock1 & Hfallback & Hp' & Hb' & Hyes).
  { unfold fallback. destruct (isGridComplete g1) eqn:Hcomplete.
    { do 4 eexists. split; [reflexivity|]. by rewrite Hcomplete. }
    destruct (1000 <? 10000 - (t - start))%Z eqn:Htime.
    - destruct (SolverFrame.solveWithBacktracking_total depth_fuel g1 size 0)
        as [[g2 b] Hsolve]; [unfold depth_fuel; lia|unfold depth_fuel; lia|].
      rewrite Hsolve. destruct b.
      + pose proof (solveWithBacktracking_sound _ _ _ _ _ Hp1 Hsolve) as [Hs2 Hb2].
        do 4 eexists. split; [reflexivity|].
        split; [by apply solved_partial|]. split; [by eapply blanked_trans|].
        intros _ _ _. apply (isGridComplete_empties size); [by destruct Hs2|].
        by apply solved_empties.
      + apply solveWithBacktracking_restores in Hsolve as Heq. subst g2.
        do 4 eexists. split; [reflexivity|]. split; [done|]. split; [done|].
        intros [s Hs] Hfew _. exfalso.
        pose proof (blanked_empties size g g1 Hb1) as Hle.
        destruct (solveWithBacktracking_complete depth_fuel g1 s size 0 (Hc1 s Hs))
          as [g3 Hrun]; [lia|unfold depth_fuel; lia|unfold depth_fuel; lia|].
        congruence.
    - do 4 eexists. split; [reflexivity|]. split; [done|]. split; [done|].
      intros _ _ Hclock. apply Z.ltb_ge in Htime. lia. }
  clearbody fallback. subst fallback.
  do 3 eexists. split; [reflexivity|]. cbn [solved_flag timeElapsed].
  pose proof Hp' as (Hsq' & _).
  split; [done|]. split; [done|]. split; [by apply isGridComplete_empties|].
  split; [|split; [done|lia]].
  intros Hdone. apply (isGridComplete_empties size) in Hdone; [|done].
  split; [by apply partial_full|done].
Qed.

End SolverLaws.

(** * Further properties of the calibrator *)

Module CalibratorLaws.
Import Calibrator.

(** ** Two more functions of the calibrator *)

(** [validateDifficultyRating]; the lookup [difficultyBoundaries[d]] is
    [None] for a key the table lacks, where the source throws. *)
Definition validateDifficultyRating (puzzle : Puzzle) : option bool :=
  let calibration := calibrateDifficulty puzzle false in
  match list_find (λ e, e.1 = difficulty puzzle) difficultyBoundaries with
  | Some (_, (_, (min, max))) =>
    Some (bool_decide (min <= difficultyScore calibration)%R
          && bool_decide (difficultyScore calibration <= max)%R)
  | None => None
  end.

(** [variantMultipliers[puzzle.variant] || 1.0]: every variant has an entry
    and no entry is 0, so the default is never taken. *)
Definition variantMultipliers (v : PuzzleVariant) : R :=
  match v with
  | CLASSIC => 1
  | KILLER => 13 / 10
  | X_SUDOKU => 12 / 10
  | HYPER => 14 / 10
  | MINI => 8 / 10
  | MEGA => 16 / 10
  end%R.

Definition adjustDifficultyForVariant (baseDifficulty : R) (puzzle : Puzzle) : R :=
  let multiplier := variantMultipliers (variant puzzle) in
  Rmin (baseDifficulty * multiplier) 10.

(** ** The usage map *)

(** Every technique has one entry, and every count is at least one. *)
Definition usage_ok (usage : Usage) : Prop :=
  NoDup usage.*1 ∧ Forall (λ e, (1 <= e.2)%Q) usage.

Lemma usage_ok_nil : usage_ok [].
Proof. split; [apply NoDup_nil_2|apply Forall_nil_2]. Qed.

Lemma usage_set_ok usage t f :
  usage_ok usage → (1 <= f)%Q → usage_ok (usage_set usage t f).
Proof.
  intros [Hnd Hfreq] Hf. unfold usage_set.
  destruct (list_find _ usage) as [[i e]|] eqn:Hfind.
  - apply list_find_Some in Hfind as (Hi & He & _). split.
    + rewrite list_fmap_insert. simpl. rewrite list_insert_id; [done|].
      by rewrite list_lookup_fmap, Hi, <- He.
    + by apply Forall_insert.
  - apply list_find_None in Hfind. split.
    + rewrite fmap_app. apply NoDup_app. split; [done|].
      split; [|apply NoDup_singleton].
      intros x Hx Hx'. apply list_elem_of_singleton in Hx' as ->.
      apply list_elem_of_fmap in Hx as (e & He & Hin).
      rewrite Forall_forall in Hfind. by apply (Hfind e Hin).
    + apply Forall_app. split; [done|]. by apply Forall_singleton.
Qed.

Lemma usage_get_nonneg usage t : usage_ok usage → (0 <= usage_get usage t)%Q.
Proof.
  intros [_ Hfreq]. unfold usage_get.
  destruct (list_find _ usage) as [[i [t' f]]|] eqn:Hfind; [|Lqa.lra].
  apply list_find_Some in Hfind as (Hi & _ & _).
  rewrite Forall_forall in Hfreq.
  pose proof (Hfreq _ (list_elem_of_lookup_2 _ _ _ Hi)) as Hf. simpl in Hf. Lqa.lra.
Qed.

Lemma usage_add_ok usage t f :
  usage_ok usage → (1 <= f)%Q → usage_ok (usage_add usage t f).
Proof.
  intros Hok Hf. apply usage_set_ok; [done|].
  pose proof (usage_get_nonneg usage t Hok). Lqa.lra.
Qed.

Lemma usage_set_nonempty usage t f : usage_set usage t f ≠ [].
Proof.
  unfold usage_set. destruct (list_find _ usage) as [[i e]|] eqn:Hfind.
  - apply list_find_Some in Hfind as (Hi & _ & _).
    intros Heq. apply (f_equal length) in Heq. rewrite length_insert in Heq.
    apply lookup_lt_Some in Hi. simpl in Heq. lia.
  - intros Heq. by apply app_eq_nil in Heq as [_ ?].
Qed.

Lemma inject_Z_max1 z : (1 <= inject_Z (Z.max 1 z))%Q.
Proof. unfold Qle. simpl. lia. Qed.

Lemma Qmax1_ge q : (1 <= Qmax1 q)%Q.
Proof. unfold Qmax1. destruct (Qlt_le_dec 1 q); Lqa.lra. Qed.

Lemma addTechniquesBasedOnDifficulty_ok d usage emptyCells :
  usage_ok usage → usage ≠ [] →
  usage_ok (addTechniquesBasedOnDifficulty d usage emptyCells) ∧
  addTechniquesBasedOnDifficulty d usage emptyCells ≠ [].
Proof.
  intros Hok Hne. unfold addTechniquesBasedOnDifficulty. cbv zeta.
  pose proof (inject_Z_max1 (Z.of_nat (emptyCells / 20))) as Hbase.
  destruct d; (split; [|done || (unfold usage_add; apply usage_set_nonempty)]);
    repeat (done || apply usage_add_ok || apply Qmax1_ge).
Qed.

Lemma usage_loop_ok budget :
  ∀ g size d usage, usage_ok usage → usage_ok (usage_loop budget g size d usage).
Proof.
  induction budget as [|budget IH]; intros g size d usage Hok; cbn [usage_loop];
    [done|].
  destruct (isGridComplete g); [done|].
  destruct (first_applicable Solver.ladder g size) as [g1 [t|]].
  - apply IH. apply usage_add_ok; [done|Lqa.lra].
  - apply usage_add_ok; [done|Lqa.lra].
Qed.

Lemma techniqueUsage_ok puzzle forGeneration :
  usage_ok (techniqueUsage puzzle forGeneration) ∧
  techniqueUsage puzzle forGeneration ≠ [].
Proof.
  unfold techniqueUsage. cbv zeta.
  pose proof (usage_loop_ok 100 (initialState puzzle) (size puzzle)
                (difficulty puzzle) [] usage_ok_nil) as Hloop.
  set (usage := usage_loop _ _ _ _ _) in *. clearbody usage.
  set (usage' := if length usage =? 0 then _ else usage).
  assert (usage_ok usage' ∧ usage' ≠ []) as [Hok Hne].
  { unfold usage'. destruct (length usage =? 0) eqn:Hlen.
    - destruct (_ && _); (split; [|apply usage_set_nonempty]);
        repeat (done || apply usage_set_ok || apply inject_Z_max1).
    - split; [done|]. intros ->. done. }
  clearbody usage'.
  destruct (_ && _); [|done]. by apply addTechniquesBasedOnDifficulty_ok.
Qed.

Lemma techniqueWeights_pos t :
  (1 / 10 <= (techniqueWeights t).1 <= 5)%R ∧ (1 <= (techniqueWeights t).2 <= 45)%R.
Proof. destruct t; simpl; lra. Qed.

(** X21.  [analyzeTechniques] never returns an empty analysis; no technique
    is listed twice; every listed technique has a frequency of at least one
    and carries the complexity and time impact of the weight table. *)
Theorem analyzeTechniques_wellformed puzzle forGeneration :
  analyzeTechniques puzzle forGeneration ≠ [] ∧
  NoDup (technique <$> analyzeTechniques puzzle forGeneration) ∧
  ∀ a, a ∈ analyzeTechniques puzzle forGeneration →
    (1 <= frequency a)%Q ∧
    complexity a = (techniqueWeights (technique a)).1 ∧
    timeImpact a = (techniqueWeights (technique a)).2.
Proof.
  destruct (techniqueUsage_ok puzzle forGeneration) as [[Hnd Hfreq] Hne].
  unfold analyzeTechniques. split; [|split].
  - intros Heq. by apply fmap_nil_inv in Heq.
  - rewrite <- list_fmap_compose.
    erewrite list_fmap_ext; [exact Hnd|]. by intros i [t f] _.
  - intros a Ha. apply list_elem_of_fmap in Ha as ([t f] & -> & Hin). simpl.
    rewrite Forall_forall in Hfreq. split; [|done]. exact (Hfreq _ Hin).
Qed.

(** ** The score *)

Lemma ln_frequency_pos f : (1 <= f)%Q → (0 < ln (Q2R f + 1))%R.
Proof.
  intros Hf. apply Qreals.Qle_Rle in Hf.
  replace (Q2R 1) with 1%R in Hf by (unfold Q2R; simpl; lra).
  rewrite <- ln_1. apply ln_increasing; lra.
Qed.

Lemma weighted_sum_grows (weight : TechniqueAnalysis → R) techniques :
  (∀ a, a ∈ techniques → (0 < weight a)%R ∧ (1 <= frequency a)%Q) →
  ∀ acc,
    (acc <= foldl (λ total a, total + weight a * ln (Q2R (frequency a) + 1)) acc
                  techniques)%R ∧
    (techniques ≠ [] →
     (acc < foldl (λ total a, total + weight a * ln (Q2R (frequency a) + 1)) acc
                  techniques)%R).
Proof.
  induction techniques as [|a l IH]; intros Hall acc; simpl; [split; [lra|done]|].
  destruct (Hall a ltac:(left)) as [Hw Hf].
  pose proof (ln_frequency_pos _ Hf) as Hln.
  pose proof (Rmult_lt_0_compat _ _ Hw Hln) as Hterm.
  destruct (IH ltac:(intros b Hb; apply Hall; by right)
               (acc + weight a * ln (Q2R (frequency a) + 1))%R) as [Hle _].
  split; [lra|]. intros _. lra.
Qed.

Lemma analyzeTechniques_weights puzzle forGeneration a :
  a ∈ analyzeTechniques puzzle forGeneration →
  (0 < complexity a)%R ∧ (0 < timeImpact a / 100)%R ∧ (1 <= frequency a)%Q.
Proof.
  intros Ha. unfold analyzeTechniques in Ha.
  apply list_elem_of_fmap in Ha as ([t f] & -> & Hin). simpl.
  destruct (techniqueUsage_ok puzzle forGeneration) as [[_ Hfreq] _].
  rewrite Forall_forall in Hfreq. pose proof (Hfreq _ Hin) as Hf.
  pose proof (techniqueWeights_pos t). repeat split; [lra|lra|done].
Qed.

Lemma analyzeTechniques_nonempty puzzle forGeneration :
  analyzeTechniques puzzle forGeneration ≠ [].
Proof.
  destruct (techniqueUsage_ok puzzle forGeneration) as [_ Hne].
  unfold analyzeTechniques. intros Heq. by apply fmap_nil_inv in Heq.
Qed.

Lemma calibrated_score_range puzzle forGeneration :
  (0 < difficultyScore (calibrateDifficulty puzzle forGeneration) <= 10)%R.
Proof.
  unfold calibrateDifficulty. cbn [difficultyScore].
  unfold calculateDifficultyScore. cbv zeta.
  destruct (weighted_sum_grows complexity (analyzeTechniques puzzle forGeneration)
              ltac:(intros a Ha;
                    destruct (analyzeTechniques_weights _ _ _ Ha) as (? & _ & ?); done)
              0%R) as [_ Hpos].
  specialize (Hpos (analyzeTechniques_nonempty puzzle forGeneration)).
  split; [|apply Rmin_r]. apply Rmin_glb_lt; [done|lra].
Qed.

Lemma scoreToDifficulty_cases score :
  scoreToDifficulty score =
    if decide (0 <= score < 2)%R then BEGINNER
    else if decide (2 <= score < 35 / 10)%R then EASY
    else if decide (35 / 10 <= score < 55 / 10)%R then MEDIUM
    else if decide (55 / 10 <= score < 8)%R then HARD
    else EXPERT.
Proof.
  unfold scoreToDifficulty, difficultyBoundaries. cbn [list_find fst snd].
  repeat (destruct (decide _) as [?|?]; simpl; try reflexivity; try lra).
Qed.

(** X22.  The bands of the boundary table overlap, and [scoreToDifficulty]
    resolves every overlap in favour of the easier tier: the tiers start at
    0, 2, 3.5, 5.5 and 8; a score below 0 or from 8 on is EXPERT. *)
Theorem scoreToDifficulty_tiers score :
  ((0 <= score < 2)%R → scoreToDifficulty score = BEGINNER) ∧
  ((2 <= score < 35 / 10)%R → scoreToDifficulty score = EASY) ∧
  ((35 / 10 <= score < 55 / 10)%R → scoreToDifficulty score = MEDIUM) ∧
  ((55 / 10 <= score < 8)%R → scoreToDifficulty score = HARD) ∧
  ((score < 0 ∨ 8 <= score)%R → scoreToDifficulty score = EXPERT).
Proof.
  rewrite scoreToDifficulty_cases.
  repeat split; intros H; repeat (destruct (decide _) as [?|?]); try done; lra.
Qed.

(** X23.  The result of [calibrateDifficulty]: the score is positive and at
    most 10; at least one technique is required and none is listed twice;
    the tier is the one of the score; the estimated solve time is at least
    86 seconds, and at least 480 seconds for a 9×9 puzzle. *)
Theorem calibrateDifficulty_result puzzle forGeneration :
  let result := calibrateDifficulty puzzle forGeneration in
  (0 < difficultyScore result <= 10)%R ∧
  requiredTechniques result ≠ [] ∧ NoDup (requiredTechniques result) ∧
  calculatedDifficulty result = scoreToDifficulty (difficultyScore result) ∧
  (86 ≤ estimatedSolveTime result)%Z ∧
  (size puzzle = 9 → (480 ≤ estimatedSolveTime result)%Z).
Proof.
  intros result. split; [apply calibrated_score_range|].
  unfold result, calibrateDifficulty.
  cbn [requiredTechniques calculatedDifficulty difficultyScore estimatedSolveTime].
  destruct (techniqueUsage_ok puzzle forGeneration) as [[Hnd _] Hne].
  split; [|split; [|split; [done|]]].
  - intros Heq. apply fmap_nil_inv in Heq.
    by apply (analyzeTechniques_nonempty puzzle forGeneration).
  - unfold analyzeTechniques. rewrite <- list_fmap_compose.
    erewrite list_fmap_ext; [exact Hnd|]. by intros i [t f] _.
  - set (techniques := analyzeTechniques puzzle forGeneration).
    unfold estimateSolveTime, round. cbv zeta.
    destruct (weighted_sum_grows (λ a, timeImpact a / 100)%R techniques
                ltac:(intros a Ha;
                      destruct (analyzeTechniques_weights _ _ _ Ha) as (_ & ? & ?);
                      done) 1%R) as [Hsum _].
    set (sum := foldl _ 1%R techniques) in *. clearbody sum.
    assert (8 / 10 <= getDifficultyMultiplier techniques)%R as Hdiff.
    { unfold getDifficultyMultiplier. destruct (length techniques =? 0); [lra|].
      cbv zeta. repeat (destruct (Rlt_dec _ _)); lra. }
    set (dm := getDifficultyMultiplier techniques) in *. clearbody dm.
    assert (∀ x k, (IZR k <= x)%R → (k ≤ Int_part (x + 1 / 2))%Z) as Hround.
    { intros x k Hk. destruct (base_Int_part (x + 1 / 2)) as [_ Hlow].
      assert (IZR (k - 1) < IZR (Int_part (x + 1 / 2)))%R as Hlt
        by (rewrite minus_IZR; lra).
      apply lt_IZR in Hlt. lia. }
    split.
    + apply Hround.
      assert (180 * (6 / 10) <= default 600 (baseSolveTimes (size puzzle))
                                * getSizeMultiplier (size puzzle))%R as Hbase.
      { unfold baseSolveTimes, getSizeMultiplier.
        destruct (size puzzle =? MINI_6X6); [simpl; lra|].
        destruct (size puzzle =? CLASSIC_9X9); [simpl; lra|].
        destruct (size puzzle =? MEGA_16X16); simpl; lra. }
      set (bs := (default 600 (baseSolveTimes (size puzzle))
                  * getSizeMultiplier (size puzzle))%R) in *.
      replace (default 600%R (baseSolveTimes (size puzzle)) *
               (sum * getSizeMultiplier (size puzzle) * dm))%R
        with (bs * (sum * dm))%R by (unfold bs; ring).
      clearbody bs.
      assert (8 / 10 <= sum * dm)%R as Hprod by nra.
      set (m := (sum * dm)%R) in *. clearbody m. nra.
    + intros ->. apply Hround. simpl.
      change (getSizeMultiplier 9) with 1%R.
      assert (8 / 10 <= sum * dm)%R as Hprod by nra.
      replace (600 * (sum * 1 * dm))%R with (600 * (sum * dm))%R by ring.
      set (m := (sum * dm)%R) in *. clearbody m. lra.
Qed.

(** X24.  A puzzle whose declared tier is the tier [calibrateDifficulty]
    computes for it passes [validateDifficultyRating]. *)
Theorem validateDifficultyRating_accepts_calculated puzzle :
  calculatedDifficulty (calibrateDifficulty puzzle false) = difficulty puzzle →
  validateDifficultyRating puzzle = Some true.
Proof.
  unfold validateDifficultyRating. cbv zeta.
  pose proof (calibrated_score_range puzzle false) as Hrange.
  unfold calibrateDifficulty in *.
  cbn [calculatedDifficulty difficultyScore] in *.
  set (score := calculateDifficultyScore _) in *. clearbody score.
  rewrite scoreToDifficulty_cases. intros <-. unfold difficultyBoundaries.
  repeat (destruct (decide _) as [?|?]); cbn [list_find fst snd];
    repeat (destruct (decide _) as [?|?]; try done; simpl);
    f_equal; apply andb_true_iff; split; apply bool_decide_eq_true; lra.
Qed.

(** X25.  For a base difficulty between 0 and 10 the adjusted difficulty
    stays between 0 and 10.  It is the base for the classic variant, at most
    the base for the mini variant and at least the base for every other
    variant; a larger base never gives a smaller result. *)
Theorem adjustDifficultyForVariant_range base puzzle :
  (0 <= base <= 10)%R →
  (0 <= adjustDifficultyForVariant base puzzle <= 10)%R ∧
  (variant puzzle = CLASSIC → adjustDifficultyForVariant base puzzle = base) ∧
  (variant puzzle = MINI → (adjustDifficultyForVariant base puzzle <= base)%R) ∧
  (variant puzzle ≠ MINI → (base <= adjustDifficultyForVariant base puzzle)%R) ∧
  (∀ base', (base <= base')%R →
     (adjustDifficultyForVariant base puzzle
      <= adjustDifficultyForVariant base' puzzle)%R).
Proof.
  intros Hbase. unfold adjustDifficultyForVariant. cbv zeta.
  assert (8 / 10 <= variantMultipliers (variant puzzle) <= 16 / 10)%R as Hm
    by (destruct (variant puzzle); simpl; lra).
  split; [|split; [|split; [|split]]].
  - split; [apply Rmin_glb; nra|apply Rmin_r].
  - intros ->. simpl. rewrite Rmin_left; lra.
  - intros ->. simpl. etransitivity; [apply Rmin_l|]. lra.
  - intros Hv. apply Rmin_glb; [|lra].
    destruct (variant puzzle); simpl; try done; lra.
  - intros base' Hle. apply Rle_min_compat_r. nra.
Qed.

(** ** A grid without empty cells *)

Lemma countEmptyCells_complete (g : Grid) :
  isGridComplete g = true → countEmptyCells g = 0.
Proof.
  unfold isGridComplete, countEmptyCells. intros Hall.
  rewrite forallb_forall in Hall.
  assert (∀ rows count, (∀ rw, rw ∈ rows → rw ∈ g) →
    foldl (λ count row, foldl (λ count cell, if (cell =? 0)%Z then S count else count)
                              count row) count rows = count) as Hrows.
  { induction rows as [|rw rows IH]; intros count Hsub; simpl; [done|].
    rewrite IH by (intros rw' Hin; apply Hsub; by right).
    specialize (Hall rw ltac:(apply list_elem_of_In, Hsub; left)).
    rewrite forallb_forall in Hall.
    assert (∀ cells count, (∀ v, v ∈ cells → v ∈ rw) →
      foldl (λ count cell, if (cell =? 0)%Z then S count else count) count cells
      = count) as Hcells.
    { induction cells as [|v cells IHc]; intros k Hsubc; simpl; [done|].
      specialize (Hall v ltac:(apply list_elem_of_In, Hsubc; left)).
      apply negb_true_iff in Hall. rewrite Hall.
      apply IHc. intros v' Hin. apply Hsubc. by right. }
    by apply Hcells. }
  by apply Hrows.
Qed.

Lemma ln_2_bounds : (1 / 2 < ln 2 < 1)%R.
Proof.
  split.
  - pose proof ln_lt_2. lra.
  - rewrite <- (ln_exp 1). apply ln_increasing; [lra|].
    pose proof (exp_ineq1 1 ltac:(lra)). lra.
Qed.

Lemma techniqueUsage_complete puzzle forGeneration :
  isGridComplete (initialState puzzle) = true →
  techniqueUsage puzzle forGeneration = [(NAKED_SINGLES, 1%Q)].
Proof.
  intros Hcomplete. unfold techniqueUsage. cbv zeta.
  rewrite (countEmptyCells_complete _ Hcomplete).
  change 100 with (S 99). cbn [usage_loop]. rewrite Hcomplete.
  rewrite andb_false_r. simpl.
  set (total := size puzzle * size puzzle).
  assert ((10 * (Z.of_nat total - Z.of_nat 0) <? 6 * Z.of_nat total)%Z = false) as ->
    by (apply Z.ltb_ge; lia).
  by rewrite andb_false_r.
Qed.

(** X26.  A puzzle whose grid has no empty cell, whatever its declared tier
    and whether or not the grid is legal: [calibrateDifficulty] reports naked
    singles as the only technique, the score ln 2 / 10, the tier BEGINNER,
    and the confidence 0.42 for a 9×9 puzzle and 0.357 for any other size;
    the floor of 0.85 for 9×9 puzzles does not apply, the score being below
    0.1. *)
Theorem calibrateDifficulty_complete_grid puzzle forGeneration :
  isGridComplete (initialState puzzle) = true →
  let result := calibrateDifficulty puzzle forGeneration in
  requiredTechniques result = [NAKED_SINGLES] ∧
  difficultyScore result = (ln 2 / 10)%R ∧
  calculatedDifficulty result = BEGINNER ∧
  confidence result = (if size puzzle =? 9 then 42 / 100 else 357 / 1000)%R.
Proof.
  intros Hcomplete result. unfold result, calibrateDifficulty.
  cbn [requiredTechniques difficultyScore calculatedDifficulty confidence].
  unfold analyzeTechniques. rewrite (techniqueUsage_complete _ _ Hcomplete).
  cbn [fmap list_fmap technique]. pose proof ln_2_bounds as Hln.
  assert (calculateDifficultyScore
            [mkAnalysis NAKED_SINGLES 1 (techniqueWeights NAKED_SINGLES).1
                        (techniqueWeights NAKED_SINGLES).2] = (ln 2 / 10)%R) as Hscore.
  { unfold calculateDifficultyScore. simpl.
    assert (Q2R 1 = 1%R) as -> by (unfold Q2R; simpl; lra).
    replace (1 + 1)%R with 2%R by lra. rewrite Rmin_left; lra. }
  split; [done|]. split; [exact Hscore|]. split.
  - rewrite Hscore, scoreToDifficulty_cases. destruct (decide _) as [|Hno]; [done|]. lra.
  - unfold calculateConfidence. cbv zeta. rewrite Hscore.
    change (length [_] <? 2) with true. cbv iota.
    change ((1 <=? length [_]) && (length [_] <=? 8)) with true.
    destruct (Rlt_dec (ln 2 / 10) (5 / 10)) as [_|Hno]; [|lra].
    destruct (Rle_dec (1 / 10) (ln 2 / 10)) as [Hyes|_]; [lra|].
    unfold CLASSIC_9X9. destruct (size puzzle =? 9); simpl; rewrite Rmax_left; lra.
Qed.

End CalibratorLaws.

(** * Sample runs for the further properties *)

(** An executable check that a grid is in a legal state. *)
Definition partialb (size : nat) (g : Grid) : bool :=
  squareb size g && conflict_freeb size g
  && forallb (λ row, forallb (λ v, (0 <=? v)%Z && (v <=? Z.of_nat size)%Z) row) g.

Lemma partialb_partial size g : partialb size g = true → GeneratorFacts.partial size g.
Proof.
  unfold partialb. rewrite !andb_true_iff. intros [[Hsq Hfree] Hrange].
  split; [by apply squareb_square|].
  split; [by apply conflict_freeb_conflict_free|].
  intros r c v Hv. unfold cell in Hv.
  destruct (g !! r) as [rw|] eqn:Hr; [|done]. simpl in Hv.
  rewrite forallb_forall in Hrange.
  pose proof (Hrange rw ltac:(apply list_elem_of_In; by eapply list_elem_of_lookup_2))
    as Hrow.
  rewrite forallb_forall in Hrow.
  pose proof (Hrow v ltac:(apply list_elem_of_In; by eapply list_elem_of_lookup_2))
    as Hcell.
  apply andb_true_iff in Hcell as [Hlo Hhi].
  apply Z.leb_le in Hlo, Hhi. lia.
Qed.

Lemma generateBandWisePermutation_band_permutation_witness :
  sqrt_is_whole 9 = true ∧
  (Generator.generateBandWisePermutation 9 (scrambled 1)).1 = [3; 4; 5; 2; 1; 0; 7; 8; 6] ∧
  (Generator.generateBandWisePermutation 9 (scrambled 1)).1 ≡ₚ seq 0 9 ∧
  GeneratorFacts.keeps_bands 9 (Generator.generateBandWisePermutation 9 (scrambled 1)).1.
Proof.
  split; [reflexivity|]. split; [vm_compute; reflexivity|].
  exact (GeneratorLaws.generateBandWisePermutation_band_permutation
           9 (scrambled 1) eq_refl).
Defined.

Lemma invertPermutation_inverse_witness :
  [2; 3; 1; 0] ≡ₚ seq 0 4 ∧
  Generator.invertPermutation [2; 3; 1; 0] = [3; 2; 0; 1] ∧
  Generator.invertPermutation [2; 3; 1; 0] ≡ₚ seq 0 4 ∧
  (∀ i x, [2; 3; 1; 0] !! i = Some x
          ↔ Generator.invertPermutation [2; 3; 1; 0] !! x = Some i) ∧
  Generator.invertPermutation (Generator.invertPermutation [2; 3; 1; 0]) = [2; 3; 1; 0].
Proof.
  assert ([2; 3; 1; 0] ≡ₚ seq 0 4) as Hp
    by (apply (bool_decide_unpack _); vm_compute; reflexivity).
  split; [exact Hp|]. split; [reflexivity|].
  exact (GeneratorLaws.invertPermutation_inverse 4 [2; 3; 1; 0] Hp).
Defined.

Lemma applyPermutation_band_wise_solved_witness :
  sqrt_is_whole 9 = true ∧ solved 9 sample_solution ∧
  solved 9 (Generator.applyPermutation sample_solution
              (Generator.generateBandWisePermutation 9 (scrambled 1)).1
              (Generator.generateBandWisePermutation 9 (scrambled 2)).1).
Proof.
  assert (solved 9 sample_solution) as Hs
    by (apply solvedb_solved; vm_compute; reflexivity).
  split; [reflexivity|]. split; [exact Hs|].
  exact (GeneratorLaws.applyPermutation_band_wise_solved
           9 sample_solution (scrambled 1) (scrambled 2) eq_refl Hs).
Defined.

Lemma getBalancedRemovalOrder_each_cell_once_witness :
  sqrt_is_whole 4 = true ∧
  NoDup (Generator.getBalancedRemovalOrder 4 (scrambled 1)).1 ∧
  length (Generator.getBalancedRemovalOrder 4 (scrambled 1)).1 = 4 * 4 ∧
  ∀ pos, pos ∈ (Generator.getBalancedRemovalOrder 4 (scrambled 1)).1
         ↔ row pos < 4 ∧ col pos < 4.
Proof.
  split; [reflexivity|].
  exact (GeneratorLaws.getBalancedRemovalOrder_each_cell_once 4 (scrambled 1) eq_refl).
Defined.

Lemma isValidMove_iff_witness :
  sqrt_is_whole 9 = true ∧ 0 < 9 ∧
  Generator.isValidMove sample_initialState 0 0 8 9 = true ∧
  Generator.isValidMove sample_initialState 0 0 6 9 = false ∧
  (Generator.isValidMove sample_initialState 0 0 8 9 = true ↔
   ∀ r' c', r' < 9 → c' < 9 → same_unit 9 0 0 r' c' →
     cell sample_initialState r' c' ≠ Some 8%Z).
Proof.
  split; [reflexivity|]. split; [lia|]. split; [reflexivity|]. split; [reflexivity|].
  apply (GeneratorLaws.isValidMove_iff 9 sample_initialState 0 0 8);
    [reflexivity|lia|lia].
Defined.

Lemma solvePuzzle_decides_witness :
  sqrt_is_whole 9 = true ∧ GeneratorFacts.partial 9 sample_initialState ∧
  ∃ b g' rng',
    Generator.solvePuzzle (Generator.search_fuel 9) sample_initialState 9 (scrambled 1)
    = Some (b, g', rng') ∧
    if b then GeneratorLaws.completion 9 sample_initialState g'
    else g' = sample_initialState
         ∧ ¬ ∃ s, GeneratorLaws.completion 9 sample_initialState s.
Proof.
  assert (GeneratorFacts.partial 9 sample_initialState) as Hp
    by (apply partialb_partial; vm_compute; reflexivity).
  split; [reflexivity|]. split; [exact Hp|].
  exact (GeneratorLaws.solvePuzzle_decides 9 sample_initialState (scrambled 1)
           eq_refl Hp).
Defined.

Lemma validateUniqueSolution_exact_witness :
  sqrt_is_whole (length sample_initialState) = true ∧
  GeneratorFacts.partial (length sample_initialState) sample_initialState ∧
  Generator.validateUniqueSolution sample_initialState = Some false ∧
  ∃ sols b,
    Generator.findAllSolutions (Generator.search_fuel (length sample_initialState))
      sample_initialState (length sample_initialState) [] 2
    = Some (sample_initialState, sols) ∧
    NoDup sols ∧ length sols ≤ 2 ∧
    (∀ s, s ∈ sols →
          GeneratorLaws.completion (length sample_initialState) sample_initialState s) ∧
    Generator.validateUniqueSolution sample_initialState = Some b ∧
    (b = true ↔
     ∃ s, GeneratorLaws.completion (length sample_initialState) sample_initialState s ∧
       ∀ s', GeneratorLaws.completion (length sample_initialState) sample_initialState s'
             → s' = s).
Proof.
  assert (GeneratorFacts.partial (length sample_initialState) sample_initialState)
    as Hp by (apply partialb_partial; vm_compute; reflexivity).
  split; [reflexivity|]. split; [exact Hp|]. split; [vm_compute; reflexivity|].
  exact (GeneratorLaws.validateUniqueSolution_exact sample_initialState eq_refl Hp).
Defined.

Lemma generatePuzzle_givens_count_witness :
  ∃ p, Generator.generatePuzzle sample_options (scrambled 1) = Generator.Returned p ∧
    GeneratorLaws.givens 9 (initialState p) = 34 ∧
    (size p = 9 →
     (Generator.clueRanges (difficulty p)).1
     ≤ GeneratorLaws.givens (size p) (initialState p)
     ≤ (Generator.clueRanges (difficulty p)).2) ∧
    (size p ≠ 9 →
     GeneratorLaws.givens (size p) (initialState p)
     = match difficulty p with
       | EXPERT | HARD =>
         max (size p * size p * Generator.clueRatios (difficulty p) / 100)
             (size p * size p - Generator.maxAttempts)
       | _ => size p * size p * Generator.clueRatios (difficulty p) / 100
       end).
Proof.
  eexists. split; [vm_compute; reflexivity|]. split; [vm_compute; reflexivity|].
  apply (GeneratorLaws.generatePuzzle_givens_count sample_options (scrambled 1)).
  vm_compute. reflexivity.
Defined.

Lemma generatePuzzle_score_bounded_witness :
  ∃ p, Generator.generatePuzzle sample_options (scrambled 1) = Generator.Returned p ∧
    NoDup (techniques (metadata p)) ∧
    (∀ t, t ∈ techniques (metadata p) →
          t ∈ [NAKED_SINGLES; HIDDEN_SINGLES; FORCING_CHAINS]) ∧
    (0 <= difficultyScore p <= 53 # 10)%Q ∧
    (300 ≤ estimatedSolveTime (metadata p) ≤ 618)%Z.
Proof.
  eexists. split; [vm_compute; reflexivity|].
  apply (GeneratorLaws.generatePuzzle_score_bounded sample_options (scrambled 1)).
  vm_compute. reflexivity.
Defined.

Lemma calculateDifficulty_recomputes_witness :
  sqrt_is_whole (length (initialState blank_puzzle)) = true ∧
  square (length (initialState blank_puzzle)) (initialState blank_puzzle) ∧
  GeneratorLaws.calculateDifficulty blank_puzzle = Some 5%Q ∧
  ∃ score, GeneratorLaws.calculateDifficulty blank_puzzle = Some score ∧
    (0 <= score <= 53 # 10)%Q ∧
    (empties (length (initialState blank_puzzle)) (initialState blank_puzzle) = 0 →
     score = 0%Q).
Proof.
  assert (square (length (initialState blank_puzzle)) (initialState blank_puzzle))
    as Hsq by (apply squareb_square; vm_compute; reflexivity).
  split; [reflexivity|]. split; [exact Hsq|]. split; [vm_compute; reflexivity|].
  exact (proj1 (GeneratorLaws.calculateDifficulty_recomputes blank_puzzle)
           eq_refl Hsq).
Defined.

Lemma generatePuzzle_returns_for_every_square_witness :
  sqrt_is_whole 25 = true ∧
  (∀ rng, ∃ s rng',
     Generator.generateCompleteSolution 25 rng = Generator.Returned (s, rng')
     ∧ solved 25 s) ∧
  (∀ variant d cs rng, ∃ p,
     Generator.generatePuzzle (mkOptions variant d 25 cs) rng = Generator.Returned p).
Proof.
  split; [reflexivity|].
  exact (GeneratorLaws.generatePuzzle_returns_for_every_square 25 eq_refl).
Defined.

Lemma getCandidates_spec_witness :
  square (length sample_initialState) sample_initialState ∧
  Solver.getCandidates sample_initialState 0 0 = [4; 8; 9]%Z ∧
  (cell sample_initialState 0 0 ≠ Some 0%Z →
   Solver.getCandidates sample_initialState 0 0 = []) ∧
  (cell sample_initialState 0 0 = Some 0%Z →
   ∀ v, v ∈ Solver.getCandidates sample_initialState 0 0 ↔
        (1 ≤ v ≤ Z.of_nat (length sample_initialState))%Z ∧
        ∀ r' c', r' < length sample_initialState → c' < length sample_initialState →
          same_unit (length sample_initialState) 0 0 r' c' →
          cell sample_initialState r' c' ≠ Some v) ∧
  Sorted.StronglySorted Z.lt (Solver.getCandidates sample_initialState 0 0).
Proof.
  assert (square (length sample_initialState) sample_initialState) as Hsq
    by (apply squareb_square; vm_compute; reflexivity).
  split; [exact Hsq|]. split; [vm_compute; reflexivity|].
  apply (SolverLaws.getCandidates_spec sample_initialState 0 0 Hsq); simpl; lia.
Defined.

(** The sample initial state with a second 6 in its first row. *)
Definition sample_conflict : Grid := set_cell sample_initialState 0 0 6.

Lemma validatePuzzle_verdict_witness :
  square (length sample_conflict) sample_conflict ∧
  Solver.isValid (Solver.validatePuzzle sample_conflict) = false ∧
  Solver.conflictingCells (Solver.validatePuzzle sample_conflict)
  = [mkPosition 0 0; mkPosition 0 4; mkPosition 2 1] ∧
  (Solver.isValid (Solver.validatePuzzle sample_conflict) = true
   ↔ GeneratorFacts.partial (length sample_conflict) sample_conflict) ∧
  (Solver.isComplete (Solver.validatePuzzle sample_conflict) = true
   ↔ empties (length sample_conflict) sample_conflict = 0) ∧
  (Solver.conflictingCells (Solver.validatePuzzle sample_conflict)
   = (λ p, mkPosition p.1 p.2) <$>
       filter (λ p, SolverLaws.cell_conflicts sample_conflict
                      (length sample_conflict) p ≠ [])
              (positions (length sample_conflict))) ∧
  (∀ r c, r < length sample_conflict → c < length sample_conflict →
     SolverLaws.cell_conflicts sample_conflict (length sample_conflict) (r, c) ≠ [] ↔
     ∃ v, cell sample_conflict r c = Some v ∧ v ≠ 0%Z ∧
       ¬ ((1 ≤ v ≤ Z.of_nat (length sample_conflict))%Z ∧
          ∀ r' c', r' < length sample_conflict → c' < length sample_conflict →
            (r, c) ≠ (r', c') → same_unit (length sample_conflict) r c r' c' →
            cell sample_conflict r' c' ≠ Some v)) ∧
  (Solver.isValid (Solver.validatePuzzle sample_conflict) = true
   ↔ Solver.conflictingCells (Solver.validatePuzzle sample_conflict) = []).
Proof.
  assert (square (length sample_conflict) sample_conflict) as Hsq
    by (apply squareb_square; vm_compute; reflexivity).
  split; [exact Hsq|]. split; [vm_compute; reflexivity|].
  split; [vm_compute; reflexivity|].
  exact (SolverLaws.validatePuzzle_verdict sample_conflict Hsq).
Defined.

Lemma solveWithBacktracking_decides_witness :
  GeneratorFacts.partial 9 sample_initialState ∧
  ∃ g' b,
    Solver.solveWithBacktracking Solver.depth_fuel sample_initialState 9 0
    = Some (g', b) ∧
    (if b then GeneratorLaws.completion 9 sample_initialState g'
     else g' = sample_initialState) ∧
    (empties 9 sample_initialState ≤ 81 →
     (b = true ↔ ∃ s, GeneratorLaws.completion 9 sample_initialState s)) ∧
    (81 < empties 9 sample_initialState → b = false).
Proof.
  assert (GeneratorFacts.partial 9 sample_initialState) as Hp
    by (apply partialb_partial; vm_compute; reflexivity).
  split; [exact Hp|].
  exact (SolverLaws.solveWithBacktracking_decides 9 sample_initialState Hp).
Defined.

Lemma hasUniqueSolution_exact_witness :
  GeneratorFacts.partial (length two_completions) two_completions ∧
  empties (length two_completions) two_completions ≤ 81 ∧
  SolverLaws.in_budget (now frozen_clock).2 (now frozen_clock).1 5000 ∧
  ∃ b clock', Solver.hasUniqueSolution two_completions frozen_clock = Some (b, clock') ∧
    (b = true ↔
     ∃ s, GeneratorLaws.completion (length two_completions) two_completions s ∧
       ∀ s', GeneratorLaws.completion (length two_completions) two_completions s'
             → s' = s).
Proof.
  assert (GeneratorFacts.partial (length two_completions) two_completions) as Hp
    by (apply partialb_partial; vm_compute; reflexivity).
  assert (empties (length two_completions) two_completions ≤ 81) as He
    by (vm_compute; lia).
  assert (SolverLaws.in_budget (now frozen_clock).2
            (now frozen_clock).1 5000) as Hb
    by (intros k _; simpl; lia).
  split; [exact Hp|]. split; [exact He|]. split; [exact Hb|].
  exact (SolverLaws.hasUniqueSolution_exact two_completions frozen_clock Hp He Hb).
Defined.

(** A full grid that breaks every rule. *)
Definition all_ones : Grid := replicate 4 (replicate 4 1%Z).

Lemma hasUniqueSolution_full_grid_witness :
  empties (length all_ones) all_ones = 0 ∧
  Solver.isValid (Solver.validatePuzzle all_ones) = false ∧
  Solver.hasUniqueSolution all_ones frozen_clock
  = Some (true, mkClock (readings frozen_clock)
                               (S (S (ticks frozen_clock)))).
Proof.
  split; [vm_compute; reflexivity|]. split; [vm_compute; reflexivity|].
  apply (SolverLaws.hasUniqueSolution_full_grid all_ones frozen_clock).
  - vm_compute. reflexivity.
  - simpl. lia.
Defined.

Lemma applyTechnique_forced_witness :
  GeneratorFacts.partial 9 sample_initialState ∧
  (Solver.applyTechnique sample_initialState NAKED_SINGLES 9).1.2 = true ∧
  GeneratorFacts.partial 9 (Solver.applyTechnique sample_initialState NAKED_SINGLES 9).1.1 ∧
  blanked 9 (Solver.applyTechnique sample_initialState NAKED_SINGLES 9).1.1
          sample_initialState ∧
  (∀ s, GeneratorLaws.completion 9 sample_initialState s →
        GeneratorLaws.completion 9
          (Solver.applyTechnique sample_initialState NAKED_SINGLES 9).1.1 s) ∧
  empties 9 (Solver.applyTechnique sample_initialState NAKED_SINGLES 9).1.1
  + length (Solver.applyTechnique sample_initialState NAKED_SINGLES 9).2
  = empties 9 sample_initialState ∧
  ((Solver.applyTechnique sample_initialState NAKED_SINGLES 9).1.2 = true ↔
   empties 9 (Solver.applyTechnique sample_initialState NAKED_SINGLES 9).1.1
   < empties 9 sample_initialState) ∧
  ((Solver.applyTechnique sample_initialState NAKED_SINGLES 9).1.2 = false →
   (Solver.applyTechnique sample_initialState NAKED_SINGLES 9).1.1 = sample_initialState
   ∧ (Solver.applyTechnique sample_initialState NAKED_SINGLES 9).2 = []).
Proof.
  assert (GeneratorFacts.partial 9 sample_initialState) as Hp
    by (apply partialb_partial; vm_compute; reflexivity).
  split; [exact Hp|]. split; [vm_compute; reflexivity|].
  exact (SolverLaws.applyTechnique_forced 9 sample_initialState NAKED_SINGLES Hp).
Defined.

Lemma solve_working_copy_correct_witness :
  GeneratorFacts.partial 9 sample_initialState ∧
  ∃ g' outcome clock',
    Solver.solve_working_copy sample_initialState 9 frozen_clock
    = Some (g', outcome, clock') ∧
    GeneratorFacts.partial 9 g' ∧ blanked 9 g' sample_initialState ∧
    (Solver.solved_flag outcome = true ↔ empties 9 g' = 0) ∧
    (Solver.solved_flag outcome = true →
     GeneratorLaws.completion 9 sample_initialState g') ∧
    ((∃ s, GeneratorLaws.completion 9 sample_initialState s) →
     empties 9 sample_initialState ≤ 81 →
     (readings frozen_clock (S (ticks frozen_clock))
      - readings frozen_clock (ticks frozen_clock) < 9000)%Z →
     Solver.solved_flag outcome = true) ∧
    (1 ≤ Solver.timeElapsed outcome)%Z.
Proof.
  assert (GeneratorFacts.partial 9 sample_initialState) as Hp
    by (apply partialb_partial; vm_compute; reflexivity).
  split; [exact Hp|].
  exact (SolverLaws.solve_working_copy_correct 9 sample_initialState frozen_clock Hp).
Defined.

(** A complete grid rated as a beginner's puzzle. *)
Definition beginner_puzzle : Puzzle :=
  mkPuzzle CLASSIC BEGINNER 9 sample_solution sample_solution []
           (mkMetadata 300 [] 0%Q 0 0 (CLASSIC, BEGINNER)) 0%Q.

Lemma beginner_puzzle_tier :
  Calibrator.calculatedDifficulty (Calibrator.calibrateDifficulty beginner_puzzle false)
  = difficulty beginner_puzzle.
Proof.
  unfold Calibrator.calibrateDifficulty. cbn [Calibrator.calculatedDifficulty].
  unfold Calibrator.analyzeTechniques.
  assert (Calibrator.techniqueUsage beginner_puzzle false = [(NAKED_SINGLES, 1%Q)])
    as -> by (vm_compute; reflexivity).
  rewrite CalibratorLaws.scoreToDifficulty_cases.
  unfold Calibrator.calculateDifficultyScore. simpl.
  assert (Q2R 1 = 1%R) as -> by (unfold Q2R; simpl; lra).
  replace (1 + 1)%R with 2%R by lra.
  assert (0 < ln 2 < 1)%R as Hln.
  { split.
    - pose proof ln_lt_2. lra.
    - rewrite <- (ln_exp 1). apply ln_increasing; [lra|].
      pose proof (exp_ineq1 1 ltac:(lra)). lra. }
  rewrite Rmin_left by lra. destruct (decide _) as [|Hno]; [done|]. lra.
Qed.

Lemma validateDifficultyRating_accepts_calculated_witness :
  Calibrator.calculatedDifficulty (Calibrator.calibrateDifficulty beginner_puzzle false)
  = difficulty beginner_puzzle ∧
  CalibratorLaws.validateDifficultyRating beginner_puzzle = Some true.
Proof.
  split; [exact beginner_puzzle_tier|].
  exact (CalibratorLaws.validateDifficultyRating_accepts_calculated
           beginner_puzzle beginner_puzzle_tier).
Defined.

Lemma adjustDifficultyForVariant_range_witness :
  (0 <= 5 <= 10)%R ∧
  (0 <= CalibratorLaws.adjustDifficultyForVariant 5 blank_puzzle <= 10)%R ∧
  (variant blank_puzzle = CLASSIC →
   CalibratorLaws.adjustDifficultyForVariant 5 blank_puzzle = 5%R) ∧
  (variant blank_puzzle = MINI →
   (CalibratorLaws.adjustDifficultyForVariant 5 blank_puzzle <= 5)%R) ∧
  (variant blank_puzzle ≠ MINI →
   (5 <= CalibratorLaws.adjustDifficultyForVariant 5 blank_puzzle)%R) ∧
  (∀ base', (5 <= base')%R →
     (CalibratorLaws.adjustDifficultyForVariant 5 blank_puzzle
      <= CalibratorLaws.adjustDifficultyForVariant base' blank_puzzle)%R).
Proof.
  assert (0 <= 5 <= 10)%R as Hbase by lra.
  split; [exact Hbase|].
  exact (CalibratorLaws.adjustDifficultyForVariant_range 5 blank_puzzle Hbase).
Defined.

Lemma calibrateDifficulty_complete_grid_witness :
  Calibrator.isGridComplete (initialState beginner_puzzle) = true ∧
  Calibrator.requiredTechniques (Calibrator.calibrateDifficulty beginner_puzzle true)
  = [NAKED_SINGLES] ∧
  Calibrator.difficultyScore (Calibrator.calibrateDifficulty beginner_puzzle true)
  = (ln 2 / 10)%R ∧
  Calibrator.calculatedDifficulty (Calibrator.calibrateDifficulty beginner_puzzle true)
  = BEGINNER ∧
  Calibrator.confidence (Calibrator.calibrateDifficulty beginner_puzzle true)
  = (if size beginner_puzzle =? 9 then 42 / 100 else 357 / 1000)%R.
Proof.
  assert (Calibrator.isGridComplete (initialState beginner_puzzle) = true) as Hfull
    by (vm_compute; reflexivity).
  split; [exact Hfull|].
  exact (CalibratorLaws.calibrateDifficulty_complete_grid beginner_puzzle true Hfull).
Defined.
